(** * IIR filter-set synthesis and F-statistic demodulation

    A shallow embedding of [lalinspiral/src/LALInspiralIIR.c] and of the
    [TestLALDemod] routine of the demodulation source, with the properties
    their specification states.

    Numbers.  [REAL4] and [REAL8] values are modelled by the real numbers:
    no rounding and no overflow.  Infinities and NaN are represented in one
    place only, the two candidate steps of the synthesizer, where a zero
    finite difference of the phase makes the source divide by zero.
    Elsewhere a division by zero follows the convention of the library of
    reals ([x / 0 = 0], [ln 0 = 0]); the statements below either do not
    depend on such a value or exclude it by a hypothesis.  C integers
    ([int], [INT4], [UINT4]) are modelled by [Z]; where the source converts
    a signed value to [UINT4] or compares a signed with an unsigned operand
    the wrap-around is written out. *)

From Stdlib Require Import Reals ZArith List Sorted Lia Lra Psatz Bool.
Import ListNotations.

Local Open Scope R_scope.

(** ** Scalars and conversions *)

Module Num.

Definition REAL8 := R.
Definition REAL4 := R.

(** [floor] of [math.h], a REAL8 with an integral value. *)
Definition floor (x : R) : R := IZR (Int_part x).

(** The conversion [(int) x]: truncation toward zero. *)
Definition int_of_real (x : R) : Z :=
  if Rle_dec 0 x then Int_part x else (- Int_part (- x))%Z.

(** [fabs] *)
Definition fabs (x : R) : R := Rabs x.

(** [pow (x, y)] for the only use the source makes of it, a cube root. *)
Definition pow (x y : R) : R := if Rlt_dec 0 x then Rpower x y else 0.

Definition LAL_PI : R := PI.
Definition LAL_TWOPI : R := 2 * PI.

(** [v->data[i]].  A read outside the vector is undefined in C; the model
    yields 0 there. *)
Definition dat (v : list R) (i : Z) : R :=
  if (i <? 0)%Z then 0 else nth (Z.to_nat i) v 0.

Definition len {A} (v : list A) : Z := Z.of_nat (length v).

End Num.


(** ** Complex numbers ([COMPLEX16], [complex double]) *)

Module Cx.

Record COMPLEX16 : Type := crect { creal : R; cimag : R }.

Definition czero : COMPLEX16 := crect 0 0.
Definition cadd (z w : COMPLEX16) : COMPLEX16 :=
  crect (creal z + creal w) (cimag z + cimag w).
Definition csub (z w : COMPLEX16) : COMPLEX16 :=
  crect (creal z - creal w) (cimag z - cimag w).
Definition cmul (z w : COMPLEX16) : COMPLEX16 :=
  crect (creal z * creal w - cimag z * cimag w)
        (creal z * cimag w + cimag z * creal w).
Definition conj (z : COMPLEX16) : COMPLEX16 := crect (creal z) (- cimag z).
Definition cnorm2 (z : COMPLEX16) : R := creal z * creal z + cimag z * cimag z.
Definition cdiv (z w : COMPLEX16) : COMPLEX16 :=
  crect ((creal z * creal w + cimag z * cimag w) / cnorm2 w)
        ((cimag z * creal w - creal z * cimag w) / cnorm2 w).
Definition cabs (z : COMPLEX16) : R := sqrt (cnorm2 z).
Definition cpolar (r theta : R) : COMPLEX16 :=
  crect (r * cos theta) (r * sin theta).

(** [carg z = atan2 (cimag z, creal z)], for finite arguments. *)
Definition atan2 (y x : R) : R :=
  if Rlt_dec 0 x then atan (y / x)
  else if Rlt_dec x 0 then
         (if Rle_dec 0 y then atan (y / x) + PI else atan (y / x) - PI)
  else if Rlt_dec 0 y then PI / 2
  else if Rlt_dec y 0 then - (PI / 2)
  else 0.
Definition carg (z : COMPLEX16) : R := atan2 (cimag z) (creal z).

Fixpoint cpow (z : COMPLEX16) (n : nat) : COMPLEX16 :=
  match n with
  | O => crect 1 0
  | S m => cmul z (cpow z m)
  end.

End Cx.

(** ** LALInspiralIIR.c *)

Module IIR.
Import Num Cx.

Inductive errno : Type := XLAL_EINVAL | XLAL_EBADLEN.

(** The outcome of a function that reports through [XLAL_ERROR]. *)
Inductive xlal (A : Type) : Type :=
| XLAL_OK (a : A)
| XLAL_ERROR (e : errno).
Arguments XLAL_OK {A} a.
Arguments XLAL_ERROR {A} e.

(** The three output vectors, grown together by one entry per filter: the
    entry of index [nfilters - 1] written after each resize is the last of
    each list. *)
Record iirset : Type := mkset {
  a1 : list COMPLEX16;
  b0 : list COMPLEX16;
  delay : list Z
}.

Definition clogabs (z : COMPLEX16) : R :=
  let xabs := fabs (creal z) in
  let yabs := fabs (cimag z) in
  if Rge_dec xabs yabs
  then (let u := yabs / xabs in ln xabs + 0.5 * ln (1 + u * u))
  else (let u := xabs / yabs in ln yabs + 0.5 * ln (1 + u * u)).

(** The values of the REAL8 expressions of lines 88-89, in which a division
    by zero occurs when a finite difference of the phase vanishes: a finite
    number, an infinity or a NaN, with the IEEE 754 results of the
    operations applied to them. *)
Inductive REAL8x : Type :=
| Finite (x : R)
| PlusInf
| MinusInf
| NaN.

(** [num / den] for a divisor that is an absolute value, hence never
    negative (and never [-0.]). *)
Definition x_quot (num den : R) : REAL8x :=
  if Req_dec_T den 0 then
    if Rlt_dec 0 num then PlusInf
    else if Rlt_dec num 0 then MinusInf
    else NaN
  else Finite (num / den).

(** [sqrt x] *)
Definition x_sqrt (x : REAL8x) : REAL8x :=
  match x with
  | Finite r => if Rle_dec 0 r then Finite (sqrt r) else NaN
  | PlusInf => PlusInf
  | MinusInf => NaN
  | NaN => NaN
  end.

(** [pow (x, 1./3)]: a negative finite base with an exponent that is not an
    integer gives a NaN, and both infinities give [+inf]. *)
Definition x_cbrt (x : REAL8x) : REAL8x :=
  match x with
  | Finite r => if Rle_dec 0 r then Finite (pow r (1 / 3)) else NaN
  | PlusInf => PlusInf
  | MinusInf => PlusInf
  | NaN => NaN
  end.

(** [floor (x + 0.5)] *)
Definition x_floor_half (x : REAL8x) : REAL8x :=
  match x with
  | Finite r => Finite (floor (r + 0.5))
  | other => other
  end.

(** [x > y]: false as soon as one operand is a NaN. *)
Definition x_gt (x y : REAL8x) : bool :=
  match x, y with
  | NaN, _ | _, NaN => false
  | MinusInf, _ => false
  | Finite _, PlusInf => false
  | Finite a, Finite b => if Rgt_dec a b then true else false
  | Finite _, MinusInf => true
  | PlusInf, PlusInf => false
  | PlusInf, _ => true
  end.

(** [(int) x].  The conversion of an infinity or of a NaN is undefined in
    C; the model yields 0 there, and [x_finite] is the hypothesis that
    excludes it. *)
Definition x_int (x : REAL8x) : Z :=
  match x with
  | Finite r => int_of_real r
  | _ => 0%Z
  end.

Definition x_finite (x : REAL8x) : Prop :=
  match x with
  | Finite _ => True
  | _ => False
  end.

Section Synthesizer.

Variables (amp phase : list R) (epsilon alpha beta : R).

(** Lines 74-85: the second and third finite differences of the phase. *)
Definition phase_ddot (j : Z) : R :=
  fabs (if (len phase - 3 <? j)%Z
        then (dat phase (j - 2) - 2 * dat phase (j - 1) + dat phase j)
             / LAL_TWOPI
        else (dat phase (j - 1) - 2 * dat phase j + dat phase (j + 1))
             / LAL_TWOPI).

Definition phase_tdot (j : Z) : R :=
  fabs (if (len phase - 3 <? j)%Z
        then (dat phase (j - 3) - 3 * dat phase (j - 2)
              + 3 * dat phase (j - 1) - dat phase j) / LAL_TWOPI
        else (- 0.5 * dat phase (j - 2) + dat phase (j - 1)
              - dat phase (j + 1) + 0.5 * dat phase (j + 2)) / LAL_TWOPI).

(** Lines 88-89: the two candidate steps.  Both finite differences are
    absolute values, so a zero one makes the quotient [+inf], [-inf] or a
    NaN according to the sign of [epsilon]. *)
Definition jstep_second (j : Z) : REAL8x :=
  x_floor_half (x_sqrt (x_quot (2 * epsilon) (phase_ddot j))).

Definition jstep_third (j : Z) : REAL8x :=
  x_floor_half (x_cbrt (x_quot (6 * epsilon) (phase_tdot j))).

(** Lines 91-100: the smaller of the two candidates, at least 2. *)
Definition jstep_min (j : Z) : Z :=
  let jstep :=
    if x_gt (jstep_third j) (jstep_second j)
    then x_int (jstep_second j)
    else x_int (jstep_third j) in
  if (jstep <? 2)%Z then 2%Z else jstep.

(** The candidate that lines 91-96 convert to [int] is a finite number, so
    that the conversion is defined. *)
Definition step_defined (j : Z) : Prop :=
  if x_gt (jstep_third j) (jstep_second j)
  then x_finite (jstep_second j)
  else x_finite (jstep_third j).

(** Lines 102 and 106: [k = (int) floor (j - alpha * jstep + 0.5)]. *)
Definition anchor (j jstep : Z) : Z :=
  int_of_real (floor (IZR j - alpha * IZR jstep + 0.5)).

(** Lines 104-107: the step and the anchor that the body ends up with. *)
Definition jstep_at (j : Z) : Z :=
  if (anchor j (jstep_min j) <? 1)%Z then j else jstep_min j.

Definition k_at (j : Z) : Z := anchor j (jstep_at j).

(** Lines 115-123: the first derivative of the phase at the anchor. *)
Definition phase_dot (k : Z) : R :=
  if (len amp - 3 <? k)%Z then
    11 / 6 * dat phase k - 3 * dat phase (k - 1)
    + 1.5 * dat phase (k - 2) - 1 / 3 * dat phase (k - 3)
  else if (2 <=? k)%Z then
    (- dat phase (k + 2) + 8 * (dat phase (k + 1) - dat phase (k - 1))
     + dat phase (k - 2)) / 12
  else
    - 11 / 6 * dat phase k + 3 * dat phase (k + 1)
    - 1.5 * dat phase (k + 2) + 1 / 3 * dat phase (k + 3).

(** Lines 130-137: resize the three vectors and record the new filter. *)
Definition record_filter (j jstep k : Z) (s : iirset) : iirset :=
  let pd := phase_dot k in
  mkset (a1 s ++ [cpolar (exp (- beta / IZR jstep)) (- pd)])
        (b0 s ++ [cpolar (dat amp k) (dat phase k + pd * IZR (j - k))])
        (delay s ++ [(len amp - 1 - j)%Z]).

(** The [while (j > 3)] loop of lines 71-145.  Every pass lowers [j] by at
    least 2, so [fuel >= j] passes are never used up: with no fuel left the
    loop condition is false (lemma [iir_loop_fuel] below). *)
Fixpoint iir_loop (fuel : nat) (j : Z) (s : iirset) : xlal iirset :=
  match fuel with
  | O => XLAL_OK s
  | S fuel' =>
      if (3 <? j)%Z then
        let jstep := jstep_at j in
        let k := k_at j in
        if (k <? 0)%Z then XLAL_ERROR XLAL_EINVAL
        else
          let s' := record_filter j jstep k s in
          if (k <? 2)%Z then XLAL_OK s'
          else iir_loop fuel' (j - jstep) s'
      else XLAL_OK s
  end.

(** [padding] and [iir_type_flag] only select warnings that are printed. *)
Definition XLALInspiralGenerateIIRSet (padding : R) (iir_type_flag : Z)
  : xlal iirset :=
  let j := (len amp - 1)%Z in
  if negb (len amp =? len phase)%Z then XLAL_ERROR XLAL_EINVAL
  else iir_loop (Z.to_nat j) j (mkset [] [] []).

(** The walk of the cursor as the specification words it, from a start
    cursor: stop when [j <= 3], record and break when the anchor is below 2,
    else record and go on from [j - jstep].  The list holds the delays
    [N - 1 - j] of the records in the order they are appended. *)
Inductive walk : Z -> list Z -> Prop :=
| walk_done j : (j <= 3)%Z -> walk j []
| walk_break j :
    (3 < j)%Z -> (0 <= k_at j < 2)%Z -> walk j [(len amp - 1 - j)%Z]
| walk_next j ds :
    (3 < j)%Z -> (2 <= k_at j)%Z -> (2 <= jstep_at j)%Z ->
    walk (j - jstep_at j) ds -> walk j ((len amp - 1 - j)%Z :: ds).

(** A rotator of magnitude [exp (- beta / jstep)] for a step of at least 2,
    as the specification describes the decay coefficients. *)
Definition decaying (a : COMPLEX16) : Prop :=
  exists jstep : Z, (2 <= jstep)%Z /\ cabs a = exp (- beta / IZR jstep).

End Synthesizer.

(** *** The evaluator *)

(** The response samples, addressed relative to [response->data]; the C
    buffer is the window of indices [0 .. L-1]. *)
Definition buffer : Type := Z -> COMPLEX16.

Definition memset0 (L : Z) (m : buffer) : buffer :=
  fun i => if ((0 <=? i) && (i <? L))%Z then czero else m i.

Definition store (m : buffer) (p : Z) (v : COMPLEX16) : buffer :=
  fun i => if (i =? p)%Z then v else m i.

(** Lines 169-173.  The cast binds tighter than the division: the integer
    [(int) logf (1e-13)] is divided by [logf (cabs a1)], and the quotient is
    truncated by the assignment to [length]. *)
Definition response_length (a : COMPLEX16) (L d : Z) : Z :=
  let length :=
    int_of_real (IZR (int_of_real (ln (1 / 10 ^ 13))) / ln (cabs a)) in
  let maxlength := (L - d)%Z in
  if (maxlength <? length)%Z then maxlength else length.

(** Lines 178-182: [n] passes from the sample of index [p]. *)
Fixpoint response_inner (n : nat) (a y : COMPLEX16) (p : Z) (m : buffer)
  : buffer :=
  match n with
  | O => m
  | S n' =>
      let y' := cmul y a in
      response_inner n' a y' (p + 1) (store m p (cadd (m p) y'))
  end.

(** Lines 166-185: the three pointers advance together. *)
Fixpoint response_filters (a1 b0 : list COMPLEX16) (delay : list Z) (L : Z)
  (m : buffer) : buffer :=
  match a1, b0, delay with
  | a :: a1', b :: b0', d :: delay' =>
      let y := cdiv b a in
      let length := response_length a L d in
      response_filters a1' b0' delay' L
        (response_inner (Z.to_nat length) a y d m)
  | _, _, _ => m
  end.

(** The status returned and the buffer as the call leaves it. *)
Definition XLALInspiralIIRSetResponse (a1 b0 : list COMPLEX16)
  (delay : list Z) (L : Z) (response : buffer) : xlal unit * buffer :=
  if negb (len a1 =? len b0)%Z || negb (len a1 =? len delay)%Z
  then (XLAL_ERROR XLAL_EBADLEN, response)
  else (XLAL_OK tt, response_filters a1 b0 delay L (memset0 L response)).

(** The response as the specification words it: the filter [(a, b, d)]
    contributes the term [b * a ^ n] to the sample [d + n] for
    [n = 0 .. length - 1], and the contributions of the bank add up. *)
Definition filter_term (a b : COMPLEX16) (d L i : Z) : COMPLEX16 :=
  if ((d <=? i) && (i <? d + response_length a L d))%Z
  then cmul b (cpow a (Z.to_nat (i - d)))
  else czero.

Fixpoint bank_terms (a1 b0 : list COMPLEX16) (delay : list Z) (L i : Z)
  : COMPLEX16 :=
  match a1, b0, delay with
  | a :: a1', b :: b0', d :: delay' =>
      cadd (filter_term a b d L i) (bank_terms a1' b0' delay' L i)
  | _, _, _ => czero
  end.

(** *** Fourier transform of one filter and the inner product *)

Definition XLALInspiralGenerateIIRSetFourierTransform (j jmax : Z)
  (a1 b0 : COMPLEX16) (delay : Z) : COMPLEX16 * COMPLEX16 :=
  let loga1 := clogabs a1 in
  let arga1 := carg a1 in
  let pf := 2 * LAL_PI * IZR j / IZR jmax in
  let scl := cpolar 0.5 (- pf * IZR (jmax - delay)) in
  let ft := cdiv b0 (crect (- loga1) (- arga1 - pf)) in
  let ftconj := cdiv (conj b0) (crect (- loga1) (arga1 - pf)) in
  (cmul scl (cadd ft ftconj), cmul scl (csub ft ftconj)).

(** Lines 221-226: the sum of the cosine quadratures over the bank. *)
Definition hA_at (a1 b0 : list COMPLEX16) (delay : list Z) (P : Z) (j : nat)
  : COMPLEX16 :=
  fold_left
    (fun hA k =>
       let '(hfcos, _) :=
         XLALInspiralGenerateIIRSetFourierTransform
           (Z.of_nat j) (2 * P) (nth k a1 czero) (nth k b0 czero)
           (nth k delay 0%Z) in
       cadd hA hfcos)
    (seq 0 (length a1)) czero.

(** Lines 217-228; the value left in [*ip]. *)
Definition XLALInspiralCalculateIIRSetInnerProduct (a1 b0 : list COMPLEX16)
  (delay : list Z) (psd : list R) : R :=
  fold_left
    (fun ip j =>
       let hA := hA_at a1 b0 delay (len psd) j in
       ip + cabs hA * cabs hA / (nth j psd 0 * IZR (len psd)) * 1)
    (seq 0 (length psd)) 0.

End IIR.

(** ** TestLALDemod

    The generic build: none of [USE_BOINC], [USE_FLOOR], [USE_LUT_Y] or the
    architecture hooks is defined, so [klim] is the [UINT4] variable
    initialised to [2 * Dterms] and the plain C loops are compiled. *)

Module Demod.
Import Num Cx.

Definition LD_SMALL : R := (1 / 10 ^ 9) / LAL_TWOPI.
Definition OOTWOPI : R := 1 / LAL_TWOPI.
Definition LUT_RES : Z := 64.

(** *** The lookup tables of lines 104-118

    They are filled once and only read afterwards; each is given by the
    value of its entry. *)
Definition sinVal (k : Z) : R := sin (LAL_TWOPI * IZR k / IZR LUT_RES).
Definition sinVal2PI (k : Z) : R := sinVal k * LAL_TWOPI.
Definition sinVal2PIPI (k : Z) : R := sinVal2PI k * LAL_PI.
Definition cosVal (k : Z) : R := sinVal (k + LUT_RES / 4).
Definition cosVal2PI (k : Z) : R := sinVal2PI (k + LUT_RES / 4).
Definition cosVal2PIPI (k : Z) : R := sinVal2PIPI (k + LUT_RES / 4).
Definition divLUTtab (k : Z) : R := IZR k / IZR LUT_RES.

(** Lines 198-203 and 223-226: nearest knot and three Taylor terms. *)
Definition lut_idx (x : R) : Z := int_of_real (x * IZR LUT_RES + 0.5).

Definition lut_sin (x : R) : R :=
  let idx := lut_idx x in
  let d := x - divLUTtab idx in
  let d2 := d * d in
  sinVal idx + d * cosVal2PI idx - d2 * sinVal2PIPI idx.

Definition lut_cos (x : R) : R :=
  let idx := lut_idx x in
  let d := x - divLUTtab idx in
  let d2 := d * d in
  cosVal idx - d * sinVal2PI idx - d2 * cosVal2PIPI idx.

(** *** Parameters and data *)

Record AMCoeffs : Type := mkam {
  am_a : list R;
  am_b : list R;
  am_A : R;
  am_B : R;
  am_C : R;
  am_D : R
}.

Record DemodPar : Type := mkpar {
  spinDwnOrder : Z;
  skyConst : list R;
  spinDwn : list R;
  amcoe : AMCoeffs;
  f0 : R;
  df : R;
  SFTno : Z;
  Dterms : Z;
  ifmin : Z;
  imax : Z;
  returnFaFb : bool
}.

(** The samples [fft->data->data] of one SFT, by index. *)
Definition SFT : Type := Z -> COMPLEX16.

Record LALFstat : Type := mkF {
  F : Z -> R;
  Fa : Z -> COMPLEX16;
  Fb : Z -> COMPLEX16
}.

(** How a call ends: [RETURN], [exit (COMPUTEFSTAT_EXIT_DEMOD)] or
    [ABORT (status, COMPUTEFSTAT_EINPUT, ...)]. *)
Inductive outcome (A : Type) : Type :=
| Returned (a : A)
| Exit_DEMOD
| Abort_EINPUT.
Arguments Returned {A} a.
Arguments Exit_DEMOD {A}.
Arguments Abort_EINPUT {A}.

(** Every real number is finite. *)
Definition finite (x : R) : bool := true.

(** The value of an [INT4] operand converted to [UINT4]. *)
Definition to_UINT4 (z : Z) : Z := (z mod 2 ^ 32)%Z.

(** The state of the Dirichlet-kernel loops: the read position (the
    variable [sftIndex] in the first loop, the pointer [Xalpha_k] as an
    offset from [Xalpha] in the second), the running [tempFreq1], the two
    sums, and the indices of [Xalpha] read so far, latest first. *)
Record kstate : Type := mkk {
  k_pos : Z;
  k_tempFreq1 : R;
  k_realXP : R;
  k_imagXP : R;
  k_reads : list Z
}.

(** A pass of a kernel loop that reads one sample and moves on by one. *)
Definition reads_one (step : kstate -> kstate) : Prop :=
  forall st, k_pos (step st) = (k_pos st + 1)%Z
             /\ k_reads (step st) = k_pos st :: k_reads st.

Section Segment.

(** [SMALL] comes from a header that is not part of the sources at hand,
    and [maxSFTindex] is a global set by the caller. *)
Variable SMALL : R.
Variable maxSFTindex : Z.
Variable params : DemodPar.
Variable input : list SFT.

Definition tempInt1 (alpha : Z) : Z :=
  (2 * alpha * (spinDwnOrder params + 1) + 1)%Z.

(** Lines 124-132. *)
Definition spin_sum (off : Z) (alpha : Z) : R :=
  fold_left
    (fun acc s =>
       acc + dat (spinDwn params) (Z.of_nat s)
             * dat (skyConst params) (tempInt1 alpha + off + 2 * Z.of_nat s))
    (seq 0 (Z.to_nat (spinDwnOrder params))) 0.

Definition xSum (alpha : Z) : R := spin_sum 2 alpha.
Definition ySum (alpha : Z) : R := spin_sum 1 alpha.

(** Lines 256-280: one pass of the loop taken when [tempFreq0 < LD_SMALL]. *)
Definition kernel_small_step (Xalpha : SFT) (tsin tcos : R) (st : kstate)
  : kstate :=
  let x := LAL_TWOPI * k_tempFreq1 st in
  let Xalpha_k := Xalpha (k_pos st) in
  if Rlt_dec (fabs x) SMALL then
    mkk (k_pos st + 1) (k_tempFreq1 st - 1)
        (k_realXP st + creal Xalpha_k)
        (k_imagXP st + cimag Xalpha_k)
        (k_pos st :: k_reads st)
  else
    let realP := tsin / x in
    let imagP := tcos / x in
    mkk (k_pos st + 1) (k_tempFreq1 st - 1)
        (k_realXP st + creal Xalpha_k * realP - cimag Xalpha_k * imagP)
        (k_imagXP st + creal Xalpha_k * imagP + cimag Xalpha_k * realP)
        (k_pos st :: k_reads st).

(** Lines 309-322: one pass of the loop taken otherwise. *)
Definition kernel_step (Xalpha : SFT) (tsin tcos : R) (st : kstate)
  : kstate :=
  let xinv := OOTWOPI / k_tempFreq1 st in
  let Xa := Xalpha (k_pos st) in
  let realP := tsin * xinv in
  let imagP := tcos * xinv in
  mkk (k_pos st + 1) (k_tempFreq1 st - 1)
      (k_realXP st + (creal Xa * realP - cimag Xa * imagP))
      (k_imagXP st + (creal Xa * imagP + cimag Xa * realP))
      (k_pos st :: k_reads st).

Fixpoint iterate {A} (n : nat) (f : A -> A) (a : A) : A :=
  match n with
  | O => a
  | S n' => iterate n' f (f a)
  end.

(** What one pass of the loop over the SFTs leaves: the indices of [Xalpha]
    it read, in the order of the reads, and either the product [Q * XP] or
    the way the call ended. *)
Record segment_run : Type := mkrun {
  run_reads : list Z;
  run_end : outcome (R * R)
}.

(** Line 163: the bin of the phase model, and line 232: the index of the
    first sample read. *)
Definition xTemp_at (f : R) (alpha : Z) : R :=
  f * dat (skyConst params) (tempInt1 alpha) + xSum alpha.

Definition sftIndex_at (f : R) (alpha : Z) : Z :=
  (int_of_real (xTemp_at f alpha) - Dterms params + 1 - ifmin params)%Z.

(** Lines 146-343, up to the update of [Fa] and [Fb]. *)
Definition segment (f : R) (alpha : Z) : segment_run :=
  let Xalpha := nth (Z.to_nat alpha) input (fun _ => czero) in
  let xTemp := xTemp_at f alpha in
  if negb (finite xTemp) then mkrun [] Exit_DEMOD
  else if Rlt_dec xTemp 0 then mkrun [] Exit_DEMOD
  else
    let xTInt := int_of_real xTemp in
    let tempFreq0 := xTemp - IZR xTInt in
    let tsin := lut_sin tempFreq0 in
    let tcos := lut_cos tempFreq0 - 1 in
    let yTemp :=
      f * dat (skyConst params) (tempInt1 alpha - 1) + ySum alpha in
    let yRem0 := yTemp - IZR (int_of_real yTemp) in
    let yRem := if Rlt_dec yRem0 0 then yRem0 + 1 else yRem0 in
    let imagQ := - lut_sin yRem in
    let realQ := lut_cos yRem in
    let sftIndex := sftIndex_at f alpha in
    if (sftIndex <? 0)%Z then mkrun [] Abort_EINPUT
    else
      let tempFreq1 := tempFreq0 + IZR (Dterms params) - 1 in
      let klim := Z.to_nat (to_UINT4 (2 * Dterms params)) in
      let st0 := mkk sftIndex tempFreq1 0 0 [] in
      let '(st, sftIndex') :=
        if Rlt_dec tempFreq0 LD_SMALL
        then (let st := iterate klim (kernel_small_step Xalpha tsin tcos) st0
              in (st, k_pos st))
        else (iterate klim (kernel_step Xalpha tsin tcos) st0, sftIndex) in
      if (maxSFTindex <? to_UINT4 (sftIndex' - 1))%Z
      then mkrun (rev (k_reads st)) Abort_EINPUT
      else
        let realQXP := k_realXP st * realQ - k_imagXP st * imagQ in
        let imagQXP := k_realXP st * imagQ + k_imagXP st * realQ in
        mkrun (rev (k_reads st)) (Returned (realQXP, imagQXP)).

(** Lines 146-344: the loop over the SFTs for one frequency, from the
    segment [alpha] on. *)
Fixpoint sft_loop (f : R) (n : nat) (alpha : Z) (Fa Fb : COMPLEX16)
  : outcome (COMPLEX16 * COMPLEX16) :=
  match n with
  | O => Returned (Fa, Fb)
  | S n' =>
      match run_end (segment f alpha) with
      | Returned (realQXP, imagQXP) =>
          let a := dat (am_a (amcoe params)) alpha in
          let b := dat (am_b (amcoe params)) alpha in
          sft_loop f n' (alpha + 1)
            (crect (creal Fa + a * realQXP) (cimag Fa + a * imagQXP))
            (crect (creal Fb + b * realQXP) (cimag Fb + b * imagQXP))
      | Exit_DEMOD => Exit_DEMOD
      | Abort_EINPUT => Abort_EINPUT
      end
  end.

Definition set {A} (v : Z -> A) (i : Z) (x : A) : Z -> A :=
  fun i' => if (i' =? i)%Z then x else v i'.

(** Lines 346-355. *)
Definition store_bin (i : Z) (Fa Fb : COMPLEX16) (Fs : LALFstat) : LALFstat :=
  let A := am_A (amcoe params) in
  let B := am_B (amcoe params) in
  let C := am_C (amcoe params) in
  let D := am_D (amcoe params) in
  let M := IZR (SFTno params) in
  let FaSq := creal Fa * creal Fa + cimag Fa * cimag Fa in
  let FbSq := creal Fb * creal Fb + cimag Fb * cimag Fb in
  let FaFb := creal Fa * creal Fb + cimag Fa * cimag Fb in
  let F' := set (F Fs) i (4 / (M * D) * (B * FaSq + A * FbSq - 2 * C * FaFb)) in
  if returnFaFb params
  then mkF F' (set (Demod.Fa Fs) i Fa) (set (Demod.Fb Fs) i Fb)
  else mkF F' (Demod.Fa Fs) (Demod.Fb Fs).

Definition freq (i : Z) : R := f0 params + IZR i * df params.

(** Lines 136-358: the loop over the frequencies, from the bin [i] on. *)
Fixpoint bin_loop (n : nat) (i : Z) (Fs : LALFstat) : outcome LALFstat :=
  match n with
  | O => Returned Fs
  | S n' =>
      match sft_loop (freq i) (Z.to_nat (SFTno params)) 0 czero czero with
      | Returned (Fa, Fb) => bin_loop n' (i + 1) (store_bin i Fa Fb Fs)
      | Exit_DEMOD => Exit_DEMOD
      | Abort_EINPUT => Abort_EINPUT
      end
  end.

Definition TestLALDemod (Fs : LALFstat) : outcome LALFstat :=
  bin_loop (Z.to_nat (imax params)) 0 Fs.

(** *** The statistic as the specification words it *)

(** The product [Q * XP] that the segment [alpha] contributes to the bin
    [i]. *)
Definition QXP (i alpha : Z) : COMPLEX16 :=
  match run_end (segment (freq i) alpha) with
  | Returned (re, im) => crect re im
  | _ => czero
  end.

Definition cscale (w : R) (z : COMPLEX16) : COMPLEX16 :=
  crect (w * creal z) (w * cimag z).

(** The sum over all [M] segments of the products weighted by one of the
    antenna-pattern vectors. *)
Definition weighted_sum (w : list R) (i : Z) : COMPLEX16 :=
  fold_right
    (fun alpha acc =>
       cadd (cscale (dat w (Z.of_nat alpha)) (QXP i (Z.of_nat alpha))) acc)
    czero (seq 0 (Z.to_nat (SFTno params))).

Definition Fa_sum (i : Z) : COMPLEX16 := weighted_sum (am_a (amcoe params)) i.
Definition Fb_sum (i : Z) : COMPLEX16 := weighted_sum (am_b (amcoe params)) i.

(** [(4 / (M D)) (B |Fa|^2 + A |Fb|^2 - 2 C Re (Fa conj (Fb)))] *)
Definition Fstat (Fa Fb : COMPLEX16) : R :=
  4 / (IZR (SFTno params) * am_D (amcoe params))
  * (am_B (amcoe params) * (cabs Fa) ^ 2
     + am_A (amcoe params) * (cabs Fb) ^ 2
     - 2 * am_C (amcoe params) * creal (cmul Fa (conj Fb))).

(** The window of [klim] indices from [sftIndex] on. *)
Definition window (sftIndex : Z) : list Z :=
  map (fun k => (sftIndex + Z.of_nat k)%Z)
      (seq 0 (Z.to_nat (to_UINT4 (2 * Dterms params)))).

End Segment.

End Demod.

(** ** LALHexagonVertices.c *)

Module Hexagon.
Import Num Cx.

Record RectangleIn : Type := mkin {
  x0 : R; y0 : R; dx : R; dy : R; theta : R
}.

Record HexagonOut : Type := mkout {
  x1 : R; y1 : R; x2 : R; y2 : R; x3 : R; y3 : R; x4 : R; y4 : R;
  x5 : R; y5 : R; x6 : R; y6 : R; x7 : R; y7 : R
}.

(** Lines 100-132. *)
Definition LALHexagonVertices (i : RectangleIn) : HexagonOut :=
  let sca := sqrt 3 in
  let x_1 := - dx i / 2 in
  let y_1 := - dy i / sca / 2 in
  let x_2 := 0 in
  let y_2 := - dy i / sqrt 3 in
  let x_3 := dx i / 2 in
  let y_3 := - dy i / sca / 2 in
  let x_4 := dx i / 2 in
  let y_4 := dy i / sca / 2 in
  let x_5 := 0 in
  let y_5 := dy i / sqrt 3 in
  let x_6 := - dx i / 2 in
  let y_6 := dy i / sca / 2 in
  let ctheta := cos (theta i) in
  let stheta := sin (theta i) in
  let ox1 := x0 i + x_1 * ctheta - y_1 * stheta in
  let oy1 := y0 i + y_1 * ctheta + x_1 * stheta in
  mkout ox1 oy1
        (x0 i + x_2 * ctheta - y_2 * stheta)
        (y0 i + y_2 * ctheta + x_2 * stheta)
        (x0 i + x_3 * ctheta - y_3 * stheta)
        (y0 i + y_3 * ctheta + x_3 * stheta)
        (x0 i + x_4 * ctheta - y_4 * stheta)
        (y0 i + y_4 * ctheta + x_4 * stheta)
        (x0 i + x_5 * ctheta - y_5 * stheta)
        (y0 i + y_5 * ctheta + x_5 * stheta)
        (x0 i + x_6 * ctheta - y_6 * stheta)
        (y0 i + y_6 * ctheta + x_6 * stheta)
        ox1 oy1.

(** The six vertices in the order of the output. *)
Definition vertices (o : HexagonOut) : list (R * R) :=
  [(x1 o, y1 o); (x2 o, y2 o); (x3 o, y3 o);
   (x4 o, y4 o); (x5 o, y5 o); (x6 o, y6 o)].

(** A point lies on the ellipse of centre [(x0, y0)] whose half axes
    [dx / sqrt 3] and [dy / sqrt 3] are turned by [theta]. *)
Definition on_ellipse (i : RectangleIn) (p : R * R) : Prop :=
  let u := (fst p - x0 i) * cos (theta i) + (snd p - y0 i) * sin (theta i) in
  let v := (snd p - y0 i) * cos (theta i) - (fst p - x0 i) * sin (theta i) in
  3 * (u * u) / (dx i * dx i) + 3 * (v * v) / (dy i * dy i) = 1.

End Hexagon.

(** ** ComplexAM.c: XLALWeighMultiCmplxAMCoeffs

    A pointer that may be [NULL] is an [option]; [COMPLEX8] values are
    modelled like [COMPLEX16] ones. *)

Module ComplexAM.
Import Num Cx IIR.

Record CmplxAMCoeffs : Type := mkcam {
  a : list COMPLEX16;
  b : list COMPLEX16
}.

Record CmplxAntennaPatternMatrix : Type := mkM {
  Ad : R; Bd : R; Cd : R; Ed : R; Dd : R; Sinv_Tsft : R
}.

(** [length] is the length of [data]. *)
Record MultiCmplxAMCoeffs : Type := mkmulti {
  data : list CmplxAMCoeffs;
  Mmunu : CmplxAntennaPatternMatrix
}.

Record MultiNoiseWeights : Type := mkweights {
  wdata : list (list R);
  wSinv_Tsft : R
}.

(** The running sums [Ad], [Bd], [Cd], [Ed]. *)
Record sums : Type := mksums { sA : R; sB : R; sC : R; sE : R }.

(** Lines 341-344 and 366-369. *)
Definition add_terms (s : sums) (ahat bhat : COMPLEX16) : sums :=
  mksums (sA s + (creal ahat * creal ahat + cimag ahat * cimag ahat))
         (sB s + (creal bhat * creal bhat + cimag bhat * cimag bhat))
         (sC s + (creal ahat * creal bhat + cimag ahat * cimag bhat))
         (sE s + (creal ahat * cimag bhat - cimag ahat * creal bhat)).

(** [v[i] = x]; a write outside the vector is undefined in C and leaves the
    model unchanged. *)
Fixpoint upd {A : Type} (v : list A) (i : nat) (x : A) : list A :=
  match v, i with
  | [], _ => []
  | _ :: v', O => x :: v'
  | y :: v', S i' => y :: upd v' i' x
  end.

(** Lines 324-345: [n] passes from the index [alpha]. *)
Fixpoint weigh_steps (n alpha : nat) (weightsX : list R)
  (amcoeX : CmplxAMCoeffs) (s : sums) : CmplxAMCoeffs * sums :=
  match n with
  | O => (amcoeX, s)
  | S n' =>
      let Sqwi := sqrt (nth alpha weightsX 0) in
      let ahat := crect (Sqwi * creal (nth alpha (a amcoeX) czero))
                        (Sqwi * cimag (nth alpha (a amcoeX) czero)) in
      let bhat := crect (Sqwi * creal (nth alpha (b amcoeX) czero))
                        (Sqwi * cimag (nth alpha (b amcoeX) czero)) in
      weigh_steps n' (S alpha) weightsX
        (mkcam (upd (a amcoeX) alpha ahat) (upd (b amcoeX) alpha bhat))
        (add_terms s ahat bhat)
  end.

(** Lines 356-370. *)
Fixpoint sum_steps (n alpha : nat) (amcoeX : CmplxAMCoeffs) (s : sums)
  : sums :=
  match n with
  | O => s
  | S n' =>
      let ahat := nth alpha (a amcoeX) czero in
      let bhat := nth alpha (b amcoeX) czero in
      sum_steps n' (S alpha) amcoeX (add_terms s ahat bhat)
  end.

(** Lines 312-346: the detectors with their weights, from the detector [X]
    on.  A failure returns at once, with what the passes before it have
    overwritten. *)
Fixpoint weigh_detectors (dws : list (CmplxAMCoeffs * list R)) (s : sums)
  : xlal unit * list CmplxAMCoeffs * sums :=
  match dws with
  | [] => (XLAL_OK tt, [], s)
  | (amcoeX, weightsX) :: rest =>
      let numSteps := length (a amcoeX) in
      if negb (length weightsX =? numSteps)%nat
      then (XLAL_ERROR XLAL_EINVAL, map fst dws, s)
      else
        let '(amcoeX', s') := weigh_steps numSteps 0 weightsX amcoeX s in
        let '(st, rest', s'') := weigh_detectors rest s' in
        (st, amcoeX' :: rest', s'')
  end.

(** Lines 351-371. *)
Definition sum_detectors (dets : list CmplxAMCoeffs) (s : sums) : sums :=
  fold_left (fun s amcoeX => sum_steps (length (a amcoeX)) 0 amcoeX s)
            dets s.

(** Lines 375-379. *)
Definition finish (s : sums) (Sinv : R) : CmplxAntennaPatternMatrix :=
  mkM (sA s) (sB s) (sC s) (sE s)
      (sA s * sB s - sC s * sC s - sE s * sE s) Sinv.

(** The status returned and the structure as the call leaves it. *)
Definition XLALWeighMultiCmplxAMCoeffs
  (multiAMcoef : option MultiCmplxAMCoeffs)
  (multiWeights : option MultiNoiseWeights)
  : xlal unit * option MultiCmplxAMCoeffs :=
  match multiAMcoef with
  | None => (XLAL_ERROR XLAL_EINVAL, None)
  | Some m =>
      let numDetectors := length (data m) in
      match multiWeights with
      | Some w =>
          if negb (length (wdata w) =? numDetectors)%nat
          then (XLAL_ERROR XLAL_EINVAL, Some m)
          else
            match weigh_detectors (combine (data m) (wdata w))
                    (mksums 0 0 0 0) with
            | (XLAL_OK _, dets, s) =>
                (XLAL_OK tt,
                 Some (mkmulti dets (finish s (wSinv_Tsft w))))
            | (XLAL_ERROR e, dets, _) =>
                (XLAL_ERROR e, Some (mkmulti dets (Mmunu m)))
            end
      | None =>
          (XLAL_OK tt,
           Some (mkmulti (data m)
                   (finish (sum_detectors (data m) (mksums 0 0 0 0))
                           (Sinv_Tsft (Mmunu m)))))
      end
  end.

(** The weights fit the coefficients: one vector for each detector, as long
    as the detector's vector [a]. *)
Definition weights_fit (m : MultiCmplxAMCoeffs) (w : MultiNoiseWeights)
  : Prop :=
  Forall2 (fun amcoeX weightsX => length weightsX = length (a amcoeX))
          (data m) (wdata w).

(** The Hermitian matrix of entries [A], [C - i E], [C + i E], [B] is
    positive semi-definite: its quadratic form at the complex pair
    [(x + i y, u + i v)] is not negative. *)
Definition psd_form (s : sums) : Prop :=
  forall x y u v : R,
    0 <= sA s * (x * x + y * y) + sB s * (u * u + v * v)
         + 2 * (sC s * (x * u + y * v) + sE s * (y * u - x * v)).

End ComplexAM.

(** ** ligolw_run_sqlite: the statements of the [--sql] option

    A Python string is the list of its code points. *)

Module RunSqlite.

Definition str : Type := list Z.

(** The characters that [str.strip ()] removes: the code points for which
    [str.isspace ()] holds. *)
Definition is_space (c : Z) : bool :=
  ((9 <=? c) && (c <=? 13) || (28 <=? c) && (c <=? 32)
   || (c =? 133) || (c =? 160) || (c =? 5760)
   || (8192 <=? c) && (c <=? 8202)
   || (c =? 8232) || (c =? 8233) || (c =? 8239) || (c =? 8287)
   || (c =? 12288))%Z.

Fixpoint lstrip (s : str) : str :=
  match s with
  | [] => []
  | c :: s' => if is_space c then lstrip s' else s
  end.

Definition strip (s : str) : str := rev (lstrip (rev (lstrip s))).

(** [s.split (sep)] for a separator of one character, as the first piece
    and the pieces after it. *)
Fixpoint split_pair (sep : Z) (s : str) : str * list str :=
  match s with
  | [] => ([], [])
  | c :: s' =>
      let '(w, ws) := split_pair sep s' in
      if (c =? sep)%Z then ([], w :: ws) else (c :: w, ws)
  end.

Definition split (sep : Z) (s : str) : list str :=
  let '(w, ws) := split_pair sep s in w :: ws.

Definition semicolon : Z := 59.

(** Lines 58 and 62: split at the semicolons, strip every piece and drop
    the empty ones. *)
Definition statements (sql : str) : list str :=
  filter (fun statement => negb (Nat.eqb (length statement) 0))
         (map strip (split semicolon sql)).

End RunSqlite.

(** ** Conditions under which the C arithmetic is defined *)

Module Defined.
Import Num Cx IIR.

(** The quotient of line 169 before it is converted to [int]. *)
Definition length_quotient (a : COMPLEX16) : R :=
  IZR (int_of_real (ln (1 / 10 ^ 13))) / ln (cabs a).

(** A decay coefficient for which lines 168-169 are defined in C: the
    divisions are by non-zero values and the quotient fits an [int]. *)
Definition representable (a : COMPLEX16) : Prop :=
  a <> czero /\ cabs a <> 1
  /\ - 2 ^ 31 < length_quotient a < 2 ^ 31.

(** A complex number multiplied by a real factor. *)
Definition rscale (c : R) (z : COMPLEX16) : COMPLEX16 :=
  crect (c * creal z) (c * cimag z).

End Defined.

(** ** Sample inputs *)

Module Sample.
Import Num Cx IIR.

(** A flat amplitude and the cubic phase [k ^ 3] on five samples. *)
Definition amp5 : list R := [1; 1; 1; 1; 1].
Definition phase5 : list R := [0; 1; 8; 27; 64].

(** The single filter that the synthesizer records for them with
    [epsilon = 1], [alpha = 0] and [beta = 1]. *)
Definition set5 : iirset :=
  record_filter amp5 phase5 1 4 (jstep_at phase5 1 0 4) 4 (mkset [] [] []).

(** The shortest envelope that the synthesizer accepts. *)
Definition amp4 : list R := [1; 1; 1; 1].
Definition phase4 : list R := [0; 1; 8; 27].

(** One slowly decaying real filter of unit gain at delay 0, for a
    response of 100 samples. *)
Definition a1_slow : COMPLEX16 := crect (exp (- (2 / 5))) 0.
Definition b0_unit : COMPLEX16 := crect 1 0.
Definition zero_buffer : buffer := fun _ => czero.

(** A two-bin noise spectrum. *)
Definition psd2 : list R := [1; 2].

(** One SFT and a phase model that puts the first trial frequency at the
    bin [xTemp]: [xTemp = f0 * skyConst[1]] and [yTemp = f0 * skyConst[0]],
    without spin-down terms. *)
Definition am1 : Demod.AMCoeffs := Demod.mkam [1] [1] 1 1 1 1.
Definition par_at (xTemp : R) : Demod.DemodPar :=
  Demod.mkpar 0 [0; 1] [] am1 xTemp 1 1 8 0 1 true.
Definition sft1 : list Demod.SFT := [fun _ => crect 1 0].
Definition Fs0 : Demod.LALFstat :=
  Demod.mkF (fun _ => 0) (fun _ => czero) (fun _ => czero).
Definition small9 : R := 1 / 10 ^ 9.

(** What [TestLALDemod] returns for [xTemp = 107.5], where it returns. *)
Definition Fs_107 : Demod.LALFstat :=
  match Demod.TestLALDemod small9 110 (par_at (215 / 2)) sft1 Fs0 with
  | Demod.Returned Fs => Fs
  | _ => Fs0
  end.

(** A quadratic phase, whose third finite difference is zero at every
    cursor, under a flat envelope of twelve samples. *)
Definition amp12 : list R := [1; 1; 1; 1; 1; 1; 1; 1; 1; 1; 1; 1].
Definition phase12 : list R := [0; 1; 4; 9; 16; 25; 36; 49; 64; 81; 100; 121].

End Sample.

Module Sample2.
Import Num Cx IIR.

(** A real decay coefficient of magnitude [e], outside the unit circle. *)
Definition a1_growing : COMPLEX16 := crect (exp 1) 0.

(** The sample run of the demodulation with the antenna-pattern terms
    [A = 2], [B = 1], [C = 1] and [D = A B - C ^ 2 = 1]. *)
Definition am2 : Demod.AMCoeffs := Demod.mkam [1] [1] 2 1 1 1.
Definition par2_at (xTemp : R) : Demod.DemodPar :=
  Demod.mkpar 0 [0; 1] [] am2 xTemp 1 1 8 0 1 true.
(** A hexagon of sides 2 and 4 about the point (1, 1), turned by one
    radian. *)
Definition rect1 : Hexagon.RectangleIn := Hexagon.mkin 1 1 2 4 1.

(** Two detectors with one and two timestamps, and weights for them. *)
Definition multi2 : ComplexAM.MultiCmplxAMCoeffs :=
  ComplexAM.mkmulti
    [ComplexAM.mkcam [crect 1 2] [crect 0 1];
     ComplexAM.mkcam [crect 1 0; crect 0 1] [crect 2 1; crect 1 1]]
    (ComplexAM.mkM 0 0 0 0 0 0).
Definition weights2 : ComplexAM.MultiNoiseWeights :=
  ComplexAM.mkweights [[4]; [1; 9]] 5.
Definition weights_short : ComplexAM.MultiNoiseWeights :=
  ComplexAM.mkweights [[4]] 5.
Definition unit_weights2 : ComplexAM.MultiNoiseWeights :=
  ComplexAM.mkweights [[1]; [1; 1]] 5.

(** What the weighting leaves of [multi2], where it succeeds. *)
Definition weighted2 : ComplexAM.MultiCmplxAMCoeffs :=
  match snd (ComplexAM.XLALWeighMultiCmplxAMCoeffs
               (Some multi2) (Some weights2)) with
  | Some m => m
  | None => multi2
  end.

Definition Fs2_107 : Demod.LALFstat :=
  match Demod.TestLALDemod Sample.small9 110 (par2_at (215 / 2))
          Sample.sft1 Sample.Fs0 with
  | Demod.Returned Fs => Fs
  | _ => Sample.Fs0
  end.

End Sample2.

(** * Properties *)

Import Num Cx.

(** ** Integer parts *)

Lemma Int_part_IZR (z : Z) : Int_part (IZR z) = z.
Proof. symmetry; apply Int_part_spec; lra. Qed.

Lemma Int_part_bounds (r : R) : IZR (Int_part r) <= r < IZR (Int_part r) + 1.
Proof.
  destruct (base_Int_part r) as [H1 H2]; lra.
Qed.

Lemma Int_part_unique (r : R) (z : Z) :
  IZR z <= r < IZR z + 1 -> Int_part r = z.
Proof. intros H; symmetry; apply Int_part_spec; lra. Qed.

Lemma Int_part_shift (z : Z) (r : R) :
  Int_part (IZR z + r) = (z + Int_part r)%Z.
Proof.
  apply Int_part_unique. rewrite plus_IZR.
  pose proof (Int_part_bounds r); lra.
Qed.

Lemma int_of_real_IZR (z : Z) : int_of_real (IZR z) = z.
Proof.
  unfold int_of_real. destruct (Rle_dec 0 (IZR z)).
  - apply Int_part_IZR.
  - rewrite <- opp_IZR, Int_part_IZR; lia.
Qed.

Lemma int_of_floor (x : R) : int_of_real (floor x) = Int_part x.
Proof. apply int_of_real_IZR. Qed.

Lemma int_of_real_nonneg (x : R) : 0 <= x -> int_of_real x = Int_part x.
Proof.
  intros H. unfold int_of_real. destruct (Rle_dec 0 x); [reflexivity | lra].
Qed.

Lemma int_of_real_half (z : Z) : int_of_real (floor (IZR z + 0.5)) = z.
Proof.
  rewrite int_of_floor. apply Int_part_unique. lra.
Qed.

(** ** Complex arithmetic *)

Lemma cx_eq (z w : COMPLEX16) :
  creal z = creal w -> cimag z = cimag w -> z = w.
Proof. destruct z, w; simpl; intros -> ->; reflexivity. Qed.

Lemma cabs_cpolar (r theta : R) : 0 <= r -> cabs (cpolar r theta) = r.
Proof.
  intros Hr. unfold cabs, cnorm2, cpolar; simpl.
  replace (r * cos theta * (r * cos theta) + r * sin theta * (r * sin theta))
    with (r * r * (Rsqr (sin theta) + Rsqr (cos theta)))
    by (unfold Rsqr; ring).
  rewrite sin2_cos2, Rmult_1_r. apply sqrt_square; assumption.
Qed.

Lemma cnorm2_nonneg (z : COMPLEX16) : 0 <= cnorm2 z.
Proof. unfold cnorm2; nra. Qed.

Lemma cnorm2_zero (z : COMPLEX16) : cnorm2 z = 0 -> z = czero.
Proof.
  unfold cnorm2; intros H. apply cx_eq; simpl; nra.
Qed.

Lemma cmul_cdiv_cancel (z w : COMPLEX16) :
  w <> czero -> cmul (cdiv z w) w = z.
Proof.
  intros Hw.
  assert (Hn : cnorm2 w <> 0) by (intros E; apply Hw, cnorm2_zero, E).
  apply cx_eq; unfold cmul, cdiv; simpl; unfold cnorm2 in *; field; exact Hn.
Qed.

Lemma cmul_comm (z w : COMPLEX16) : cmul z w = cmul w z.
Proof. apply cx_eq; simpl; ring. Qed.

Lemma cmul_assoc (x y z : COMPLEX16) : cmul (cmul x y) z = cmul x (cmul y z).
Proof. apply cx_eq; simpl; ring. Qed.

Lemma cmul_1_r (z : COMPLEX16) : cmul z (crect 1 0) = z.
Proof. apply cx_eq; simpl; ring. Qed.

Lemma cadd_0_l (z : COMPLEX16) : cadd czero z = z.
Proof. apply cx_eq; simpl; ring. Qed.

(** ** The synthesizer *)

Import IIR.

Section SynthesizerFacts.

Variables (amp phase : list R) (epsilon alpha beta : R).

Local Abbreviation N := (len amp).
Local Abbreviation jstep_of := (jstep_at phase epsilon alpha).
Local Abbreviation k_of := (k_at phase epsilon alpha).
Local Abbreviation loop := (iir_loop amp phase epsilon alpha beta).
Local Abbreviation cursor_walk := (walk amp phase epsilon alpha).

Lemma jstep_min_ge_2 (j : Z) : (2 <= jstep_min phase epsilon j)%Z.
Proof.
  unfold jstep_min. cbv zeta.
  match goal with
  | |- context [(?x <? 2)%Z] => destruct (Z.ltb_spec x 2)
  end; lia.
Qed.

Lemma jstep_at_ge_2 (j : Z) : (3 < j)%Z -> (2 <= jstep_of j)%Z.
Proof.
  intros Hj. unfold jstep_at.
  destruct (_ <? 1)%Z; [lia | apply jstep_min_ge_2].
Qed.

Lemma phase_ddot_nonneg (j : Z) : 0 <= phase_ddot phase j.
Proof. apply Rabs_pos. Qed.

Lemma phase_tdot_nonneg (j : Z) : 0 <= phase_tdot phase j.
Proof. apply Rabs_pos. Qed.

(** With a positive [epsilon] a candidate step is finite unless its finite
    difference vanishes, and then it is [+inf]; so the candidate that is
    converted is finite as soon as one of the two differences is not zero. *)
Lemma jstep_second_value (j : Z) :
  0 < epsilon ->
  jstep_second phase epsilon j
  = if Req_dec_T (phase_ddot phase j) 0 then PlusInf
    else Finite (floor (sqrt (2 * epsilon / phase_ddot phase j) + 0.5)).
Proof.
  intros He. unfold jstep_second, x_quot.
  destruct (Req_dec_T _ 0) as [Hz|Hz].
  - destruct (Rlt_dec 0 (2 * epsilon)); [reflexivity | lra].
  - cbn [x_sqrt]. destruct (Rle_dec 0 _) as [|Hn]; [reflexivity|].
    exfalso. apply Hn. apply Rlt_le, Rdiv_lt_0_compat; [lra|].
    pose proof (phase_ddot_nonneg j). lra.
Qed.

Lemma jstep_third_value (j : Z) :
  0 < epsilon ->
  jstep_third phase epsilon j
  = if Req_dec_T (phase_tdot phase j) 0 then PlusInf
    else Finite (floor (pow (6 * epsilon / phase_tdot phase j) (1 / 3)
                        + 0.5)).
Proof.
  intros He. unfold jstep_third, x_quot.
  destruct (Req_dec_T _ 0) as [Hz|Hz].
  - destruct (Rlt_dec 0 (6 * epsilon)); [reflexivity | lra].
  - cbn [x_cbrt]. destruct (Rle_dec 0 _) as [|Hn]; [reflexivity|].
    exfalso. apply Hn. apply Rlt_le, Rdiv_lt_0_compat; [lra|].
    pose proof (phase_tdot_nonneg j). lra.
Qed.

Lemma step_defined_nonzero (j : Z) :
  0 < epsilon ->
  phase_ddot phase j <> 0 \/ phase_tdot phase j <> 0 ->
  step_defined phase epsilon j.
Proof.
  intros He Hnz. unfold step_defined.
  rewrite jstep_second_value, jstep_third_value by exact He.
  destruct (Req_dec_T (phase_ddot phase j) 0) as [Hd|Hd];
    destruct (Req_dec_T (phase_tdot phase j) 0) as [Ht|Ht];
    cbn [x_gt x_finite]; try exact I.
  - destruct Hnz; contradiction.
  - destruct (Rgt_dec _ _); exact I.
Qed.

(** One unfolding of the loop, as the source reads. *)
Lemma iir_loop_unfold (fuel : nat) (j : Z) (s : iirset) :
  (3 < j)%Z ->
  loop (S fuel) j s =
  if (k_of j <? 0)%Z then XLAL_ERROR XLAL_EINVAL
  else if (k_of j <? 2)%Z
       then XLAL_OK (record_filter amp phase beta j (jstep_of j) (k_of j) s)
       else loop fuel (j - jstep_of j)
              (record_filter amp phase beta j (jstep_of j) (k_of j) s).
Proof.
  intros Hj. cbn [iir_loop].
  destruct (Z.ltb_spec 3 j); [reflexivity | lia].
Qed.

Lemma iir_loop_exit (fuel : nat) (j : Z) (s : iirset) :
  (j <= 3)%Z -> loop fuel j s = XLAL_OK s.
Proof.
  intros Hj. destruct fuel; cbn [iir_loop]; [reflexivity |].
  destruct (Z.ltb_spec 3 j); [lia | reflexivity].
Qed.

(** The fuel given to the loop is never what stops it. *)
Lemma iir_loop_fuel (f1 f2 : nat) (j : Z) (s : iirset) :
  (j <= Z.of_nat f1)%Z -> (j <= Z.of_nat f2)%Z -> loop f1 j s = loop f2 j s.
Proof.
  revert f2 j s. induction f1 as [|f1 IH]; intros f2 j s H1 H2.
  - rewrite !iir_loop_exit by lia. reflexivity.
  - destruct (Z.le_gt_cases j 3) as [Hj|Hj].
    + rewrite !iir_loop_exit by lia. reflexivity.
    + destruct f2 as [|f2]; [lia|].
      rewrite !iir_loop_unfold by lia.
      pose proof (jstep_at_ge_2 j ltac:(lia)).
      destruct (_ <? 0)%Z; [reflexivity|].
      destruct (_ <? 2)%Z; [reflexivity|].
      apply IH; lia.
Qed.

(** The delays that a successful run of the loop appends follow the walk of
    the cursor. *)
Lemma iir_loop_walk (fuel : nat) (j : Z) (s r : iirset) :
  (j <= Z.of_nat fuel)%Z ->
  loop fuel j s = XLAL_OK r ->
  exists ds, delay r = delay s ++ ds /\ cursor_walk j ds.
Proof.
  revert j s. induction fuel as [|fuel IH]; intros j s Hf Hrun.
  - rewrite iir_loop_exit in Hrun by lia. injection Hrun as <-.
    exists []. rewrite app_nil_r. split; [reflexivity | constructor; lia].
  - destruct (Z.le_gt_cases j 3) as [Hj|Hj].
    + rewrite iir_loop_exit in Hrun by lia. injection Hrun as <-.
      exists []. rewrite app_nil_r. split; [reflexivity | constructor; lia].
    + rewrite iir_loop_unfold in Hrun by lia.
      pose proof (jstep_at_ge_2 j ltac:(lia)) as Hstep.
      destruct (Z.ltb_spec (k_of j) 0) as [|Hk0]; [discriminate|].
      destruct (Z.ltb_spec (k_of j) 2) as [Hk2|Hk2].
      * injection Hrun as <-. exists [(N - 1 - j)%Z]. split; [reflexivity|].
        apply walk_break; lia.
      * apply IH in Hrun; [|lia]. destruct Hrun as (ds & Hd & Hw).
        exists ((N - 1 - j)%Z :: ds). split.
        -- rewrite Hd. cbn [record_filter delay]. rewrite <- app_assoc.
           reflexivity.
        -- apply walk_next; assumption.
Qed.

(** Along a walk every recorded cursor lies in [(3, j]]. *)
Lemma walk_range (j : Z) (ds : list Z) :
  cursor_walk j ds -> Forall (fun d => (N - 1 - j <= d < N - 4)%Z) ds.
Proof.
  induction 1 as [j Hj | j Hj Hk | j ds Hj Hk Hs Hw IH].
  - constructor.
  - constructor; [lia | constructor].
  - constructor; [lia|].
    eapply Forall_impl; [|exact IH]. cbv beta. intros d Hd. lia.
Qed.

Lemma walk_sorted (j : Z) (ds : list Z) :
  cursor_walk j ds -> StronglySorted Z.le ds.
Proof.
  induction 1 as [j Hj | j Hj Hk | j ds Hj Hk Hs Hw IH].
  - constructor.
  - constructor; constructor.
  - constructor; [exact IH|].
    eapply Forall_impl; [|exact (walk_range _ _ Hw)]. cbv beta.
    intros d Hd. lia.
Qed.

Lemma walk_head (j : Z) (ds : list Z) :
  cursor_walk j ds -> (3 < j)%Z -> exists ds', ds = (N - 1 - j)%Z :: ds'.
Proof.
  destruct 1; intros Hj; [lia | eexists; reflexivity | eexists; reflexivity].
Qed.

(** Every decay coefficient that a successful run appends is a decaying
    rotator. *)
Lemma iir_loop_decaying (fuel : nat) (j : Z) (s r : iirset) :
  loop fuel j s = XLAL_OK r ->
  Forall (decaying beta) (a1 s) -> Forall (decaying beta) (a1 r).
Proof.
  revert j s. induction fuel as [|fuel IH]; intros j s Hrun Hs.
  - cbn [iir_loop] in Hrun. injection Hrun as <-. exact Hs.
  - destruct (Z.le_gt_cases j 3) as [Hj|Hj].
    + rewrite iir_loop_exit in Hrun by lia. injection Hrun as <-. exact Hs.
    + rewrite iir_loop_unfold in Hrun by lia.
      assert (Hs' : Forall (decaying beta)
                (a1 (record_filter amp phase beta j (jstep_of j) (k_of j) s))).
      { cbn [record_filter a1]. apply Forall_app. split; [exact Hs|].
        constructor; [|constructor].
        exists (jstep_of j). split; [apply jstep_at_ge_2; lia|].
        apply cabs_cpolar. left. apply exp_pos. }
      destruct (_ <? 0)%Z; [discriminate|].
      destruct (_ <? 2)%Z.
      * injection Hrun as <-. exact Hs'.
      * eapply IH; eassumption.
Qed.

Lemma k_at_alpha_0 (j : Z) : alpha = 0 -> k_of j = j.
Proof.
  intros ->. unfold k_at, anchor.
  replace (IZR j - 0 * IZR (jstep_at phase epsilon 0 j) + 0.5)
    with (IZR j + 0.5) by ring.
  apply int_of_real_half.
Qed.

Lemma generate_walk (padding : R) (flag : Z) (r : iirset) :
  XLALInspiralGenerateIIRSet amp phase epsilon alpha beta padding flag
  = XLAL_OK r ->
  cursor_walk (N - 1) (delay r).
Proof.
  unfold XLALInspiralGenerateIIRSet. destruct (negb _); [discriminate|].
  intros Hrun. apply iir_loop_walk in Hrun; [|lia].
  destruct Hrun as (ds & -> & Hw). exact Hw.
Qed.

End SynthesizerFacts.

Import Sample.

Lemma run5 :
  XLALInspiralGenerateIIRSet amp5 phase5 1 0 1 0 0 = XLAL_OK set5.
Proof.
  unfold XLALInspiralGenerateIIRSet.
  change (len amp5) with 5%Z. change (len phase5) with 5%Z.
  change (negb (5 =? 5)%Z) with false. cbv iota.
  change (5 - 1)%Z with 4%Z. change (Z.to_nat 4) with 4%nat.
  rewrite iir_loop_unfold by lia.
  rewrite (k_at_alpha_0 phase5 1 0 4 eq_refl).
  change (4 <? 0)%Z with false. change (4 <? 2)%Z with false. cbv iota.
  apply iir_loop_exit.
  pose proof (jstep_at_ge_2 phase5 1 0 4 ltac:(lia)). lia.
Qed.

Lemma delay_set5 : delay set5 = [0%Z].
Proof. reflexivity. Qed.

(** On the five-sample envelope the only cursor above 3 is 4, where the
    second difference of the cubic phase is [18 / (2 pi)]. *)
Lemma phase_ddot5 : phase_ddot phase5 4 = 18 / (2 * PI).
Proof.
  unfold phase_ddot, fabs, LAL_TWOPI.
  change (len phase5 - 3 <? 4)%Z with true. cbv iota.
  change (dat phase5 (4 - 2)) with 8.
  change (dat phase5 (4 - 1)) with 27.
  change (dat phase5 4) with 64.
  replace (8 - 2 * 27 + 64) with 18 by lra.
  apply Rabs_right. apply Rle_ge, Rlt_le, Rdiv_lt_0_compat; [lra|].
  pose proof PI_RGT_0. lra.
Qed.

Lemma steps_defined5 (j : Z) :
  (3 < j <= len amp5 - 1)%Z -> step_defined phase5 1 j.
Proof.
  change (len amp5 - 1)%Z with 4%Z. intros Hj.
  replace j with 4%Z by lia.
  apply step_defined_nonzero; [lra|]. left. rewrite phase_ddot5.
  apply Rgt_not_eq, Rdiv_lt_0_compat; [lra|].
  pose proof PI_RGT_0. lra.
Qed.




(** C6.  For every envelope of length N on which the synthesizer succeeds,
    the delays it returns are non-decreasing in the order the filters were
    appended, and each lies within [0, N - 1]. *)
Theorem generate_delays_sorted_and_bounded
  (amp phase : list R) (epsilon alpha beta padding : R) (flag : Z)
  (r : iirset) :
  XLALInspiralGenerateIIRSet amp phase epsilon alpha beta padding flag
  = XLAL_OK r ->
  StronglySorted Z.le (delay r)
  /\ Forall (fun d => (0 <= d <= len amp - 1)%Z) (delay r).
Proof.
  intros Hrun. apply generate_walk in Hrun. split.
  - eapply walk_sorted; exact Hrun.
  - eapply Forall_impl; [|eapply walk_range; exact Hrun].
    cbv beta. intros d Hd. lia.
Qed.

Lemma generate_delays_sorted_and_bounded_witness :
  XLALInspiralGenerateIIRSet amp5 phase5 1 0 1 0 0 = XLAL_OK set5
  /\ StronglySorted Z.le (delay set5)
  /\ Forall (fun d => (0 <= d <= len amp5 - 1)%Z) (delay set5).
Proof.
  split; [exact run5|].
  exact (generate_delays_sorted_and_bounded amp5 phase5 1 0 1 0 0 set5 run5).
Defined.

(** C7.  With [beta > 0], every decay coefficient that the synthesizer
    returns has magnitude [exp (- beta / jstep)] for a step [jstep >= 2],
    hence a magnitude below 1. *)
Theorem generate_filters_stable
  (amp phase : list R) (epsilon alpha beta padding : R) (flag : Z)
  (r : iirset) :
  0 < beta ->
  XLALInspiralGenerateIIRSet amp phase epsilon alpha beta padding flag
  = XLAL_OK r ->
  Forall (fun a => decaying beta a /\ cabs a < 1) (a1 r).
Proof.
  intros Hb. unfold XLALInspiralGenerateIIRSet.
  destruct (negb _); [discriminate|]. intros Hrun.
  apply iir_loop_decaying in Hrun; [|constructor].
  eapply Forall_impl; [|exact Hrun]. cbv beta.
  intros a Ha. split; [exact Ha|].
  destruct Ha as (jstep & Hj & ->).
  rewrite <- exp_0. apply exp_increasing.
  assert (0 < IZR jstep) by (apply IZR_lt; lia).
  assert (0 < beta / IZR jstep) by (apply Rdiv_lt_0_compat; assumption).
  unfold Rdiv in *. rewrite <- Ropp_mult_distr_l. lra.
Qed.

Lemma generate_filters_stable_witness :
  0 < 1
  /\ XLALInspiralGenerateIIRSet amp5 phase5 1 0 1 0 0 = XLAL_OK set5
  /\ Forall (fun a => decaying 1 a /\ cabs a < 1) (a1 set5).
Proof.
  split; [lra|]. split; [exact run5|].
  exact (generate_filters_stable amp5 phase5 1 0 1 0 0 set5 Rlt_0_1 run5).
Defined.

(** C9.  On an envelope of length exactly 4, with amplitude and phase of
    the same length, the body of the loop never runs: the synthesizer
    succeeds and returns three empty vectors. *)
Theorem generate_length_4_is_empty
  (amp phase : list R) (epsilon alpha beta padding : R) (flag : Z) :
  length amp = 4%nat -> length phase = 4%nat ->
  XLALInspiralGenerateIIRSet amp phase epsilon alpha beta padding flag
  = XLAL_OK (mkset [] [] []).
Proof.
  intros Ha Hp. unfold XLALInspiralGenerateIIRSet, len. rewrite Ha, Hp.
  change (negb _) with false. cbv iota.
  apply iir_loop_exit. lia.
Qed.

Lemma generate_length_4_is_empty_witness :
  length amp4 = 4%nat /\ length phase4 = 4%nat
  /\ XLALInspiralGenerateIIRSet amp4 phase4 1 0 1 0 0
     = XLAL_OK (mkset [] [] []).
Proof.
  split; [reflexivity|]. split; [reflexivity|].
  exact (generate_length_4_is_empty amp4 phase4 1 0 1 0 0 eq_refl eq_refl).
Defined.

(** ** Bounds on [exp] and on [ln (1e-13)] *)

Lemma exp_double_lower (a b x : R) :
  0 <= a -> a <= exp x -> b <= a * a -> b <= exp (2 * x).
Proof.
  intros Ha Hx Hb. replace (2 * x) with (x + x) by ring.
  rewrite exp_plus. nra.
Qed.

Lemma exp_double_upper (a b x : R) :
  exp x <= a -> a * a <= b -> exp (2 * x) <= b.
Proof.
  intros Hx Hb. replace (2 * x) with (x + x) by ring.
  rewrite exp_plus. pose proof (exp_pos x). nra.
Qed.

Lemma exp_nat (n : nat) (x : R) : exp (INR n * x) = exp x ^ n.
Proof.
  induction n as [|n IH].
  - simpl. rewrite Rmult_0_l. apply exp_0.
  - rewrite S_INR, Rmult_plus_distr_r, Rmult_1_l, exp_plus, IH. simpl. ring.
Qed.

(** [e >= (1 + 1/1024) ^ 1024], squared up ten times with the lower bounds
    rounded down. *)
Lemma exp_1_lower : 27169 / 10000 <= exp 1.
Proof.
  pose proof (exp_ineq1_le (1 / 1024)) as H0.
  assert (H1 : 1.001954078 <= exp (2 * (1 / 1024)))
    by (eapply exp_double_lower; [|exact H0|]; lra).
  assert (H2 : 1.003911974 <= exp (2 * (2 * (1 / 1024))))
    by (eapply exp_double_lower; [|exact H1|]; lra).
  assert (H3 : 1.007839251 <= exp (2 * (2 * (2 * (1 / 1024)))))
    by (eapply exp_double_lower; [|exact H2|]; lra).
  assert (H4 : 1.015739955 <= exp (2 * (2 * (2 * (2 * (1 / 1024))))))
    by (eapply exp_double_lower; [|exact H3|]; lra).
  assert (H5 : 1.031727656 <= exp (2 * (2 * (2 * (2 * (2 * (1 / 1024)))))))
    by (eapply exp_double_lower; [|exact H4|]; lra).
  replace (2 * (2 * (2 * (2 * (2 * (1 / 1024)))))) with (1 / 32) in H5
    by lra.
  assert (H6 : 1.064461956 <= exp (2 * (1 / 32)))
    by (eapply exp_double_lower; [|exact H5|]; lra).
  assert (H7 : 1.133079255 <= exp (2 * (2 * (1 / 32))))
    by (eapply exp_double_lower; [|exact H6|]; lra).
  assert (H8 : 1.283868598 <= exp (2 * (2 * (2 * (1 / 32)))))
    by (eapply exp_double_lower; [|exact H7|]; lra).
  assert (H9 : 1.648318576 <= exp (2 * (2 * (2 * (2 * (1 / 32))))))
    by (eapply exp_double_lower; [|exact H8|]; lra).
  assert (H10 : 2.7169 <= exp (2 * (2 * (2 * (2 * (2 * (1 / 32)))))))
    by (eapply exp_double_lower; [|exact H9|]; lra).
  replace (2 * (2 * (2 * (2 * (2 * (1 / 32)))))) with 1 in H10 by lra.
  lra.
Qed.

(** [exp (1/n) <= n / (n - 1)], from [1 - 1/n <= exp (- 1/n)]. *)
Lemma exp_inv_upper (n : R) : 1 < n -> exp (1 / n) <= n / (n - 1).
Proof.
  intros Hn. pose proof (exp_ineq1_le (- (1 / n))) as H.
  rewrite exp_Ropp in H. pose proof (exp_pos (1 / n)) as Hp.
  assert (Hlow : 0 < 1 + - (1 / n)).
  { replace (1 + - (1 / n)) with ((n - 1) / n) by (field; lra).
    apply Rdiv_lt_0_compat; lra. }
  replace (n / (n - 1)) with (/ (1 + - (1 / n))) by (field; lra).
  rewrite <- (Rinv_inv (exp (1 / n))).
  apply Rinv_le_contravar; assumption.
Qed.

Lemma exp_1_upper : exp 1 <= 277 / 100.
Proof.
  pose proof (exp_inv_upper 32 ltac:(lra)) as H0.
  assert (H1 : exp (2 * (1 / 32)) <= 1.065556712)
    by (eapply exp_double_upper; [exact H0|]; lra).
  assert (H2 : exp (2 * (2 * (1 / 32))) <= 1.135411107)
    by (eapply exp_double_upper; [exact H1|]; lra).
  assert (H3 : exp (2 * (2 * (2 * (1 / 32)))) <= 1.289158382)
    by (eapply exp_double_upper; [exact H2|]; lra).
  assert (H4 : exp (2 * (2 * (2 * (2 * (1 / 32))))) <= 1.661929334)
    by (eapply exp_double_upper; [exact H3|]; lra).
  assert (H5 : exp (2 * (2 * (2 * (2 * (2 * (1 / 32)))))) <= 2.77)
    by (eapply exp_double_upper; [exact H4|]; lra).
  replace (2 * (2 * (2 * (2 * (2 * (1 / 32)))))) with 1 in H5 by lra.
  lra.
Qed.

Lemma exp_30_lower : 10 ^ 13 < exp 30.
Proof.
  replace 30 with (INR 30 * 1) by (simpl; lra). rewrite exp_nat.
  apply Rlt_le_trans with ((27169 / 10000) ^ 30); [lra|].
  apply pow_incr. pose proof exp_1_lower. lra.
Qed.

Lemma exp_29_upper : exp 29 * (5 / 4) < 10 ^ 13.
Proof.
  replace 29 with (INR 29 * 1) by (simpl; lra). rewrite exp_nat.
  apply Rle_lt_trans with ((277 / 100) ^ 29 * (5 / 4)); [|lra].
  apply Rmult_le_compat_r; [lra|].
  apply pow_incr. pose proof exp_1_upper. pose proof (exp_pos 1). lra.
Qed.

Lemma ln_lt_of_exp (x y : R) : 0 < x -> x < exp y -> ln x < y.
Proof.
  intros Hx H. apply exp_lt_inv. rewrite exp_ln; assumption.
Qed.

Lemma ln_gt_of_exp (x y : R) : 0 < x -> exp y < x -> y < ln x.
Proof.
  intros Hx H. apply exp_lt_inv. rewrite exp_ln; assumption.
Qed.

(** [ln (1e-13)] is about -29.93. *)
Lemma ln_1e13_bounds : -30 < ln (1 / 10 ^ 13) < - (146 / 5).
Proof.
  assert (Hpos : 0 < 10 ^ 13) by lra.
  replace (1 / 10 ^ 13) with (/ 10 ^ 13) by lra.
  rewrite ln_Rinv by assumption.
  assert (ln (10 ^ 13) < 30)
    by (apply ln_lt_of_exp; [assumption | apply exp_30_lower]).
  assert (146 / 5 < ln (10 ^ 13)).
  { apply ln_gt_of_exp; [assumption|].
    replace (146 / 5) with (29 + 1 / 5) by lra. rewrite exp_plus.
    pose proof (exp_inv_upper 5 ltac:(lra)) as H5.
    pose proof exp_29_upper. pose proof (exp_pos 29).
    pose proof (exp_pos (1 / 5)). nra. }
  lra.
Qed.

(** [(int) logf (1e-13)] is -29. *)
Lemma int_of_ln_1e13 : int_of_real (ln (1 / 10 ^ 13)) = (-29)%Z.
Proof.
  pose proof ln_1e13_bounds as H. unfold int_of_real.
  destruct (Rle_dec 0 _); [lra|].
  rewrite (Int_part_unique _ 29); [reflexivity|]. lra.
Qed.

(** ** The evaluator *)

Lemma response_inner_outside (n : nat) (a y : COMPLEX16) (p : Z)
  (m : buffer) (i : Z) :
  (i < p \/ p + Z.of_nat n <= i)%Z -> response_inner n a y p m i = m i.
Proof.
  revert y p m. induction n as [|n IH]; intros y p m Hi; [reflexivity|].
  cbn [response_inner]. rewrite IH by lia. unfold store.
  destruct (Z.eqb_spec i p); [lia | reflexivity].
Qed.

Lemma response_inner_inside (n : nat) (a y : COMPLEX16) (p : Z)
  (m : buffer) (k : nat) :
  (k < n)%nat ->
  response_inner n a y p m (p + Z.of_nat k)%Z
  = cadd (m (p + Z.of_nat k)%Z) (cmul y (cpow a (S k))).
Proof.
  revert y p m k. induction n as [|n IH]; intros y p m k Hk; [lia|].
  cbn [response_inner]. destruct k as [|k].
  - rewrite response_inner_outside by lia. unfold store.
    replace (p + Z.of_nat 0)%Z with p by lia. rewrite Z.eqb_refl.
    cbn [cpow]. rewrite cmul_1_r. reflexivity.
  - replace (p + Z.of_nat (S k))%Z with (p + 1 + Z.of_nat k)%Z by lia.
    rewrite IH by lia. unfold store.
    destruct (Z.eqb_spec (p + 1 + Z.of_nat k) p); [lia|].
    f_equal. cbn [cpow]. rewrite !cmul_assoc. reflexivity.
Qed.

(** Started from [y = b0 / a1], the pass of index [k] adds [b0 * a1 ^ k]. *)
Lemma response_inner_terms (n : nat) (a b : COMPLEX16) (p : Z) (m : buffer)
  (k : nat) :
  a <> czero -> (k < n)%nat ->
  response_inner n a (cdiv b a) p m (p + Z.of_nat k)%Z
  = cadd (m (p + Z.of_nat k)%Z) (cmul b (cpow a k)).
Proof.
  intros Ha Hk. rewrite response_inner_inside by assumption.
  cbn [cpow]. rewrite <- cmul_assoc, cmul_cdiv_cancel by assumption.
  reflexivity.
Qed.

(** A sample of the result depends on the same sample of the start only. *)
Lemma response_inner_congr (n : nat) (a y : COMPLEX16) (p : Z)
  (m1 m2 : buffer) (i : Z) :
  m1 i = m2 i -> response_inner n a y p m1 i = response_inner n a y p m2 i.
Proof.
  revert y p m1 m2. induction n as [|n IH]; intros y p m1 m2 H.
  - exact H.
  - cbn [response_inner]. apply IH. unfold store.
    destruct (Z.eqb_spec i p) as [->|]; [rewrite H; reflexivity | exact H].
Qed.

Lemma response_filters_congr (a1 b0 : list COMPLEX16) (delay : list Z)
  (L : Z) (m1 m2 : buffer) (i : Z) :
  m1 i = m2 i ->
  response_filters a1 b0 delay L m1 i = response_filters a1 b0 delay L m2 i.
Proof.
  revert b0 delay m1 m2.
  induction a1 as [|a a1 IH]; intros b0 delay m1 m2 H; [exact H|].
  destruct b0 as [|b b0]; [exact H|]. destruct delay as [|d delay]; [exact H|].
  cbn [response_filters]. apply IH. apply response_inner_congr. exact H.
Qed.

Lemma response_length_cap (a : COMPLEX16) (L d : Z) :
  (response_length a L d <= L - d)%Z.
Proof.
  unfold response_length. cbv zeta.
  match goal with
  | |- context [(?x <? ?y)%Z] => destruct (Z.ltb_spec x y)
  end; lia.
Qed.

(** No filter writes a sample of index [L] or above. *)
Lemma response_filters_beyond (a1 b0 : list COMPLEX16) (delay : list Z)
  (L : Z) (m : buffer) (i : Z) :
  (L <= i)%Z -> response_filters a1 b0 delay L m i = m i.
Proof.
  intros Hi. revert b0 delay m.
  induction a1 as [|a a1 IH]; intros b0 delay m; [reflexivity|].
  destruct b0 as [|b b0]; [reflexivity|].
  destruct delay as [|d delay]; [reflexivity|].
  cbn [response_filters]. rewrite IH.
  apply response_inner_outside.
  pose proof (response_length_cap a L d). lia.
Qed.

Lemma cadd_0_r (z : COMPLEX16) : cadd z czero = z.
Proof. apply cx_eq; simpl; ring. Qed.

Lemma cadd_assoc (x y z : COMPLEX16) : cadd (cadd x y) z = cadd x (cadd y z).
Proof. apply cx_eq; simpl; ring. Qed.

(** What the loops of lines 166-185 add to each sample: for every filter
    the terms [b0 * a1 ^ n] at the indices [delay + n], [n] below the
    length that [response_length] gives. *)
Lemma response_filters_terms (a1 b0 : list COMPLEX16) (delay : list Z)
  (L : Z) (m : buffer) (i : Z) :
  Forall (fun a => a <> czero) a1 ->
  response_filters a1 b0 delay L m i
  = cadd (m i) (bank_terms a1 b0 delay L i).
Proof.
  intros Hnz. revert b0 delay m.
  induction Hnz as [|a a1 Ha Hnz IH]; intros b0 delay m;
    [cbn; rewrite cadd_0_r; reflexivity|].
  destruct b0 as [|b b0]; [cbn; rewrite cadd_0_r; reflexivity|].
  destruct delay as [|d delay]; [cbn; rewrite cadd_0_r; reflexivity|].
  cbn [response_filters bank_terms]. rewrite IH, <- cadd_assoc. f_equal.
  unfold filter_term.
  destruct (Z.leb_spec d i) as [Hd|Hd];
    [destruct (Z.ltb_spec i (d + response_length a L d)) as [Hl|Hl]|];
    cbn [andb].
  - replace i with (d + Z.of_nat (Z.to_nat (i - d)))%Z at 1 2 by lia.
    rewrite response_inner_terms by (assumption || lia).
    replace (d + Z.of_nat (Z.to_nat (i - d)))%Z with i by lia.
    reflexivity.
  - rewrite response_inner_outside by lia. rewrite cadd_0_r. reflexivity.
  - rewrite response_inner_outside by lia. rewrite cadd_0_r. reflexivity.
Qed.

Lemma cpow_real (r : R) (n : nat) : cpow (crect r 0) n = crect (r ^ n) 0.
Proof.
  induction n as [|n IH]; [reflexivity|].
  cbn [cpow]. rewrite IH. apply cx_eq; simpl; ring.
Qed.

Lemma cabs_a1_slow : cabs a1_slow = exp (- (2 / 5)).
Proof.
  unfold cabs, cnorm2, a1_slow; simpl.
  rewrite Rmult_0_l, Rplus_0_r. apply sqrt_square. left. apply exp_pos.
Qed.

Lemma a1_slow_nonzero : a1_slow <> czero.
Proof.
  intros E. apply (f_equal creal) in E. simpl in E.
  pose proof (exp_pos (- (2 / 5))). lra.
Qed.

Lemma response_length_a1_slow : response_length a1_slow 100 0 = 72%Z.
Proof.
  unfold response_length.
  rewrite int_of_ln_1e13, cabs_a1_slow, ln_exp.
  replace (IZR (-29) / - (2 / 5)) with (72 + 1 / 2) by field.
  rewrite int_of_real_nonneg by lra.
  rewrite (Int_part_unique _ 72) by lra. reflexivity.
Qed.

(** C3 at the input where the source departs from it: one filter with
    [a1 = exp (-2/5)], [b0 = 1] and delay 0 in a response of 100 samples.
    The quotient [log (1e-13) / log |a1|] is above 73, so the claim has the
    terms [b0 * a1 ^ n] accumulated for [n] up to 72 at least; the source
    takes the length 72, accumulates [b0 * a1 ^ 71] at index 71 as its last
    term and leaves the sample of index 72 at zero, where the claimed term
    [b0 * a1 ^ 72] is not zero. *)
Theorem response_length_truncates_the_logarithm_first :
  response_length a1_slow 100 0 = 72%Z
  /\ 73 < ln (1 / 10 ^ 13) / ln (cabs a1_slow)
  /\ snd (XLALInspiralIIRSetResponse
            [a1_slow] [b0_unit] [0%Z] 100 zero_buffer) 71%Z
     = cmul b0_unit (cpow a1_slow 71)
  /\ snd (XLALInspiralIIRSetResponse
            [a1_slow] [b0_unit] [0%Z] 100 zero_buffer) 72%Z
     = czero
  /\ cmul b0_unit (cpow a1_slow 72) <> czero.
Proof.
  split; [exact response_length_a1_slow|]. split.
  { rewrite cabs_a1_slow, ln_exp. pose proof ln_1e13_bounds.
    replace (ln (1 / 10 ^ 13) / - (2 / 5))
      with (- ln (1 / 10 ^ 13) * (5 / 2)) by (field; lra).
    lra. }
  unfold XLALInspiralIIRSetResponse.
  change (negb (len [a1_slow] =? len [b0_unit])%Z
          || negb (len [a1_slow] =? len [0%Z])%Z) with false.
  cbv iota. cbn [snd response_filters].
  rewrite response_length_a1_slow. change (Z.to_nat 72) with 72%nat.
  split; [|split].
  - change 71%Z with (0 + Z.of_nat 71)%Z.
    rewrite response_inner_terms by (exact a1_slow_nonzero || lia).
    change (memset0 100 zero_buffer (0 + Z.of_nat 71)%Z) with czero.
    apply cadd_0_l.
  - rewrite response_inner_outside by lia. reflexivity.
  - unfold a1_slow, b0_unit. rewrite cpow_real. intros E.
    apply (f_equal creal) in E. simpl in E.
    pose proof (pow_lt (exp (- (2 / 5))) 72 (exp_pos _)). lra.
Qed.

(** C10.  A call on vectors of matched lengths succeeds and leaves
    in the response samples [0 .. L-1] values that do not depend on what the
    buffer held before; a call on mismatched lengths fails with
    [XLAL_EBADLEN] and leaves the buffer as it was. *)
Theorem response_zeroes_buffer_first
  (a1 b0 : list COMPLEX16) (delay : list Z) (L : Z) (m1 m2 : buffer) :
  (length a1 = length b0 /\ length a1 = length delay ->
   fst (XLALInspiralIIRSetResponse a1 b0 delay L m1) = XLAL_OK tt
   /\ fst (XLALInspiralIIRSetResponse a1 b0 delay L m2) = XLAL_OK tt
   /\ forall i : Z, (0 <= i < L)%Z ->
        snd (XLALInspiralIIRSetResponse a1 b0 delay L m1) i
        = snd (XLALInspiralIIRSetResponse a1 b0 delay L m2) i)
  /\ (~ (length a1 = length b0 /\ length a1 = length delay) ->
      XLALInspiralIIRSetResponse a1 b0 delay L m1
      = (XLAL_ERROR XLAL_EBADLEN, m1)).
Proof.
  unfold XLALInspiralIIRSetResponse, len. split.
  - intros [Hb Hd]. rewrite <- Hb, <- Hd, Z.eqb_refl. cbn [negb orb fst snd].
    split; [reflexivity|]. split; [reflexivity|].
    intros i Hi. apply response_filters_congr. unfold memset0.
    destruct (Z.leb_spec 0 i); [|lia]. destruct (Z.ltb_spec i L); [|lia].
    reflexivity.
  - intros Hne.
    destruct (Z.eqb_spec (Z.of_nat (length a1)) (Z.of_nat (length b0)));
      [|reflexivity].
    destruct (Z.eqb_spec (Z.of_nat (length a1)) (Z.of_nat (length delay)));
      [|reflexivity].
    exfalso. apply Hne. split; lia.
Qed.

Lemma response_zeroes_buffer_first_witness :
  (length [a1_slow] = length [b0_unit] /\ length [a1_slow] = length [0%Z])
  /\ fst (XLALInspiralIIRSetResponse [a1_slow] [b0_unit] [0%Z] 100
            zero_buffer) = XLAL_OK tt
  /\ (forall i : Z, (0 <= i < 100)%Z ->
        snd (XLALInspiralIIRSetResponse [a1_slow] [b0_unit] [0%Z] 100
               zero_buffer) i
        = snd (XLALInspiralIIRSetResponse [a1_slow] [b0_unit] [0%Z] 100
                 (fun _ => b0_unit)) i)
  /\ ~ (length [a1_slow] = length [b0_unit]
        /\ length [a1_slow] = length (@nil Z))
  /\ XLALInspiralIIRSetResponse [a1_slow] [b0_unit] [] 100 zero_buffer
     = (XLAL_ERROR XLAL_EBADLEN, zero_buffer).
Proof.
  assert (Hm : length [a1_slow] = length [b0_unit]
               /\ length [a1_slow] = length [0%Z]) by (split; reflexivity).
  assert (Hn : ~ (length [a1_slow] = length [b0_unit]
                  /\ length [a1_slow] = length (@nil Z)))
    by (intros [_ H]; discriminate H).
  split; [exact Hm|].
  destruct (response_zeroes_buffer_first
              [a1_slow] [b0_unit] [0%Z] 100 zero_buffer (fun _ => b0_unit))
    as [Hok _].
  destruct (Hok Hm) as (H1 & _ & H3).
  split; [exact H1|]. split; [exact H3|]. split; [exact Hn|].
  destruct (response_zeroes_buffer_first
              [a1_slow] [b0_unit] [] 100 zero_buffer zero_buffer)
    as [_ Herr].
  exact (Herr Hn).
Defined.

(** ** The inner product *)

Lemma nth_scaled (c : R) (psd : list R) (j : nat) :
  nth j (map (Rmult c) psd) 0 = c * nth j psd 0.
Proof.
  rewrite <- (Rmult_0_r c) at 1. apply map_nth.
Qed.

Lemma inner_product_fold_scaled (c : R) (g : nat -> R) (psd : list R)
  (P : R) (js : list nat) (acc : R) :
  fold_left
    (fun ip j => ip + g j / (nth j (map (Rmult c) psd) 0 * P) * 1)
    js (/ c * acc)
  = / c * fold_left (fun ip j => ip + g j / (nth j psd 0 * P) * 1) js acc.
Proof.
  revert acc. induction js as [|j js IH]; intros acc; [reflexivity|].
  cbn [fold_left]. rewrite <- IH. f_equal.
  rewrite nth_scaled. unfold Rdiv. rewrite !Rinv_mult. ring.
Qed.

(** C8.  For every filter set and every strictly positive PSD, multiplying
    each PSD entry by a constant [c > 0] multiplies the inner product by
    exactly [1 / c]. *)
Theorem inner_product_scales_inversely
  (a1 b0 : list COMPLEX16) (delay : list Z) (psd : list R) (c : R) :
  0 < c -> Forall (fun p => 0 < p) psd ->
  XLALInspiralCalculateIIRSetInnerProduct a1 b0 delay (map (Rmult c) psd)
  = 1 / c * XLALInspiralCalculateIIRSetInnerProduct a1 b0 delay psd.
Proof.
  intros Hc Hpsd. unfold XLALInspiralCalculateIIRSetInnerProduct, len.
  rewrite length_map.
  replace 0 with (/ c * 0) at 1 by ring.
  rewrite (inner_product_fold_scaled c
             (fun j => cabs (hA_at a1 b0 delay (Z.of_nat (length psd)) j)
                       * cabs (hA_at a1 b0 delay (Z.of_nat (length psd)) j))).
  unfold Rdiv. ring.
Qed.

Lemma inner_product_scales_inversely_witness :
  0 < 2 /\ Forall (fun p => 0 < p) psd2
  /\ XLALInspiralCalculateIIRSetInnerProduct
       [a1_slow] [b0_unit] [0%Z] (map (Rmult 2) psd2)
     = 1 / 2 * XLALInspiralCalculateIIRSetInnerProduct
                 [a1_slow] [b0_unit] [0%Z] psd2.
Proof.
  assert (Hc : 0 < 2) by lra.
  assert (Hp : Forall (fun p => 0 < p) psd2)
    by (repeat constructor; lra).
  split; [exact Hc|]. split; [exact Hp|].
  exact (inner_product_scales_inversely
           [a1_slow] [b0_unit] [0%Z] psd2 2 Hc Hp).
Defined.

(** ** The demodulation loop *)

Import Demod.

Section DemodFacts.

Variables (SMALL : R) (maxSFTindex : Z) (params : DemodPar)
  (input : list SFT).

Local Abbreviation seg := (segment SMALL maxSFTindex params input).
Local Abbreviation sfts := (sft_loop SMALL maxSFTindex params input).
Local Abbreviation bins := (bin_loop SMALL maxSFTindex params input).

Lemma kernel_small_step_reads (X : SFT) (ts tc : R) :
  reads_one (kernel_small_step SMALL X ts tc).
Proof.
  intros st. unfold kernel_small_step. cbv zeta.
  destruct (Rlt_dec _ _); split; reflexivity.
Qed.

Lemma kernel_step_reads (X : SFT) (ts tc : R) :
  reads_one (kernel_step X ts tc).
Proof. intros st. split; reflexivity. Qed.

Lemma iterate_reads (step : kstate -> kstate) (n : nat) (st : kstate) :
  reads_one step ->
  k_pos (iterate n step st) = (k_pos st + Z.of_nat n)%Z
  /\ rev (k_reads (iterate n step st))
     = rev (k_reads st)
       ++ map (fun k => (k_pos st + Z.of_nat k)%Z) (seq 0 n).
Proof.
  intros Hstep. revert st. induction n as [|n IH]; intros st.
  - cbn [iterate seq map]. rewrite app_nil_r. split; [lia | reflexivity].
  - cbn [iterate]. destruct (IH (step st)) as [Hp Hr].
    destruct (Hstep st) as [Hp1 Hr1]. rewrite Hp, Hr, Hp1, Hr1.
    split; [lia|]. cbn [rev seq map]. rewrite <- app_assoc. f_equal.
    cbn [app]. f_equal; [f_equal; lia|].
    rewrite <- seq_shift, map_map. apply map_ext. intros k. lia.
Qed.

(** The branch taken when [tempFreq0 >= LD_SMALL] reads the whole window and
    then tests the index it started from. *)
Lemma segment_generic (f : R) (alpha : Z) :
  0 <= xTemp_at params f alpha ->
  LD_SMALL <= xTemp_at params f alpha
              - IZR (int_of_real (xTemp_at params f alpha)) ->
  (0 <= sftIndex_at params f alpha)%Z ->
  run_reads (seg f alpha) = window params (sftIndex_at params f alpha)
  /\ (if (maxSFTindex <? to_UINT4 (sftIndex_at params f alpha - 1))%Z
      then run_end (seg f alpha) = Abort_EINPUT
      else exists q, run_end (seg f alpha) = Returned q).
Proof.
  intros Hx Hfrac Hidx. unfold segment. cbv zeta.
  change (negb (finite _)) with false. cbv iota.
  destruct (Rlt_dec (xTemp_at params f alpha) 0); [lra|].
  destruct (Z.ltb_spec (sftIndex_at params f alpha) 0); [lia|].
  destruct (Rlt_dec _ LD_SMALL); [lra|].
  match goal with
  | |- context [iterate ?n ?step ?st0] =>
      destruct (iterate_reads step n st0 (kernel_step_reads _ _ _))
        as [_ Hreads]
  end.
  cbn [k_reads k_pos rev app] in Hreads.
  destruct (_ <? _)%Z; cbn [run_reads run_end]; rewrite Hreads;
    (split; [reflexivity|]); [reflexivity | eexists; reflexivity].
Qed.

(** The branch taken when [tempFreq0 < LD_SMALL] reads the whole window
    and then tests the index of the last sample it read. *)
Lemma segment_small (f : R) (alpha : Z) :
  0 <= xTemp_at params f alpha ->
  xTemp_at params f alpha - IZR (int_of_real (xTemp_at params f alpha))
  < LD_SMALL ->
  (0 <= sftIndex_at params f alpha)%Z ->
  run_reads (seg f alpha) = window params (sftIndex_at params f alpha)
  /\ (if (maxSFTindex
          <? to_UINT4 (sftIndex_at params f alpha
                       + Z.of_nat (Z.to_nat (to_UINT4 (2 * Dterms params)))
                       - 1))%Z
      then run_end (seg f alpha) = Abort_EINPUT
      else exists q, run_end (seg f alpha) = Returned q).
Proof.
  intros Hx Hfrac Hidx. unfold segment. cbv zeta.
  change (negb (finite _)) with false. cbv iota.
  destruct (Rlt_dec (xTemp_at params f alpha) 0); [lra|].
  destruct (Z.ltb_spec (sftIndex_at params f alpha) 0); [lia|].
  destruct (Rlt_dec _ LD_SMALL); [|lra].
  match goal with
  | |- context [iterate ?n ?step ?st0] =>
      destruct (iterate_reads step n st0 (kernel_small_step_reads _ _ _))
        as [Hpos Hreads]
  end.
  cbn [k_reads k_pos rev app] in Hpos, Hreads. rewrite Hpos.
  destruct (_ <? _)%Z; cbn [run_reads run_end]; rewrite Hreads;
    (split; [reflexivity|]); [reflexivity | eexists; reflexivity].
Qed.

(** The loop over the SFTs adds the weighted products of the segments. *)
Lemma sft_loop_sums (f : R) (n a : nat) (Fa Fb Fa' Fb' : COMPLEX16) :
  sfts f n (Z.of_nat a) Fa Fb = Returned (Fa', Fb') ->
  let q alpha :=
    match run_end (seg f alpha) with
    | Returned (re, im) => crect re im
    | _ => czero
    end in
  let sum w :=
    fold_right
      (fun alpha acc =>
         cadd (cscale (dat w (Z.of_nat alpha)) (q (Z.of_nat alpha))) acc)
      czero (seq a n) in
  Fa' = cadd Fa (sum (am_a (amcoe params)))
  /\ Fb' = cadd Fb (sum (am_b (amcoe params))).
Proof.
  cbv zeta. revert a Fa Fb. induction n as [|n IH]; intros a Fa Fb Hrun.
  - cbn [sft_loop] in Hrun. injection Hrun as <- <-.
    cbn [seq fold_right]. split; apply cx_eq; simpl; ring.
  - cbn [sft_loop] in Hrun. cbn [seq fold_right].
    destruct (run_end (seg f (Z.of_nat a))) as [[re im]| |];
      [|discriminate|discriminate].
    replace (Z.of_nat a + 1)%Z with (Z.of_nat (S a)) in Hrun by lia.
    apply IH in Hrun. destruct Hrun as [-> ->].
    split; apply cx_eq; simpl; ring.
Qed.

Lemma store_bin_other (i j : Z) (Fa Fb : COMPLEX16) (Fs : LALFstat) :
  j <> i ->
  F (store_bin params i Fa Fb Fs) j = F Fs j
  /\ Demod.Fa (store_bin params i Fa Fb Fs) j = Demod.Fa Fs j
  /\ Demod.Fb (store_bin params i Fa Fb Fs) j = Demod.Fb Fs j.
Proof.
  intros Hj. unfold store_bin. cbv zeta.
  destruct (returnFaFb params); cbn [F Demod.Fa Demod.Fb]; unfold set;
    destruct (Z.eqb_spec j i); try contradiction; auto.
Qed.

Lemma cabs_sq (z : COMPLEX16) :
  cabs z ^ 2 = creal z * creal z + cimag z * cimag z.
Proof.
  unfold cabs. simpl. rewrite Rmult_1_r. apply sqrt_sqrt, cnorm2_nonneg.
Qed.

Lemma store_bin_same (i : Z) (Fa Fb : COMPLEX16) (Fs : LALFstat) :
  F (store_bin params i Fa Fb Fs) i = Fstat params Fa Fb
  /\ (returnFaFb params = true ->
      Demod.Fa (store_bin params i Fa Fb Fs) i = Fa
      /\ Demod.Fb (store_bin params i Fa Fb Fs) i = Fb).
Proof.
  unfold store_bin, Fstat. cbv zeta. rewrite !cabs_sq.
  destruct (returnFaFb params); cbn [F Demod.Fa Demod.Fb]; unfold set;
    rewrite ?Z.eqb_refl; (split; [simpl; ring|]);
    [intros _; split; reflexivity | discriminate].
Qed.

(** The loop over the bins leaves the bins below its start alone. *)
Lemma bin_loop_below (n : nat) (i : Z) (Fs Fs' : LALFstat) (j : Z) :
  bins n i Fs = Returned Fs' -> (j < i)%Z ->
  F Fs' j = F Fs j /\ Demod.Fa Fs' j = Demod.Fa Fs j
  /\ Demod.Fb Fs' j = Demod.Fb Fs j.
Proof.
  revert i Fs. induction n as [|n IH]; intros i Fs Hrun Hj.
  - cbn [bin_loop] in Hrun. injection Hrun as <-. auto.
  - cbn [bin_loop] in Hrun.
    destruct (sft_loop _ _ _ _ _ _ _ _ _) as [[Fa Fb]| |];
      [|discriminate|discriminate].
    apply IH in Hrun; [|lia]. destruct Hrun as (-> & -> & ->).
    apply store_bin_other. lia.
Qed.

Lemma bin_loop_stores (n : nat) (i : Z) (Fs Fs' : LALFstat) (j : Z) :
  (0 <= i)%Z ->
  bins n i Fs = Returned Fs' -> (i <= j < i + Z.of_nat n)%Z ->
  F Fs' j = Fstat params (Fa_sum SMALL maxSFTindex params input j)
                         (Fb_sum SMALL maxSFTindex params input j)
  /\ (returnFaFb params = true ->
      Demod.Fa Fs' j = Fa_sum SMALL maxSFTindex params input j
      /\ Demod.Fb Fs' j = Fb_sum SMALL maxSFTindex params input j).
Proof.
  revert i Fs. induction n as [|n IH]; intros i Fs Hi Hrun Hj; [lia|].
  cbn [bin_loop] in Hrun.
  destruct (sft_loop _ _ _ _ _ _ _ _ _) as [[Fa Fb]| |] eqn:Hsft;
    [|discriminate|discriminate].
  destruct (Z.eq_dec j i) as [->|Hne].
  - apply (sft_loop_sums _ _ 0) in Hsft. cbv zeta in Hsft.
    destruct Hsft as [HFa HFb]. rewrite cadd_0_l in HFa, HFb.
    destruct (bin_loop_below _ _ _ _ i Hrun ltac:(lia)) as (-> & -> & ->).
    unfold Fa_sum, Fb_sum, weighted_sum, QXP. rewrite <- HFa, <- HFb.
    apply store_bin_same.
  - apply (IH (i + 1)%Z _ ltac:(lia) Hrun). lia.
Qed.

End DemodFacts.

(** C4.  When [TestLALDemod] returns, every trial bin [i] of the statistic
    array holds [(4 / (M D)) (B |Fa|^2 + A |Fb|^2 - 2 C Re (Fa conj (Fb)))]
    for the sums [Fa] and [Fb] over all [M] segments of the products
    weighted by the antenna-pattern values, and with [returnFaFb] set the
    bin [i] of the two other arrays holds [Fa] and [Fb]. *)
Theorem demod_stores_statistic
  (SMALL : R) (maxSFTindex : Z) (params : DemodPar) (input : list SFT)
  (Fs Fs' : LALFstat) (i : Z) :
  TestLALDemod SMALL maxSFTindex params input Fs = Returned Fs' ->
  (0 <= i < imax params)%Z ->
  F Fs' i = Fstat params (Fa_sum SMALL maxSFTindex params input i)
                         (Fb_sum SMALL maxSFTindex params input i)
  /\ (returnFaFb params = true ->
      Demod.Fa Fs' i = Fa_sum SMALL maxSFTindex params input i
      /\ Demod.Fb Fs' i = Fb_sum SMALL maxSFTindex params input i).
Proof.
  unfold TestLALDemod. intros Hrun Hi.
  apply (bin_loop_stores _ _ _ _ _ 0%Z Fs Fs' i ltac:(lia) Hrun). lia.
Qed.

(** *** The sample run *)

Lemma PI_gt_3 : 3 < PI.
Proof. pose proof PI2_3_2. lra. Qed.

Lemma LD_SMALL_bounds : 0 < LD_SMALL < 1 / 2.
Proof.
  unfold LD_SMALL, LAL_TWOPI. pose proof PI_gt_3 as Hpi.
  assert (H1 : 0 < / (2 * PI)) by (apply Rinv_0_lt_compat; lra).
  assert (H2 : / (2 * PI) < / 1) by (apply Rinv_lt_contravar; lra).
  rewrite Rinv_1 in H2. unfold Rdiv. nra.
Qed.

Lemma xTemp_at_par (x : R) : xTemp_at (par_at x) x 0 = x.
Proof.
  unfold xTemp_at, xSum, spin_sum, tempInt1, par_at, dat; simpl. ring.
Qed.

Lemma freq_par (x : R) : freq (par_at x) 0 = x.
Proof. unfold freq, par_at; simpl. ring. Qed.

Lemma int_of_real_plus_half (n : Z) :
  (0 <= n)%Z -> int_of_real (IZR n + 1 / 2) = n.
Proof.
  intros Hn. assert (0 <= IZR n) by (apply IZR_le; assumption).
  rewrite int_of_real_nonneg by lra. apply Int_part_unique. lra.
Qed.

Lemma sftIndex_at_par (n : Z) :
  (0 <= n)%Z ->
  sftIndex_at (par_at (IZR n + 1 / 2)) (IZR n + 1 / 2) 0 = (n - 7)%Z.
Proof.
  intros Hn. unfold sftIndex_at.
  rewrite xTemp_at_par, int_of_real_plus_half by assumption.
  change (Dterms (par_at _)) with 8%Z. change (ifmin (par_at _)) with 0%Z.
  lia.
Qed.

(** A segment of the sample run at the bin [n + 1/2]: the loop that does
    not advance [sftIndex] is taken. *)
Lemma segment_par (max n : Z) :
  (7 <= n)%Z ->
  let x := IZR n + 1 / 2 in
  run_reads (segment small9 max (par_at x) sft1 x 0)
  = window (par_at x) (n - 7)
  /\ (if (max <? to_UINT4 (n - 7 - 1))%Z
      then run_end (segment small9 max (par_at x) sft1 x 0) = Abort_EINPUT
      else exists q,
          run_end (segment small9 max (par_at x) sft1 x 0) = Returned q).
Proof.
  intros Hn x.
  pose proof (segment_generic small9 max (par_at x) sft1 x 0) as H.
  unfold x in *. rewrite sftIndex_at_par in H by lia.
  rewrite xTemp_at_par, int_of_real_plus_half in H by lia.
  assert (0 <= IZR n) by (apply IZR_le; lia).
  pose proof LD_SMALL_bounds.
  apply H; [lra | lra | lia].
Qed.

(** C2 at the two inputs where the source departs from it, with
    [Dterms = 8], [ifmin = 0] and [maxSFTindex = 110].  At [xTemp = 107.5]
    the window of 16 samples starts at index 100 and runs past 110, and the
    call goes on without aborting after it has read the sample of index
    115.  At [xTemp = 7.5] the window starts at index 0 and lies within the
    valid range, and the call aborts. *)
Theorem demod_bound_check_uses_start_index :
  sftIndex_at (par_at (215 / 2)) (215 / 2) 0 = 100%Z
  /\ run_reads (segment small9 110 (par_at (215 / 2)) sft1 (215 / 2) 0)
     = [100; 101; 102; 103; 104; 105; 106; 107;
        108; 109; 110; 111; 112; 113; 114; 115]%Z
  /\ (exists q,
        run_end (segment small9 110 (par_at (215 / 2)) sft1 (215 / 2) 0)
        = Returned q)
  /\ sftIndex_at (par_at (15 / 2)) (15 / 2) 0 = 0%Z
  /\ run_reads (segment small9 110 (par_at (15 / 2)) sft1 (15 / 2) 0)
     = [0; 1; 2; 3; 4; 5; 6; 7; 8; 9; 10; 11; 12; 13; 14; 15]%Z
  /\ run_end (segment small9 110 (par_at (15 / 2)) sft1 (15 / 2) 0)
     = Abort_EINPUT.
Proof.
  replace (215 / 2) with (IZR 107 + 1 / 2) by lra.
  replace (15 / 2) with (IZR 7 + 1 / 2) by lra.
  destruct (segment_par 110 107 ltac:(lia)) as [Hr1 He1].
  destruct (segment_par 110 7 ltac:(lia)) as [Hr2 He2].
  rewrite !sftIndex_at_par by lia.
  repeat split; try assumption; reflexivity.
Qed.

Lemma TestLALDemod_107 :
  TestLALDemod small9 110 (par_at (215 / 2)) sft1 Fs0 = Returned Fs_107.
Proof.
  assert (H : exists Fs',
             TestLALDemod small9 110 (par_at (215 / 2)) sft1 Fs0
             = Returned Fs').
  { unfold TestLALDemod. change (imax (par_at (215 / 2))) with 1%Z.
    change (Z.to_nat 1) with 1%nat. cbn [bin_loop].
    change (SFTno (par_at (215 / 2))) with 1%Z.
    change (Z.to_nat 1) with 1%nat. cbn [sft_loop].
    rewrite freq_par. replace (215 / 2) with (IZR 107 + 1 / 2) by lra.
    destruct (segment_par 110 107 ltac:(lia)) as [_ [[re im] ->]].
    eexists; reflexivity. }
  unfold Fs_107. destruct H as [Fs' ->]. reflexivity.
Qed.

Lemma demod_stores_statistic_witness :
  TestLALDemod small9 110 (par_at (215 / 2)) sft1 Fs0 = Returned Fs_107
  /\ (0 <= 0 < imax (par_at (215 / 2)))%Z
  /\ F Fs_107 0
     = Fstat (par_at (215 / 2))
         (Fa_sum small9 110 (par_at (215 / 2)) sft1 0)
         (Fb_sum small9 110 (par_at (215 / 2)) sft1 0)
  /\ (returnFaFb (par_at (215 / 2)) = true ->
      Demod.Fa Fs_107 0 = Fa_sum small9 110 (par_at (215 / 2)) sft1 0
      /\ Demod.Fb Fs_107 0 = Fb_sum small9 110 (par_at (215 / 2)) sft1 0).
Proof.
  assert (Hi : (0 <= 0 < imax (par_at (215 / 2)))%Z)
    by (change (imax (par_at (215 / 2))) with 1%Z; lia).
  split; [exact TestLALDemod_107|]. split; [exact Hi|].
  exact (demod_stores_statistic small9 110 (par_at (215 / 2)) sft1
           Fs0 Fs_107 0 TestLALDemod_107 Hi).
Defined.

(** ** The lookup table *)

Lemma sinVal_0 : sinVal 0 = 0.
Proof.
  unfold sinVal. replace (LAL_TWOPI * 0 / IZR LUT_RES) with 0
    by (unfold Rdiv; ring).
  apply sin_0.
Qed.

Lemma sinVal_16 : sinVal 16 = 1.
Proof.
  unfold sinVal, LAL_TWOPI, LUT_RES.
  replace (2 * PI * 16 / 64) with (PI / 2) by lra. apply sin_PI2.
Qed.

Lemma sinVal_32 : sinVal 32 = 0.
Proof.
  unfold sinVal, LAL_TWOPI, LUT_RES.
  replace (2 * PI * 32 / 64) with PI by lra. apply sin_PI.
Qed.

Lemma lut_idx_near_0 : lut_idx (1 / 200) = 0%Z.
Proof.
  unfold lut_idx, LUT_RES. rewrite int_of_real_nonneg by lra.
  apply Int_part_unique. lra.
Qed.

Lemma lut_idx_near_16 : lut_idx (51 / 200) = 16%Z.
Proof.
  unfold lut_idx, LUT_RES. rewrite int_of_real_nonneg by lra.
  apply Int_part_unique. lra.
Qed.

Lemma lut_sin_near_0 : lut_sin (1 / 200) = PI / 100.
Proof.
  unfold lut_sin. cbv zeta. rewrite lut_idx_near_0.
  unfold cosVal2PI, sinVal2PIPI, sinVal2PI, divLUTtab.
  change (0 + LUT_RES / 4)%Z with 16%Z.
  rewrite sinVal_0, sinVal_16. unfold LAL_TWOPI, LUT_RES. lra.
Qed.

Lemma lut_cos_near_16 : lut_cos (51 / 200) = - (PI / 100).
Proof.
  unfold lut_cos. cbv zeta. rewrite lut_idx_near_16.
  unfold cosVal, cosVal2PIPI, sinVal2PIPI, sinVal2PI, divLUTtab.
  change (16 + LUT_RES / 4)%Z with 32%Z.
  rewrite sinVal_16, sinVal_32. unfold LAL_TWOPI, LUT_RES. lra.
Qed.

(** The third-order term that the table leaves out, at [h = pi / 100]. *)
Lemma sin_gap : 4 / 10 ^ 6 < PI / 100 - sin (PI / 100).
Proof.
  pose proof PI_gt_3 as Hlo. pose proof PI_4 as Hhi.
  set (h := PI / 100).
  assert (Hh : 3 / 100 < h <= 4 / 100) by (unfold h; lra).
  destruct (pre_sin_bound h 0 ltac:(lra) ltac:(lra)) as [_ Hub].
  unfold sin_approx, sin_term in Hub. simpl in Hub.
  assert (H3 : (3 / 100) ^ 3 <= h ^ 3) by (apply pow_incr; lra).
  assert (H5 : h ^ 5 <= (4 / 100) ^ 5) by (apply pow_incr; lra).
  simpl in H3, H5. lra.
Qed.

(** C5 at two inputs where the source departs from it.  At the phase
    [x = 1/200] the table gives the sine [pi / 100], above [sin (2 pi x)] by
    more than 4e-6; at [x = 51/200] it gives the cosine [- pi / 100],
    below [cos (2 pi x)] by more than 4e-6. *)
Theorem lut_error_exceeds_bound :
  (0 <= 1 / 200 < 1 /\ 0 <= 51 / 200 < 1)
  /\ 4 / 10 ^ 6 < lut_sin (1 / 200) - sin (LAL_TWOPI * (1 / 200))
  /\ 4 / 10 ^ 6 < cos (LAL_TWOPI * (51 / 200)) - lut_cos (51 / 200).
Proof.
  split; [lra|]. pose proof sin_gap as H.
  rewrite lut_sin_near_0, lut_cos_near_16. unfold LAL_TWOPI.
  replace (2 * PI * (1 / 200)) with (PI / 100) by lra.
  replace (2 * PI * (51 / 200)) with (PI / 2 + PI / 100) by lra.
  rewrite cos_plus, cos_PI2, sin_PI2. lra.
Qed.

(** * Further properties of the synthesizer *)

Lemma Int_part_ge (r : R) (z : Z) : IZR z <= r -> (z <= Int_part r)%Z.
Proof.
  intros H. pose proof (Int_part_bounds r) as [_ Hu].
  assert (Hlt : IZR z < IZR (Int_part r + 1)) by (rewrite plus_IZR; lra).
  apply lt_IZR in Hlt. lia.
Qed.

Lemma Int_part_le (r : R) (z : Z) : r < IZR z + 1 -> (Int_part r <= z)%Z.
Proof.
  intros H. pose proof (Int_part_bounds r) as [Hl _].
  assert (Hlt : IZR (Int_part r) < IZR (z + 1)) by (rewrite plus_IZR; lra).
  apply lt_IZR in Hlt. lia.
Qed.

(** A quadratic phase has a zero third difference: the third-order
    candidate is [+inf] and the step taken is the second-order one.  With
    twelve samples, [epsilon = 10] and [alpha = 0] the first step is at
    least 8, so the cursor goes from 11 to 3 or below and the run records
    one filter. *)
Lemma phase_tdot12 : phase_tdot phase12 11 = 0.
Proof.
  unfold phase_tdot, fabs.
  change (len phase12 - 3 <? 11)%Z with true. cbv iota.
  change (dat phase12 (11 - 3)) with 64.
  change (dat phase12 (11 - 2)) with 81.
  change (dat phase12 (11 - 1)) with 100.
  change (dat phase12 11) with 121.
  replace (64 - 3 * 81 + 3 * 100 - 121) with 0 by lra.
  unfold Rdiv. rewrite Rmult_0_l. apply Rabs_R0.
Qed.

Lemma phase_ddot12 : phase_ddot phase12 11 = 1 / PI.
Proof.
  unfold phase_ddot, fabs, LAL_TWOPI.
  change (len phase12 - 3 <? 11)%Z with true. cbv iota.
  change (dat phase12 (11 - 2)) with 81.
  change (dat phase12 (11 - 1)) with 100.
  change (dat phase12 11) with 121.
  pose proof PI_RGT_0 as Hpi.
  replace ((81 - 2 * 100 + 121) / (2 * PI)) with (1 / PI) by (field; lra).
  apply Rabs_right. apply Rle_ge, Rlt_le, Rdiv_lt_0_compat; lra.
Qed.

Lemma jstep_min12 : (8 <= jstep_min phase12 10 11)%Z.
Proof.
  pose proof PI_gt_3 as Hpi.
  assert (Hnz : 1 / PI <> 0)
    by (apply Rgt_not_eq, Rdiv_lt_0_compat; lra).
  unfold jstep_min.
  rewrite jstep_second_value, jstep_third_value by lra.
  rewrite phase_tdot12, phase_ddot12.
  destruct (Req_dec_T (1 / PI) 0) as [|_]; [contradiction|].
  destruct (Req_dec_T 0 0) as [_|Hn]; [|contradiction Hn; reflexivity].
  cbn [x_gt x_int]. rewrite int_of_floor.
  replace (2 * 10 / (1 / PI)) with (20 * PI) by (field; lra).
  assert (Hs : 15 / 2 <= sqrt (20 * PI)).
  { rewrite <- (sqrt_square (15 / 2)) by lra.
    apply sqrt_le_1_alt. lra. }
  assert (H8 : (8 <= Int_part (sqrt (20 * PI) + 0.5))%Z)
    by (apply Int_part_ge; lra).
  cbv zeta.
  destruct (Z.ltb_spec (Int_part (sqrt (20 * PI) + 0.5)) 2); lia.
Qed.

Lemma run12 :
  exists r : iirset,
    XLALInspiralGenerateIIRSet amp12 phase12 10 0 1 0 0 = XLAL_OK r
    /\ delay r = [0%Z].
Proof.
  unfold XLALInspiralGenerateIIRSet.
  change (len amp12) with 12%Z. change (len phase12) with 12%Z.
  change (negb (12 =? 12)%Z) with false. cbv iota.
  change (12 - 1)%Z with 11%Z. change (Z.to_nat 11) with 11%nat.
  rewrite iir_loop_unfold by lia.
  rewrite (k_at_alpha_0 phase12 10 0 11 eq_refl).
  change (11 <? 0)%Z with false. change (11 <? 2)%Z with false. cbv iota.
  assert (Hstep : (8 <= jstep_at phase12 10 0 11)%Z).
  { unfold jstep_at. pose proof jstep_min12.
    destruct (_ <? 1)%Z; lia. }
  rewrite iir_loop_exit by lia.
  eexists. split; [reflexivity|]. reflexivity.
Qed.

Section SynthesizerMore.

Variables (amp phase : list R) (epsilon alpha beta : R).

Local Abbreviation N := (len amp).
Local Abbreviation jstep_of := (jstep_at phase epsilon alpha).
Local Abbreviation k_of := (k_at phase epsilon alpha).
Local Abbreviation loop := (iir_loop amp phase epsilon alpha beta).
Local Abbreviation cursor_walk := (walk amp phase epsilon alpha).

(** With a lag fraction in [[0, 1]] the anchor of a step [s >= 0] from the
    cursor [j] is at most [j], and the anchor of the step [j] is not
    negative. *)
Lemma anchor_le (j s : Z) :
  0 <= alpha -> (0 <= s)%Z -> (anchor alpha j s <= j)%Z.
Proof.
  intros Ha Hs. unfold anchor. rewrite int_of_floor.
  assert (0 <= IZR s) by (apply IZR_le; assumption).
  apply Int_part_le. nra.
Qed.

Lemma anchor_full_step_nonneg (j : Z) :
  alpha <= 1 -> (0 <= j)%Z -> (0 <= anchor alpha j j)%Z.
Proof.
  intros Ha Hj. unfold anchor. rewrite int_of_floor.
  assert (0 <= IZR j) by (apply IZR_le; assumption).
  apply Int_part_ge. nra.
Qed.

Lemma k_at_range (j : Z) :
  0 <= alpha <= 1 -> (3 < j)%Z -> (0 <= k_of j <= j)%Z.
Proof.
  intros [Ha0 Ha1] Hj. unfold k_at, jstep_at.
  pose proof (jstep_min_ge_2 phase epsilon j) as Hmin.
  destruct (Z.ltb_spec (anchor alpha j (jstep_min phase epsilon j)) 1).
  - split; [apply anchor_full_step_nonneg | apply anchor_le]; assumption || lia.
  - split; [lia | apply anchor_le; assumption || lia].
Qed.

(** The loop fails only on a negative anchor. *)
Lemma iir_loop_succeeds (fuel : nat) (j : Z) (s : iirset) :
  (forall j', (3 < j')%Z -> (0 <= k_of j')%Z) ->
  exists r, loop fuel j s = XLAL_OK r.
Proof.
  intros Hk. revert j s. induction fuel as [|fuel IH]; intros j s.
  - eexists; reflexivity.
  - destruct (Z.le_gt_cases j 3) as [Hj|Hj].
    + rewrite iir_loop_exit by lia. eexists; reflexivity.
    + rewrite iir_loop_unfold by lia. specialize (Hk j ltac:(lia)).
      destruct (Z.ltb_spec (k_of j) 0); [lia|].
      destruct (_ <? 2)%Z; [eexists; reflexivity | apply IH].
Qed.

(** The three vectors grow together. *)
Lemma iir_loop_lengths (fuel : nat) (j : Z) (s r : iirset) :
  loop fuel j s = XLAL_OK r ->
  length (a1 s) = length (delay s) /\ length (b0 s) = length (delay s) ->
  length (a1 r) = length (delay r) /\ length (b0 r) = length (delay r).
Proof.
  revert j s. induction fuel as [|fuel IH]; intros j s Hrun Hs.
  - cbn [iir_loop] in Hrun. injection Hrun as <-. exact Hs.
  - destruct (Z.le_gt_cases j 3) as [Hj|Hj].
    + rewrite iir_loop_exit in Hrun by lia. injection Hrun as <-. exact Hs.
    + rewrite iir_loop_unfold in Hrun by lia.
      assert (Hs' :
        let s' := record_filter amp phase beta j (jstep_of j) (k_of j) s in
        length (a1 s') = length (delay s')
        /\ length (b0 s') = length (delay s')).
      { cbn [record_filter a1 b0 delay]. rewrite !length_app.
        cbn [length]. lia. }
      destruct (_ <? 0)%Z; [discriminate|].
      destruct (_ <? 2)%Z.
      * injection Hrun as <-. exact Hs'.
      * eapply IH; eassumption.
Qed.

(** A walk from the cursor [j] records at most [(j - 2) / 2] delays, at
    least 2 apart. *)
Lemma walk_count (j : Z) (ds : list Z) :
  cursor_walk j ds ->
  ((j <= 3)%Z -> ds = []) /\ ((3 < j)%Z -> (2 * len ds <= j - 2)%Z).
Proof.
  unfold len.
  induction 1 as [j Hj | j Hj Hk | j ds Hj Hk Hs Hw [IH0 IH1]].
  - split; [reflexivity | lia].
  - split; [lia|]. cbn [length]. lia.
  - split; [lia|]. intros _. cbn [length].
    destruct (Z.le_gt_cases (j - jstep_of j) 3) as [Hle|Hgt].
    + rewrite (IH0 Hle). cbn [length]. lia.
    + specialize (IH1 Hgt). lia.
Qed.

Lemma walk_spaced (j : Z) (ds : list Z) :
  cursor_walk j ds -> StronglySorted (fun d d' => (d + 2 <= d')%Z) ds.
Proof.
  induction 1 as [j Hj | j Hj Hk | j ds Hj Hk Hs Hw IH].
  - constructor.
  - constructor; constructor.
  - constructor; [exact IH|].
    eapply Forall_impl; [|exact (walk_range _ _ _ _ _ _ Hw)]. cbv beta.
    intros d Hd. lia.
Qed.

End SynthesizerMore.

Lemma generate_lengths
  (amp phase : list R) (epsilon alpha beta padding : R) (flag : Z)
  (r : iirset) :
  XLALInspiralGenerateIIRSet amp phase epsilon alpha beta padding flag
  = XLAL_OK r ->
  length (a1 r) = length (delay r) /\ length (b0 r) = length (delay r).
Proof.
  unfold XLALInspiralGenerateIIRSet. destruct (negb _); [discriminate|].
  intros Hrun. eapply iir_loop_lengths; [exact Hrun|].
  split; reflexivity.
Qed.

(** X1.  The three vectors that a successful run of the synthesizer returns
    have the same length, so the evaluator accepts them: called on them it
    never fails with [XLAL_EBADLEN]. *)
Theorem generate_output_feeds_response
  (amp phase : list R) (epsilon alpha beta padding : R) (flag : Z)
  (r : iirset) :
  XLALInspiralGenerateIIRSet amp phase epsilon alpha beta padding flag
  = XLAL_OK r ->
  length (a1 r) = length (b0 r) /\ length (a1 r) = length (delay r)
  /\ forall (L : Z) (m : buffer),
      fst (XLALInspiralIIRSetResponse (a1 r) (b0 r) (delay r) L m)
      = XLAL_OK tt.
Proof.
  intros Hrun. destruct (generate_lengths _ _ _ _ _ _ _ _ Hrun) as [Ha Hb].
  split; [congruence|]. split; [exact Ha|].
  intros L m. unfold XLALInspiralIIRSetResponse, len.
  rewrite Ha, Hb, Z.eqb_refl. reflexivity.
Qed.

Lemma generate_output_feeds_response_witness :
  XLALInspiralGenerateIIRSet amp5 phase5 1 0 1 0 0 = XLAL_OK set5
  /\ length (a1 set5) = length (b0 set5)
  /\ length (a1 set5) = length (delay set5)
  /\ forall (L : Z) (m : buffer),
      fst (XLALInspiralIIRSetResponse (a1 set5) (b0 set5) (delay set5) L m)
      = XLAL_OK tt.
Proof.
  split; [exact run5|].
  exact (generate_output_feeds_response amp5 phase5 1 0 1 0 0 set5 run5).
Defined.

(** X2.  With a lag fraction [alpha] in [[0, 1]] no anchor is negative, so
    the synthesizer succeeds on every envelope whose amplitude and phase
    have the same length; when the lengths differ it fails with
    [XLAL_EINVAL], whatever [alpha] is. *)
Theorem generate_succeeds_iff_lengths_match
  (amp phase : list R) (epsilon alpha beta padding : R) (flag : Z) :
  0 <= alpha <= 1 ->
  (length amp = length phase ->
   exists r,
     XLALInspiralGenerateIIRSet amp phase epsilon alpha beta padding flag
     = XLAL_OK r)
  /\ (length amp <> length phase ->
      XLALInspiralGenerateIIRSet amp phase epsilon alpha beta padding flag
      = XLAL_ERROR XLAL_EINVAL).
Proof.
  intros Ha. unfold XLALInspiralGenerateIIRSet, len. split.
  - intros ->. rewrite Z.eqb_refl. cbn [negb].
    apply iir_loop_succeeds. intros j Hj.
    apply (k_at_range phase epsilon alpha j Ha Hj).
  - intros Hne.
    destruct (Z.eqb_spec (Z.of_nat (length amp)) (Z.of_nat (length phase)));
      [lia | reflexivity].
Qed.

Lemma generate_succeeds_iff_lengths_match_witness :
  0 <= 0 <= 1
  /\ (length amp5 = length phase5 ->
      exists r, XLALInspiralGenerateIIRSet amp5 phase5 1 0 1 0 0 = XLAL_OK r)
  /\ (length amp5 <> length phase5 ->
      XLALInspiralGenerateIIRSet amp5 phase5 1 0 1 0 0
      = XLAL_ERROR XLAL_EINVAL).
Proof.
  assert (Ha : 0 <= 0 <= 1) by lra.
  split; [exact Ha|].
  exact (generate_succeeds_iff_lengths_match amp5 phase5 1 0 1 0 0 Ha).
Defined.

(** X3.  A successful run returns no filter exactly when the envelope has
    at most 4 samples, and on [N > 4] samples it returns at most
    [(N - 3) / 2] filters. *)
Theorem generate_filter_count
  (amp phase : list R) (epsilon alpha beta padding : R) (flag : Z)
  (r : iirset) :
  XLALInspiralGenerateIIRSet amp phase epsilon alpha beta padding flag
  = XLAL_OK r ->
  ((len amp <= 4)%Z <-> a1 r = [])
  /\ (2 * len (a1 r) <= Z.max 0 (len amp - 3))%Z.
Proof.
  intros Hrun.
  destruct (generate_lengths _ _ _ _ _ _ _ _ Hrun) as [Ha _].
  apply generate_walk in Hrun.
  destruct (walk_count _ _ _ _ _ _ Hrun) as [H0 H1].
  unfold len in *. rewrite Ha. split; [split|].
  - intros HN. apply length_zero_iff_nil. rewrite Ha, H0 by lia. reflexivity.
  - intros Hnil. destruct (Z.le_gt_cases (Z.of_nat (length amp)) 4) as [|HN];
      [assumption|].
    apply walk_head in Hrun; [|lia]. destruct Hrun as (ds & Hds).
    rewrite Hnil, Hds in Ha. discriminate Ha.
  - destruct (Z.le_gt_cases (Z.of_nat (length amp) - 1) 3) as [Hle|Hgt].
    + rewrite (H0 Hle). cbn [length]. lia.
    + specialize (H1 Hgt). lia.
Qed.

Lemma generate_filter_count_witness :
  XLALInspiralGenerateIIRSet amp5 phase5 1 0 1 0 0 = XLAL_OK set5
  /\ ((len amp5 <= 4)%Z <-> a1 set5 = [])
  /\ (2 * len (a1 set5) <= Z.max 0 (len amp5 - 3))%Z.
Proof.
  split; [exact run5|].
  exact (generate_filter_count amp5 phase5 1 0 1 0 0 set5 run5).
Defined.

(** X4.  The delays that a successful run returns start a new filter at
    least 2 samples after the one before, and none exceeds [N - 5]. *)
Theorem generate_delays_spaced
  (amp phase : list R) (epsilon alpha beta padding : R) (flag : Z)
  (r : iirset) :
  XLALInspiralGenerateIIRSet amp phase epsilon alpha beta padding flag
  = XLAL_OK r ->
  StronglySorted (fun d d' => (d + 2 <= d')%Z) (delay r)
  /\ Forall (fun d => (0 <= d <= len amp - 5)%Z) (delay r).
Proof.
  intros Hrun. apply generate_walk in Hrun. split.
  - eapply walk_spaced; exact Hrun.
  - eapply Forall_impl; [|eapply walk_range; exact Hrun].
    cbv beta. intros d Hd. lia.
Qed.

Lemma generate_delays_spaced_witness :
  XLALInspiralGenerateIIRSet amp5 phase5 1 0 1 0 0 = XLAL_OK set5
  /\ StronglySorted (fun d d' => (d + 2 <= d')%Z) (delay set5)
  /\ Forall (fun d => (0 <= d <= len amp5 - 5)%Z) (delay set5).
Proof.
  split; [exact run5|].
  exact (generate_delays_spaced amp5 phase5 1 0 1 0 0 set5 run5).
Defined.

(** X5.  With a lag fraction in [[0, 1]], at every cursor [j] that the loop
    can visit the anchor [k] lies between 0 and [j]: the samples [amp[k]]
    and [phase[k]] that a filter is built from are inside the envelope. *)
Theorem anchor_inside_envelope
  (amp phase : list R) (epsilon alpha : R) (j : Z) :
  0 <= alpha <= 1 -> (3 < j <= len amp - 1)%Z ->
  (0 <= k_at phase epsilon alpha j <= j)%Z
  /\ (k_at phase epsilon alpha j < len amp)%Z.
Proof.
  intros Ha [Hj HN].
  pose proof (k_at_range phase epsilon alpha j Ha Hj). lia.
Qed.

Lemma anchor_inside_envelope_witness :
  0 <= 0 <= 1 /\ (3 < 4 <= len amp5 - 1)%Z
  /\ (0 <= k_at phase5 1 0 4 <= 4)%Z
  /\ (k_at phase5 1 0 4 < len amp5)%Z.
Proof.
  assert (Ha : 0 <= 0 <= 1) by lra.
  assert (Hj : (3 < 4 <= len amp5 - 1)%Z) by (cbv; split; congruence).
  split; [exact Ha|]. split; [exact Hj|].
  exact (anchor_inside_envelope amp5 phase5 1 0 4 Ha Hj).
Defined.

(** * Further properties of the evaluator *)

Import Defined Sample2.

Lemma response_filters_below (a1 b0 : list COMPLEX16) (delay : list Z)
  (L : Z) (m : buffer) (i : Z) :
  Forall (fun d => (0 <= d)%Z) delay -> (i < 0)%Z ->
  response_filters a1 b0 delay L m i = m i.
Proof.
  intros Hd Hi. revert a1 b0 m.
  induction Hd as [|d delay Hd0 Hd IH]; intros a1 b0 m.
  - destruct a1 as [|a a1]; [reflexivity|].
    destruct b0 as [|b b0]; reflexivity.
  - destruct a1 as [|a a1]; [reflexivity|].
    destruct b0 as [|b b0]; [reflexivity|].
    cbn [response_filters]. rewrite IH.
    apply response_inner_outside. lia.
Qed.

(** What a pass over a filter adds to a sample does not depend on what the
    sample held. *)
Lemma response_inner_additive (n : nat) (a y : COMPLEX16) (p : Z)
  (m : buffer) (i : Z) :
  response_inner n a y p m i
  = cadd (m i) (response_inner n a y p (fun _ => czero) i).
Proof.
  destruct (Z.lt_ge_cases i p) as [Hlt|Hge].
  - rewrite !response_inner_outside by lia. rewrite cadd_0_r. reflexivity.
  - destruct (Z.lt_ge_cases i (p + Z.of_nat n)) as [Hin|Hout].
    + replace i with (p + Z.of_nat (Z.to_nat (i - p)))%Z by lia.
      rewrite !response_inner_inside by lia. rewrite cadd_0_l. reflexivity.
    + rewrite !response_inner_outside by lia. rewrite cadd_0_r. reflexivity.
Qed.

Lemma response_filters_additive (a1 b0 : list COMPLEX16) (delay : list Z)
  (L : Z) (m : buffer) (i : Z) :
  response_filters a1 b0 delay L m i
  = cadd (m i) (response_filters a1 b0 delay L (fun _ => czero) i).
Proof.
  revert b0 delay m. induction a1 as [|a a1 IH]; intros b0 delay m;
    [cbn; rewrite cadd_0_r; reflexivity|].
  destruct b0 as [|b b0]; [cbn; rewrite cadd_0_r; reflexivity|].
  destruct delay as [|d delay]; [cbn; rewrite cadd_0_r; reflexivity|].
  cbn [response_filters].
  rewrite IH, response_inner_additive.
  rewrite (IH _ _ (response_inner _ _ _ _ (fun _ => czero))).
  apply cadd_assoc.
Qed.

Lemma response_filters_app (a1 a1' b0 b0' : list COMPLEX16)
  (delay delay' : list Z) (L : Z) (m : buffer) :
  length a1 = length b0 -> length a1 = length delay ->
  response_filters (a1 ++ a1') (b0 ++ b0') (delay ++ delay') L m
  = response_filters a1' b0' delay' L (response_filters a1 b0 delay L m).
Proof.
  revert b0 delay m. induction a1 as [|a a1 IH]; intros b0 delay m Hb Hd.
  - destruct b0; [|discriminate]. destruct delay; [|discriminate].
    reflexivity.
  - destruct b0 as [|b b0]; [discriminate|].
    destruct delay as [|d delay]; [discriminate|].
    cbn [app response_filters]. apply IH; cbn [length] in *; lia.
Qed.

Lemma response_matched (a1 b0 : list COMPLEX16) (delay : list Z) (L : Z)
  (m : buffer) :
  length a1 = length b0 -> length a1 = length delay ->
  XLALInspiralIIRSetResponse a1 b0 delay L m
  = (XLAL_OK tt, response_filters a1 b0 delay L (memset0 L m)).
Proof.
  intros Hb Hd. unfold XLALInspiralIIRSetResponse, len.
  rewrite <- Hb, <- Hd, Z.eqb_refl. reflexivity.
Qed.

Lemma memset0_inside (L : Z) (m : buffer) (i : Z) :
  (0 <= i < L)%Z -> memset0 L m i = czero.
Proof.
  intros Hi. unfold memset0.
  destruct (Z.leb_spec 0 i); [|lia]. destruct (Z.ltb_spec i L); [|lia].
  reflexivity.
Qed.

Lemma memset0_outside (L : Z) (m : buffer) (i : Z) :
  (i < 0 \/ L <= i)%Z -> memset0 L m i = m i.
Proof.
  intros Hi. unfold memset0.
  destruct (Z.leb_spec 0 i); [|reflexivity].
  destruct (Z.ltb_spec i L); [lia | reflexivity].
Qed.

Lemma representable_a1_slow : representable a1_slow.
Proof.
  unfold representable, length_quotient.
  rewrite int_of_ln_1e13, cabs_a1_slow, ln_exp.
  split; [exact a1_slow_nonzero|]. split.
  - rewrite <- exp_0. intros E. apply exp_inv in E. lra.
  - replace (IZR (-29) / - (2 / 5)) with (72 + 1 / 2) by field. lra.
Qed.

(** X6.  Called on vectors of one length whose decay coefficients are
    representable, the evaluator succeeds and leaves in every sample [i] of
    the buffer the sum over the filters of the terms [b0 * a1 ^ (i - delay)]
    for [delay <= i < delay + length], where [length] is the integer part of
    [-29 / log |a1|] capped at [L - delay]. *)
Theorem response_samples_are_sums_of_terms
  (a1 b0 : list COMPLEX16) (delay : list Z) (L : Z) (m : buffer) (i : Z) :
  length a1 = length b0 -> length a1 = length delay ->
  Forall representable a1 -> (0 <= i < L)%Z ->
  fst (XLALInspiralIIRSetResponse a1 b0 delay L m) = XLAL_OK tt
  /\ snd (XLALInspiralIIRSetResponse a1 b0 delay L m) i
     = bank_terms a1 b0 delay L i.
Proof.
  intros Hb Hd Hrep Hi. rewrite response_matched by assumption.
  cbn [fst snd]. split; [reflexivity|].
  rewrite response_filters_terms.
  - rewrite memset0_inside by assumption. apply cadd_0_l.
  - eapply Forall_impl; [|exact Hrep]. cbv beta. intros a Ha. apply Ha.
Qed.

Lemma response_samples_are_sums_of_terms_witness :
  length [a1_slow] = length [b0_unit] /\ length [a1_slow] = length [0%Z]
  /\ Forall representable [a1_slow] /\ (0 <= 3 < 100)%Z
  /\ fst (XLALInspiralIIRSetResponse [a1_slow] [b0_unit] [0%Z] 100
            zero_buffer) = XLAL_OK tt
  /\ snd (XLALInspiralIIRSetResponse [a1_slow] [b0_unit] [0%Z] 100
            zero_buffer) 3%Z
     = bank_terms [a1_slow] [b0_unit] [0%Z] 100 3.
Proof.
  assert (Hr : Forall representable [a1_slow])
    by (constructor; [exact representable_a1_slow | constructor]).
  assert (Hi : (0 <= 3 < 100)%Z) by lia.
  split; [reflexivity|]. split; [reflexivity|].
  split; [exact Hr|]. split; [exact Hi|].
  exact (response_samples_are_sums_of_terms
           [a1_slow] [b0_unit] [0%Z] 100 zero_buffer 3
           eq_refl eq_refl Hr Hi).
Defined.

(** X7.  Called on vectors of one length with no negative delay, the
    evaluator changes nothing outside the samples [0 .. L-1] of the
    buffer. *)
Theorem response_writes_inside_buffer
  (a1 b0 : list COMPLEX16) (delay : list Z) (L : Z) (m : buffer) (i : Z) :
  length a1 = length b0 -> length a1 = length delay ->
  Forall (fun d => (0 <= d)%Z) delay -> (i < 0 \/ L <= i)%Z ->
  snd (XLALInspiralIIRSetResponse a1 b0 delay L m) i = m i.
Proof.
  intros Hb Hd Hdel Hi. rewrite response_matched by assumption.
  cbn [snd]. destruct Hi as [Hi|Hi].
  - rewrite response_filters_below by assumption.
    apply memset0_outside. lia.
  - rewrite response_filters_beyond by assumption.
    apply memset0_outside. lia.
Qed.

Lemma response_writes_inside_buffer_witness :
  length [a1_slow] = length [b0_unit] /\ length [a1_slow] = length [0%Z]
  /\ Forall (fun d => (0 <= d)%Z) [0%Z] /\ (100 < 0 \/ 100 <= 100)%Z
  /\ snd (XLALInspiralIIRSetResponse [a1_slow] [b0_unit] [0%Z] 100
            (fun _ => b0_unit)) 100%Z
     = b0_unit.
Proof.
  assert (Hd : Forall (fun d => (0 <= d)%Z) [0%Z])
    by (constructor; [lia | constructor]).
  assert (Hi : (100 < 0 \/ 100 <= 100)%Z) by (right; lia).
  split; [reflexivity|]. split; [reflexivity|].
  split; [exact Hd|]. split; [exact Hi|].
  exact (response_writes_inside_buffer
           [a1_slow] [b0_unit] [0%Z] 100 (fun _ => b0_unit) 100
           eq_refl eq_refl Hd Hi).
Defined.

Lemma response_length_unstable (a : COMPLEX16) (L d : Z) :
  1 < cabs a -> (response_length a L d <= 0)%Z.
Proof.
  intros Ha. unfold response_length. cbv zeta. rewrite int_of_ln_1e13.
  assert (Hln : 0 < ln (cabs a)).
  { rewrite <- ln_1. apply ln_increasing; lra. }
  assert (Hq : IZR (-29) / ln (cabs a) < 0).
  { unfold Rdiv. apply Rmult_neg_pos; [lra|].
    apply Rinv_0_lt_compat. assumption. }
  assert (Hint : (int_of_real (IZR (-29) / ln (cabs a)) <= 0)%Z).
  { unfold int_of_real. destruct (Rle_dec 0 _); [lra|].
    assert (H0 : (0 <= Int_part (- (IZR (-29) / ln (cabs a))))%Z)
      by (apply Int_part_ge; lra).
    lia. }
  destruct (Z.ltb_spec (L - d) (int_of_real (IZR (-29) / ln (cabs a)))); lia.
Qed.

(** X8.  A filter whose decay coefficient lies outside the unit circle
    (with a quotient of line 169 that fits an [int]) adds nothing: the call
    returns what it returns without that filter. *)
Theorem response_skips_growing_filter
  (a b : COMPLEX16) (d : Z) (a1 b0 : list COMPLEX16) (delay : list Z)
  (L : Z) (m : buffer) :
  1 < cabs a -> - 2 ^ 31 < length_quotient a ->
  XLALInspiralIIRSetResponse (a :: a1) (b :: b0) (d :: delay) L m
  = XLALInspiralIIRSetResponse a1 b0 delay L m.
Proof.
  intros Ha _. unfold XLALInspiralIIRSetResponse, len. cbn [length].
  rewrite !Nat2Z.inj_succ.
  replace (Z.succ (Z.of_nat (length a1)) =? Z.succ (Z.of_nat (length b0)))%Z
    with (Z.of_nat (length a1) =? Z.of_nat (length b0))%Z
    by (destruct (Z.eqb_spec (Z.of_nat (length a1)) (Z.of_nat (length b0)));
        destruct (Z.eqb_spec (Z.succ (Z.of_nat (length a1)))
                             (Z.succ (Z.of_nat (length b0)))); lia).
  replace (Z.succ (Z.of_nat (length a1))
           =? Z.succ (Z.of_nat (length delay)))%Z
    with (Z.of_nat (length a1) =? Z.of_nat (length delay))%Z
    by (destruct (Z.eqb_spec (Z.of_nat (length a1))
                             (Z.of_nat (length delay)));
        destruct (Z.eqb_spec (Z.succ (Z.of_nat (length a1)))
                             (Z.succ (Z.of_nat (length delay)))); lia).
  destruct (negb _ || negb _); [reflexivity|].
  cbn [response_filters].
  pose proof (response_length_unstable a L d Ha) as Hlen.
  replace (Z.to_nat (response_length a L d)) with 0%nat by lia.
  reflexivity.
Qed.

Lemma cabs_a1_growing : cabs a1_growing = exp 1.
Proof.
  unfold cabs, cnorm2, a1_growing; simpl.
  rewrite Rmult_0_l, Rplus_0_r. apply sqrt_square. left. apply exp_pos.
Qed.

Lemma response_skips_growing_filter_witness :
  1 < cabs a1_growing /\ - 2 ^ 31 < length_quotient a1_growing
  /\ XLALInspiralIIRSetResponse
       (a1_growing :: [a1_slow]) (b0_unit :: [b0_unit]) (5%Z :: [0%Z]) 100
       zero_buffer
     = XLALInspiralIIRSetResponse [a1_slow] [b0_unit] [0%Z] 100 zero_buffer.
Proof.
  assert (Ha : 1 < cabs a1_growing).
  { rewrite cabs_a1_growing. pose proof exp_1_lower. lra. }
  assert (Hq : - 2 ^ 31 < length_quotient a1_growing).
  { unfold length_quotient.
    rewrite int_of_ln_1e13, cabs_a1_growing, ln_exp. lra. }
  split; [exact Ha|]. split; [exact Hq|].
  exact (response_skips_growing_filter a1_growing b0_unit 5
           [a1_slow] [b0_unit] [0%Z] 100 zero_buffer Ha Hq).
Defined.

(** X9.  Superposition: for two banks, each with vectors of one length,
    every sample of the response of the two banks put end to end is the sum
    of the samples of their two responses. *)
Theorem response_of_joined_banks
  (a1 b0 : list COMPLEX16) (delay : list Z)
  (a1' b0' : list COMPLEX16) (delay' : list Z)
  (L : Z) (m : buffer) (i : Z) :
  length a1 = length b0 -> length a1 = length delay ->
  length a1' = length b0' -> length a1' = length delay' ->
  (0 <= i < L)%Z ->
  snd (XLALInspiralIIRSetResponse
         (a1 ++ a1') (b0 ++ b0') (delay ++ delay') L m) i
  = cadd (snd (XLALInspiralIIRSetResponse a1 b0 delay L m) i)
         (snd (XLALInspiralIIRSetResponse a1' b0' delay' L m) i).
Proof.
  intros Hb Hd Hb' Hd' Hi.
  rewrite !response_matched
    by (assumption || (rewrite !length_app; congruence)).
  cbn [snd]. rewrite response_filters_app by assumption.
  rewrite response_filters_additive.
  rewrite (response_filters_additive a1' b0' delay' L (memset0 L m)).
  rewrite (memset0_inside L m i Hi), cadd_0_l. reflexivity.
Qed.

Lemma response_of_joined_banks_witness :
  length [a1_slow] = length [b0_unit] /\ length [a1_slow] = length [0%Z]
  /\ length [a1_slow] = length [b0_unit] /\ length [a1_slow] = length [7%Z]
  /\ (0 <= 9 < 100)%Z
  /\ snd (XLALInspiralIIRSetResponse
            ([a1_slow] ++ [a1_slow]) ([b0_unit] ++ [b0_unit])
            ([0%Z] ++ [7%Z]) 100 zero_buffer) 9%Z
     = cadd (snd (XLALInspiralIIRSetResponse
                    [a1_slow] [b0_unit] [0%Z] 100 zero_buffer) 9%Z)
            (snd (XLALInspiralIIRSetResponse
                    [a1_slow] [b0_unit] [7%Z] 100 zero_buffer) 9%Z).
Proof.
  assert (Hi : (0 <= 9 < 100)%Z) by lia.
  split; [reflexivity|]. split; [reflexivity|].
  split; [reflexivity|]. split; [reflexivity|]. split; [exact Hi|].
  exact (response_of_joined_banks
           [a1_slow] [b0_unit] [0%Z] [a1_slow] [b0_unit] [7%Z]
           100 zero_buffer 9 eq_refl eq_refl eq_refl eq_refl Hi).
Defined.

(** * Further properties of the Fourier transform and the inner product *)

Lemma ln_sqrt_half (s : R) : 0 < s -> ln (sqrt s) = ln s / 2.
Proof.
  intros Hs. assert (Hq : 0 < sqrt s) by (apply sqrt_lt_R0; assumption).
  assert (H : ln s = ln (sqrt s) + ln (sqrt s)).
  { rewrite <- ln_mult by assumption. rewrite sqrt_sqrt by lra. reflexivity. }
  lra.
Qed.

Lemma clogabs_branch (x y : R) :
  0 < x -> 0 <= y ->
  ln x + 0.5 * ln (1 + y / x * (y / x)) = ln (sqrt (x * x + y * y)).
Proof.
  intros Hx Hy.
  assert (Hu : 0 < 1 + y / x * (y / x)) by nra.
  rewrite ln_sqrt_half by nra.
  replace (x * x + y * y) with (x * x * (1 + y / x * (y / x)))
    by (field; lra).
  rewrite !ln_mult by nra. lra.
Qed.

(** X10.  For every non-zero [z], [clogabs z] is the logarithm of the
    modulus of [z]. *)
Theorem clogabs_is_log_of_modulus (z : COMPLEX16) :
  z <> czero -> clogabs z = ln (cabs z).
Proof.
  intros Hz. unfold clogabs, cabs, cnorm2, fabs. cbv zeta.
  assert (Hre : creal z * creal z = Rabs (creal z) * Rabs (creal z)).
  { rewrite <- Rabs_mult. symmetry. apply Rabs_right. nra. }
  assert (Him : cimag z * cimag z = Rabs (cimag z) * Rabs (cimag z)).
  { rewrite <- Rabs_mult. symmetry. apply Rabs_right. nra. }
  rewrite Hre, Him.
  pose proof (Rabs_pos (creal z)) as Hx. pose proof (Rabs_pos (cimag z)) as Hy.
  assert (Hnz : 0 < Rabs (creal z) \/ 0 < Rabs (cimag z)).
  { destruct (Req_dec (creal z) 0) as [E1|E1].
    - right. apply Rabs_pos_lt. intros E2. apply Hz.
      apply cx_eq; assumption.
    - left. apply Rabs_pos_lt. assumption. }
  destruct (Rge_dec (Rabs (creal z)) (Rabs (cimag z))) as [Hge|Hlt].
  - apply clogabs_branch; lra.
  - rewrite (Rplus_comm (Rabs (creal z) * Rabs (creal z))).
    apply clogabs_branch; lra.
Qed.

Lemma clogabs_is_log_of_modulus_witness :
  a1_slow <> czero /\ clogabs a1_slow = ln (cabs a1_slow).
Proof.
  split; [exact a1_slow_nonzero|].
  exact (clogabs_is_log_of_modulus a1_slow a1_slow_nonzero).
Defined.

Lemma inner_product_terms_nonneg (g : nat -> R) (psd : list R) (P : R)
  (js : list nat) (acc : R) :
  0 < P -> (forall j, 0 <= g j) -> Forall (fun p => 0 < p) psd ->
  Forall (fun j => (j < length psd)%nat) js -> 0 <= acc ->
  0 <= fold_left (fun ip j => ip + g j / (nth j psd 0 * P) * 1) js acc.
Proof.
  intros HP Hg Hpsd Hjs. revert acc.
  induction Hjs as [|j js Hj Hjs IH]; intros acc Hacc; [exact Hacc|].
  cbn [fold_left]. apply IH.
  assert (Hp : 0 < nth j psd 0).
  { rewrite Forall_forall in Hpsd. apply Hpsd, nth_In. exact Hj. }
  assert (0 <= g j / (nth j psd 0 * P)).
  { apply Rmult_le_pos; [apply Hg|]. left. apply Rinv_0_lt_compat. nra. }
  lra.
Qed.

(** X11.  For a strictly positive PSD the inner product is never
    negative. *)
Theorem inner_product_nonneg
  (a1 b0 : list COMPLEX16) (delay : list Z) (psd : list R) :
  Forall (fun p => 0 < p) psd ->
  0 <= XLALInspiralCalculateIIRSetInnerProduct a1 b0 delay psd.
Proof.
  intros Hpsd. unfold XLALInspiralCalculateIIRSetInnerProduct, len.
  destruct psd as [|p psd]; [cbn; lra|].
  apply (inner_product_terms_nonneg
           (fun j => cabs (hA_at a1 b0 delay
                             (Z.of_nat (length (p :: psd))) j)
                     * cabs (hA_at a1 b0 delay
                               (Z.of_nat (length (p :: psd))) j))).
  - apply IZR_lt. cbn [length]. lia.
  - intros j. apply Rmult_le_pos; apply sqrt_pos.
  - exact Hpsd.
  - apply Forall_forall. intros j Hj. apply in_seq in Hj. lia.
  - lra.
Qed.

Lemma inner_product_nonneg_witness :
  Forall (fun p => 0 < p) psd2
  /\ 0 <= XLALInspiralCalculateIIRSetInnerProduct
            [a1_slow] [b0_unit] [0%Z] psd2.
Proof.
  assert (Hp : Forall (fun p => 0 < p) psd2)
    by (repeat constructor; lra).
  split; [exact Hp|].
  exact (inner_product_nonneg [a1_slow] [b0_unit] [0%Z] psd2 Hp).
Defined.

Lemma rscale_czero (c : R) : rscale c czero = czero.
Proof. apply cx_eq; simpl; ring. Qed.

Lemma cabs_rscale (c : R) (z : COMPLEX16) :
  cabs (rscale c z) = Rabs c * cabs z.
Proof.
  unfold cabs, cnorm2, rscale; simpl.
  replace (c * creal z * (c * creal z) + c * cimag z * (c * cimag z))
    with (Rsqr c * (creal z * creal z + cimag z * cimag z))
    by (unfold Rsqr; ring).
  rewrite sqrt_mult by (try apply Rle_0_sqr; nra).
  rewrite sqrt_Rsqr_abs. reflexivity.
Qed.

(** The transform of one filter is linear in a real factor of its gain. *)
Lemma fourier_transform_rscale (c : R) (j jmax : Z) (a b : COMPLEX16)
  (d : Z) :
  fst (XLALInspiralGenerateIIRSetFourierTransform j jmax a (rscale c b) d)
  = rscale c (fst (XLALInspiralGenerateIIRSetFourierTransform j jmax a b d)).
Proof.
  unfold XLALInspiralGenerateIIRSetFourierTransform. cbv zeta. cbn [fst].
  apply cx_eq; simpl; unfold Rdiv; ring.
Qed.

Lemma hA_fold_rscale (c : R) (a1 b0 : list COMPLEX16) (delay : list Z)
  (P : Z) (j : nat) (ks : list nat) (acc : COMPLEX16) :
  fold_left
    (fun hA k =>
       let '(hfcos, _) :=
         XLALInspiralGenerateIIRSetFourierTransform
           (Z.of_nat j) (2 * P) (nth k a1 czero)
           (nth k (map (rscale c) b0) czero) (nth k delay 0%Z) in
       cadd hA hfcos)
    ks (rscale c acc)
  = rscale c
      (fold_left
         (fun hA k =>
            let '(hfcos, _) :=
              XLALInspiralGenerateIIRSetFourierTransform
                (Z.of_nat j) (2 * P) (nth k a1 czero) (nth k b0 czero)
                (nth k delay 0%Z) in
            cadd hA hfcos)
         ks acc).
Proof.
  revert acc. induction ks as [|k ks IH]; intros acc; [reflexivity|].
  cbn [fold_left]. rewrite <- IH. f_equal.
  replace (nth k (map (rscale c) b0) czero)
    with (rscale c (nth k b0 czero))
    by (rewrite <- (map_nth (rscale c)), rscale_czero; reflexivity).
  pose proof (fourier_transform_rscale c (Z.of_nat j) (2 * P)
                (nth k a1 czero) (nth k b0 czero) (nth k delay 0%Z)) as H.
  destruct (XLALInspiralGenerateIIRSetFourierTransform _ _ _
              (rscale c _) _) as [h1 h1'].
  destruct (XLALInspiralGenerateIIRSetFourierTransform _ _ _
              (nth k b0 czero) _) as [h2 h2'].
  cbn [fst] in H. rewrite H. apply cx_eq; simpl; ring.
Qed.

Lemma hA_at_rscale (c : R) (a1 b0 : list COMPLEX16) (delay : list Z)
  (P : Z) (j : nat) :
  hA_at a1 (map (rscale c) b0) delay P j
  = rscale c (hA_at a1 b0 delay P j).
Proof.
  unfold hA_at. rewrite <- hA_fold_rscale, rscale_czero. reflexivity.
Qed.

Lemma sum_fold_scaled (k : R) (t t' : nat -> R) (js : list nat) (acc : R) :
  (forall j, t' j = k * t j) ->
  fold_left (fun ip j => ip + t' j) js (k * acc)
  = k * fold_left (fun ip j => ip + t j) js acc.
Proof.
  intros Ht. revert acc. induction js as [|j js IH]; intros acc;
    [reflexivity|].
  cbn [fold_left]. rewrite <- IH. f_equal. rewrite Ht. ring.
Qed.

(** X12.  Multiplying every gain coefficient by a real factor [c]
    multiplies the inner product by [c ^ 2]. *)
Theorem inner_product_scales_with_gain
  (a1 b0 : list COMPLEX16) (delay : list Z) (psd : list R) (c : R) :
  XLALInspiralCalculateIIRSetInnerProduct a1 (map (rscale c) b0) delay psd
  = c ^ 2 * XLALInspiralCalculateIIRSetInnerProduct a1 b0 delay psd.
Proof.
  unfold XLALInspiralCalculateIIRSetInnerProduct.
  replace 0 with (c ^ 2 * 0) at 1 by ring.
  apply sum_fold_scaled. intros j. cbv zeta.
  rewrite hA_at_rscale, cabs_rscale.
  replace (c ^ 2) with (Rabs c * Rabs c)
    by (rewrite <- Rabs_mult; simpl; rewrite Rmult_1_r;
        apply Rabs_right; nra).
  unfold Rdiv. ring.
Qed.

(** X13.  An empty filter bank has inner product 0 with every strictly
    positive PSD. *)
Theorem inner_product_of_empty_bank
  (b0 : list COMPLEX16) (delay : list Z) (psd : list R) :
  Forall (fun p => 0 < p) psd ->
  XLALInspiralCalculateIIRSetInnerProduct [] b0 delay psd = 0.
Proof.
  intros _.
  unfold XLALInspiralCalculateIIRSetInnerProduct.
  assert (H0 : cabs czero = 0).
  { unfold cabs, cnorm2; simpl.
    rewrite Rmult_0_l, Rplus_0_r. apply sqrt_0. }
  generalize (seq 0 (length psd)). intros js.
  assert (Hgen : forall acc,
    fold_left
      (fun ip j =>
         let hA := hA_at [] b0 delay (len psd) j in
         ip + cabs hA * cabs hA / (nth j psd 0 * IZR (len psd)) * 1)
      js acc = acc).
  { induction js as [|j js IH]; intros acc; [reflexivity|].
    cbn [fold_left]. rewrite IH. unfold hA_at. cbn [length seq fold_left].
    rewrite H0. unfold Rdiv. ring. }
  apply Hgen.
Qed.

Lemma inner_product_of_empty_bank_witness :
  Forall (fun p => 0 < p) psd2
  /\ XLALInspiralCalculateIIRSetInnerProduct [] [b0_unit] [0%Z] psd2 = 0.
Proof.
  assert (Hp : Forall (fun p => 0 < p) psd2)
    by (repeat constructor; lra).
  split; [exact Hp|].
  exact (inner_product_of_empty_bank [b0_unit] [0%Z] psd2 Hp).
Defined.

(** * Further properties of the demodulation loop *)

Section DemodMore.

Variables (SMALL : R) (maxSFTindex : Z) (params : DemodPar)
  (input : list SFT).

Local Abbreviation seg := (segment SMALL maxSFTindex params input).
Local Abbreviation bins := (bin_loop SMALL maxSFTindex params input).

Lemma segment_negative_bin (f : R) (alpha : Z) :
  xTemp_at params f alpha < 0 ->
  run_end (seg f alpha) = Exit_DEMOD /\ run_reads (seg f alpha) = [].
Proof.
  intros Hx. unfold segment. cbv zeta.
  change (negb (finite _)) with false. cbv iota.
  destruct (Rlt_dec (xTemp_at params f alpha) 0); [|lra].
  split; reflexivity.
Qed.

Lemma segment_negative_index (f : R) (alpha : Z) :
  0 <= xTemp_at params f alpha -> (sftIndex_at params f alpha < 0)%Z ->
  run_end (seg f alpha) = Abort_EINPUT /\ run_reads (seg f alpha) = [].
Proof.
  intros Hx Hi. unfold segment. cbv zeta.
  change (negb (finite _)) with false. cbv iota.
  destruct (Rlt_dec (xTemp_at params f alpha) 0); [lra|].
  destruct (Z.ltb_spec (sftIndex_at params f alpha) 0); [|lia].
  split; reflexivity.
Qed.

Lemma segment_window (f : R) (alpha : Z) :
  0 <= xTemp_at params f alpha -> (0 <= sftIndex_at params f alpha)%Z ->
  run_reads (seg f alpha) = window params (sftIndex_at params f alpha).
Proof.
  intros Hx Hi.
  destruct (Rlt_dec
              (xTemp_at params f alpha
               - IZR (int_of_real (xTemp_at params f alpha))) LD_SMALL).
  - apply segment_small; assumption.
  - apply segment_generic; [assumption | lra | assumption].
Qed.

(** The loop over the bins leaves the bins from its end on alone. *)
Lemma bin_loop_above (n : nat) (i : Z) (Fs Fs' : LALFstat) (j : Z) :
  bins n i Fs = Returned Fs' -> (i + Z.of_nat n <= j)%Z ->
  F Fs' j = F Fs j /\ Demod.Fa Fs' j = Demod.Fa Fs j
  /\ Demod.Fb Fs' j = Demod.Fb Fs j.
Proof.
  revert i Fs. induction n as [|n IH]; intros i Fs Hrun Hj.
  - cbn [bin_loop] in Hrun. injection Hrun as <-. auto.
  - cbn [bin_loop] in Hrun.
    destruct (sft_loop _ _ _ _ _ _ _ _ _) as [[Fa Fb]| |];
      [|discriminate|discriminate].
    apply IH in Hrun; [|lia]. destruct Hrun as (-> & -> & ->).
    apply store_bin_other. lia.
Qed.

(** Without [returnFaFb] the loop over the bins writes [F] only. *)
Lemma bin_loop_keeps_FaFb (n : nat) (i : Z) (Fs Fs' : LALFstat) :
  returnFaFb params = false ->
  bins n i Fs = Returned Fs' ->
  Demod.Fa Fs' = Demod.Fa Fs /\ Demod.Fb Fs' = Demod.Fb Fs.
Proof.
  intros Hflag. revert i Fs. induction n as [|n IH]; intros i Fs Hrun.
  - cbn [bin_loop] in Hrun. injection Hrun as <-. auto.
  - cbn [bin_loop] in Hrun.
    destruct (sft_loop _ _ _ _ _ _ _ _ _) as [[Fa Fb]| |];
      [|discriminate|discriminate].
    apply IH in Hrun. destruct Hrun as [-> ->].
    unfold store_bin. cbv zeta. rewrite Hflag. split; reflexivity.
Qed.

(** The quadratic form of the statistic is positive semi-definite when the
    matrix of the antenna-pattern terms is positive definite. *)
Lemma quadratic_form_nonneg (A B C D ar ai br bi : R) :
  0 < A -> 0 < D -> D = A * B - C * C ->
  0 <= B * (ar * ar + ai * ai) + A * (br * br + bi * bi)
       - 2 * C * (ar * br + ai * bi).
Proof.
  intros HA HD HDdef.
  apply Rmult_le_reg_l with A; [assumption|].
  rewrite Rmult_0_r.
  replace (A * (B * (ar * ar + ai * ai) + A * (br * br + bi * bi)
                - 2 * C * (ar * br + ai * bi)))
    with ((A * br - C * ar) * (A * br - C * ar)
          + (A * bi - C * ai) * (A * bi - C * ai)
          + (A * B - C * C) * (ar * ar + ai * ai)) by ring.
  rewrite <- HDdef.
  pose proof (Rle_0_sqr (A * br - C * ar)) as H1.
  pose proof (Rle_0_sqr (A * bi - C * ai)) as H2.
  pose proof (Rle_0_sqr ar) as H3. pose proof (Rle_0_sqr ai) as H4.
  unfold Rsqr in H1, H2, H3, H4.
  assert (0 <= D * (ar * ar + ai * ai))
    by (apply Rmult_le_pos; lra).
  lra.
Qed.

Lemma Fstat_nonneg (Fa Fb : COMPLEX16) :
  (0 < SFTno params)%Z -> 0 < am_A (amcoe params) ->
  0 < am_D (amcoe params) ->
  am_D (amcoe params)
  = am_A (amcoe params) * am_B (amcoe params)
    - am_C (amcoe params) * am_C (amcoe params) ->
  0 <= Fstat params Fa Fb.
Proof.
  intros HM HA HD HDdef. unfold Fstat. rewrite !cabs_sq.
  assert (HMr : 0 < IZR (SFTno params)) by (apply IZR_lt; assumption).
  apply Rmult_le_pos.
  { left. apply Rdiv_lt_0_compat; [lra|].
    apply Rmult_lt_0_compat; assumption. }
  destruct Fa as [ar ai], Fb as [br bi]. simpl.
  replace (ar * br - ai * - bi) with (ar * br + ai * bi) by ring.
  apply (quadratic_form_nonneg _ _ _ (am_D (amcoe params))); assumption.
Qed.

End DemodMore.

(** *** Sample runs *)

Lemma xTemp_at_par_any (am : AMCoeffs) (x : R) :
  xTemp_at (mkpar 0 [0; 1] [] am x 1 1 8 0 1 true) x 0 = x.
Proof.
  unfold xTemp_at, xSum, spin_sum, tempInt1, dat; simpl. ring.
Qed.

Lemma sftIndex_at_par_int (n : Z) :
  (0 <= n)%Z -> sftIndex_at (par_at (IZR n)) (IZR n) 0 = (n - 7)%Z.
Proof.
  intros Hn. unfold sftIndex_at, par_at.
  rewrite xTemp_at_par_any, int_of_real_IZR. cbn [Dterms ifmin]. lia.
Qed.

Lemma sftIndex_at_par2 (n : Z) :
  (0 <= n)%Z ->
  sftIndex_at (par2_at (IZR n + 1 / 2)) (IZR n + 1 / 2) 0 = (n - 7)%Z.
Proof.
  intros Hn. unfold sftIndex_at, par2_at.
  rewrite xTemp_at_par_any, int_of_real_plus_half by assumption.
  cbn [Dterms ifmin]. lia.
Qed.

Lemma TestLALDemod2_107 :
  TestLALDemod small9 110 (par2_at (215 / 2)) sft1 Fs0 = Returned Fs2_107.
Proof.
  assert (H : exists Fs',
             TestLALDemod small9 110 (par2_at (215 / 2)) sft1 Fs0
             = Returned Fs').
  { unfold TestLALDemod. change (imax (par2_at (215 / 2))) with 1%Z.
    change (Z.to_nat 1) with 1%nat. cbn [bin_loop].
    change (SFTno (par2_at (215 / 2))) with 1%Z.
    change (Z.to_nat 1) with 1%nat. cbn [sft_loop].
    replace (freq (par2_at (215 / 2)) 0) with (IZR 107 + 1 / 2)
      by (unfold freq, par2_at; simpl; lra).
    replace (215 / 2) with (IZR 107 + 1 / 2) by lra.
    pose proof (segment_generic small9 110 (par2_at (IZR 107 + 1 / 2)) sft1
                  (IZR 107 + 1 / 2) 0) as H.
    rewrite sftIndex_at_par2 in H by lia. unfold par2_at in H.
    rewrite xTemp_at_par_any, int_of_real_plus_half in H by lia.
    pose proof LD_SMALL_bounds.
    destruct H as [_ [[re im] Hq]]; [lra | lra | lia |].
    unfold par2_at. rewrite Hq. eexists; reflexivity. }
  unfold Fs2_107. destruct H as [Fs' ->]. reflexivity.
Qed.

(** X14.  The two fatal checks come before any sample is read: a segment
    whose bin [xTemp] is negative ends the program, and a segment whose
    first index [sftIndex] is negative aborts, in both cases without a read
    of the SFT. *)
Theorem segment_fatal_checks_precede_reads
  (SMALL : R) (maxSFTindex : Z) (params : DemodPar) (input : list SFT)
  (f : R) (alpha : Z) :
  (xTemp_at params f alpha < 0 ->
   run_end (segment SMALL maxSFTindex params input f alpha) = Exit_DEMOD
   /\ run_reads (segment SMALL maxSFTindex params input f alpha) = [])
  /\ (0 <= xTemp_at params f alpha ->
      (sftIndex_at params f alpha < 0)%Z ->
      run_end (segment SMALL maxSFTindex params input f alpha)
      = Abort_EINPUT
      /\ run_reads (segment SMALL maxSFTindex params input f alpha) = []).
Proof.
  split.
  - apply segment_negative_bin.
  - apply segment_negative_index.
Qed.

Lemma segment_fatal_checks_precede_reads_witness :
  xTemp_at (par_at (-1)) (-1) 0 < 0
  /\ run_end (segment small9 110 (par_at (-1)) sft1 (-1) 0) = Exit_DEMOD
  /\ 0 <= xTemp_at (par_at (IZR 0 + 1 / 2)) (IZR 0 + 1 / 2) 0
  /\ (sftIndex_at (par_at (IZR 0 + 1 / 2)) (IZR 0 + 1 / 2) 0 < 0)%Z
  /\ run_end (segment small9 110 (par_at (IZR 0 + 1 / 2)) sft1
                (IZR 0 + 1 / 2) 0) = Abort_EINPUT.
Proof.
  assert (H1 : xTemp_at (par_at (-1)) (-1) 0 < 0)
    by (rewrite xTemp_at_par; lra).
  assert (H2 : 0 <= xTemp_at (par_at (IZR 0 + 1 / 2)) (IZR 0 + 1 / 2) 0)
    by (rewrite xTemp_at_par; lra).
  assert (H3 : (sftIndex_at (par_at (IZR 0 + 1 / 2)) (IZR 0 + 1 / 2) 0
                < 0)%Z)
    by (rewrite sftIndex_at_par; lia).
  split; [exact H1|].
  split; [exact (proj1 (proj1 (segment_fatal_checks_precede_reads
                                 small9 110 (par_at (-1)) sft1 (-1) 0) H1))|].
  split; [exact H2|]. split; [exact H3|].
  exact (proj1 (proj2 (segment_fatal_checks_precede_reads
                         small9 110 (par_at (IZR 0 + 1 / 2)) sft1
                         (IZR 0 + 1 / 2) 0) H2 H3)).
Defined.



(** X16.  In the branch for a bin with a fractional part below [LD_SMALL],
    with [Dterms >= 1] and indices that fit an [INT4], the segment returns
    when the last index of its window is at most [maxSFTindex] and aborts
    when it is larger. *)
Theorem segment_small_branch_checks_last_index
  (SMALL : R) (maxSFTindex : Z) (params : DemodPar) (input : list SFT)
  (f : R) (alpha : Z) :
  0 <= xTemp_at params f alpha ->
  xTemp_at params f alpha - IZR (int_of_real (xTemp_at params f alpha))
  < LD_SMALL ->
  (0 <= sftIndex_at params f alpha)%Z ->
  (1 <= Dterms params)%Z ->
  (sftIndex_at params f alpha + 2 * Dterms params <= 2 ^ 31)%Z ->
  ((sftIndex_at params f alpha + 2 * Dterms params - 1 <= maxSFTindex)%Z ->
   exists q,
     run_end (segment SMALL maxSFTindex params input f alpha) = Returned q)
  /\ ((maxSFTindex < sftIndex_at params f alpha + 2 * Dterms params - 1)%Z ->
      run_end (segment SMALL maxSFTindex params input f alpha)
      = Abort_EINPUT).
Proof.
  intros Hx Hfrac Hi HD Hint.
  destruct (segment_small SMALL maxSFTindex params input f alpha Hx Hfrac Hi)
    as [_ Hend].
  unfold to_UINT4 in Hend.
  rewrite (Z.mod_small (2 * Dterms params)) in Hend by lia.
  replace (sftIndex_at params f alpha
           + Z.of_nat (Z.to_nat (2 * Dterms params)) - 1)%Z
    with (sftIndex_at params f alpha + 2 * Dterms params - 1)%Z in Hend
    by lia.
  rewrite Z.mod_small in Hend by lia.
  destruct (Z.ltb_spec maxSFTindex
              (sftIndex_at params f alpha + 2 * Dterms params - 1));
    split; intros; (lia || assumption).
Qed.

Lemma segment_small_branch_checks_last_index_witness :
  0 <= xTemp_at (par_at (IZR 107)) (IZR 107) 0
  /\ xTemp_at (par_at (IZR 107)) (IZR 107) 0
     - IZR (int_of_real (xTemp_at (par_at (IZR 107)) (IZR 107) 0))
     < LD_SMALL
  /\ (0 <= sftIndex_at (par_at (IZR 107)) (IZR 107) 0)%Z
  /\ (1 <= Dterms (par_at (IZR 107)))%Z
  /\ (sftIndex_at (par_at (IZR 107)) (IZR 107) 0
      + 2 * Dterms (par_at (IZR 107)) <= 2 ^ 31)%Z
  /\ (sftIndex_at (par_at (IZR 107)) (IZR 107) 0
      + 2 * Dterms (par_at (IZR 107)) - 1 <= 120)%Z
  /\ (exists q,
        run_end (segment small9 120 (par_at (IZR 107)) sft1 (IZR 107) 0)
        = Returned q)
  /\ (110 < sftIndex_at (par_at (IZR 107)) (IZR 107) 0
            + 2 * Dterms (par_at (IZR 107)) - 1)%Z
  /\ run_end (segment small9 110 (par_at (IZR 107)) sft1 (IZR 107) 0)
     = Abort_EINPUT.
Proof.
  assert (H1 : 0 <= xTemp_at (par_at (IZR 107)) (IZR 107) 0)
    by (rewrite xTemp_at_par; lra).
  assert (H2 : xTemp_at (par_at (IZR 107)) (IZR 107) 0
               - IZR (int_of_real (xTemp_at (par_at (IZR 107)) (IZR 107) 0))
               < LD_SMALL).
  { rewrite xTemp_at_par, int_of_real_IZR. pose proof LD_SMALL_bounds. lra. }
  assert (H3 : (0 <= sftIndex_at (par_at (IZR 107)) (IZR 107) 0)%Z)
    by (rewrite sftIndex_at_par_int; lia).
  assert (H4 : (1 <= Dterms (par_at (IZR 107)))%Z) by (cbn; lia).
  assert (H5 : (sftIndex_at (par_at (IZR 107)) (IZR 107) 0
                + 2 * Dterms (par_at (IZR 107)) <= 2 ^ 31)%Z)
    by (rewrite sftIndex_at_par_int by lia; cbn [Dterms par_at]; lia).
  assert (H6 : (sftIndex_at (par_at (IZR 107)) (IZR 107) 0
                + 2 * Dterms (par_at (IZR 107)) - 1 <= 120)%Z)
    by (rewrite sftIndex_at_par_int by lia; cbn [Dterms par_at]; lia).
  assert (H7 : (110 < sftIndex_at (par_at (IZR 107)) (IZR 107) 0
                      + 2 * Dterms (par_at (IZR 107)) - 1)%Z)
    by (rewrite sftIndex_at_par_int by lia; cbn [Dterms par_at]; lia).
  split; [exact H1|]. split; [exact H2|]. split; [exact H3|].
  split; [exact H4|]. split; [exact H5|]. split; [exact H6|].
  split; [exact (proj1 (segment_small_branch_checks_last_index
                          small9 120 (par_at (IZR 107)) sft1 (IZR 107) 0
                          H1 H2 H3 H4 H5) H6)|].
  split; [exact H7|].
  exact (proj2 (segment_small_branch_checks_last_index
                  small9 110 (par_at (IZR 107)) sft1 (IZR 107) 0
                  H1 H2 H3 H4 H5) H7).
Defined.

(** X17.  A call that returns has written the bins [0 .. imax-1] only, and
    without [returnFaFb] it has left the arrays [Fa] and [Fb] as they
    were. *)
Theorem demod_touches_only_its_bins
  (SMALL : R) (maxSFTindex : Z) (params : DemodPar) (input : list SFT)
  (Fs Fs' : LALFstat) :
  TestLALDemod SMALL maxSFTindex params input Fs = Returned Fs' ->
  (forall i : Z, (i < 0 \/ imax params <= i)%Z ->
     F Fs' i = F Fs i /\ Demod.Fa Fs' i = Demod.Fa Fs i
     /\ Demod.Fb Fs' i = Demod.Fb Fs i)
  /\ (returnFaFb params = false ->
      Demod.Fa Fs' = Demod.Fa Fs /\ Demod.Fb Fs' = Demod.Fb Fs).
Proof.
  unfold TestLALDemod. intros Hrun. split.
  - intros i Hi. destruct (Z.lt_ge_cases i 0) as [Hneg|Hpos].
    + eapply bin_loop_below; [exact Hrun | lia].
    + eapply bin_loop_above; [exact Hrun | lia].
  - intros Hflag. eapply bin_loop_keeps_FaFb; eassumption.
Qed.

Lemma demod_touches_only_its_bins_witness :
  TestLALDemod small9 110 (par_at (215 / 2)) sft1 Fs0 = Returned Fs_107
  /\ (forall i : Z, (i < 0 \/ imax (par_at (215 / 2)) <= i)%Z ->
        F Fs_107 i = F Fs0 i /\ Demod.Fa Fs_107 i = Demod.Fa Fs0 i
        /\ Demod.Fb Fs_107 i = Demod.Fb Fs0 i)
  /\ (returnFaFb (par_at (215 / 2)) = false ->
      Demod.Fa Fs_107 = Demod.Fa Fs0 /\ Demod.Fb Fs_107 = Demod.Fb Fs0).
Proof.
  split; [exact TestLALDemod_107|].
  exact (demod_touches_only_its_bins small9 110 (par_at (215 / 2)) sft1
           Fs0 Fs_107 TestLALDemod_107).
Defined.

(** X18.  When the antenna-pattern terms form a positive definite matrix
    ([A > 0] and [D = A B - C ^ 2 > 0]) and there is at least one SFT, every
    statistic that a returning call stores is non-negative. *)
Theorem demod_statistic_nonneg
  (SMALL : R) (maxSFTindex : Z) (params : DemodPar) (input : list SFT)
  (Fs Fs' : LALFstat) (i : Z) :
  TestLALDemod SMALL maxSFTindex params input Fs = Returned Fs' ->
  (0 < SFTno params)%Z -> 0 < am_A (amcoe params) ->
  0 < am_D (amcoe params) ->
  am_D (amcoe params)
  = am_A (amcoe params) * am_B (amcoe params)
    - am_C (amcoe params) * am_C (amcoe params) ->
  (0 <= i < imax params)%Z ->
  0 <= F Fs' i.
Proof.
  unfold TestLALDemod. intros Hrun HM HA HD HDdef Hi.
  destruct (bin_loop_stores SMALL maxSFTindex params input _ 0%Z Fs Fs' i
              ltac:(lia) Hrun ltac:(lia)) as [-> _].
  apply Fstat_nonneg; assumption.
Qed.

Lemma demod_statistic_nonneg_witness :
  TestLALDemod small9 110 (par2_at (215 / 2)) sft1 Fs0 = Returned Fs2_107
  /\ (0 < SFTno (par2_at (215 / 2)))%Z
  /\ 0 < am_A (amcoe (par2_at (215 / 2)))
  /\ 0 < am_D (amcoe (par2_at (215 / 2)))
  /\ am_D (amcoe (par2_at (215 / 2)))
     = am_A (amcoe (par2_at (215 / 2))) * am_B (amcoe (par2_at (215 / 2)))
       - am_C (amcoe (par2_at (215 / 2))) * am_C (amcoe (par2_at (215 / 2)))
  /\ (0 <= 0 < imax (par2_at (215 / 2)))%Z
  /\ 0 <= F Fs2_107 0.
Proof.
  assert (H1 : (0 < SFTno (par2_at (215 / 2)))%Z) by (cbn; lia).
  assert (H2 : 0 < am_A (amcoe (par2_at (215 / 2)))) by (cbn; lra).
  assert (H3 : 0 < am_D (amcoe (par2_at (215 / 2)))) by (cbn; lra).
  assert (H4 : am_D (amcoe (par2_at (215 / 2)))
               = am_A (amcoe (par2_at (215 / 2)))
                 * am_B (amcoe (par2_at (215 / 2)))
                 - am_C (amcoe (par2_at (215 / 2)))
                   * am_C (amcoe (par2_at (215 / 2)))) by (cbn; lra).
  assert (H5 : (0 <= 0 < imax (par2_at (215 / 2)))%Z) by (cbn; lia).
  split; [exact TestLALDemod2_107|]. split; [exact H1|].
  split; [exact H2|]. split; [exact H3|]. split; [exact H4|].
  split; [exact H5|].
  exact (demod_statistic_nonneg small9 110 (par2_at (215 / 2)) sft1
           Fs0 Fs2_107 0 TestLALDemod2_107 H1 H2 H3 H4 H5).
Defined.

(** * Further properties of the lookup table *)

Lemma PI_upper : PI <= 31421 / 10000.
Proof.
  destruct (PI_2_3_7_ineq 1) as [_ H].
  unfold PI_2_3_7_tg, tg_alt, Ratan_seq in H. simpl in H. lra.
Qed.

Lemma cosVal_is_cos (k : Z) :
  cosVal k = cos (LAL_TWOPI * IZR k / IZR LUT_RES).
Proof.
  unfold cosVal, sinVal, LUT_RES, LAL_TWOPI.
  change (64 / 4)%Z with 16%Z. rewrite plus_IZR, cos_sin. f_equal. field.
Qed.

(** The nearest knot of a phase in [[0, 1)] and the distance to it. *)
Lemma lut_idx_bounds (x : R) :
  0 <= x < 1 ->
  (0 <= lut_idx x <= LUT_RES)%Z
  /\ - (1 / 128) <= x - divLUTtab (lut_idx x) < 1 / 128.
Proof.
  intros Hx. unfold lut_idx, divLUTtab, LUT_RES.
  rewrite int_of_real_nonneg by lra.
  pose proof (Int_part_bounds (x * 64 + 0.5)) as [Hl Hu].
  split; [split|].
  - apply Int_part_ge. lra.
  - apply Int_part_le. lra.
  - lra.
Qed.

(** The two evaluations as Taylor polynomials about the knot. *)
Lemma lut_sin_taylor (x : R) :
  let theta := LAL_TWOPI * IZR (lut_idx x) / IZR LUT_RES in
  let h := LAL_TWOPI * (x - divLUTtab (lut_idx x)) in
  lut_sin x = sin theta + h * cos theta - h * h / 2 * sin theta.
Proof.
  cbv zeta. unfold lut_sin. cbv zeta.
  unfold cosVal2PI, sinVal2PIPI, sinVal2PI.
  fold (cosVal (lut_idx x)). rewrite cosVal_is_cos.
  unfold sinVal, LAL_PI, LAL_TWOPI. field.
Qed.

Lemma lut_cos_taylor (x : R) :
  let theta := LAL_TWOPI * IZR (lut_idx x) / IZR LUT_RES in
  let h := LAL_TWOPI * (x - divLUTtab (lut_idx x)) in
  lut_cos x = cos theta - h * sin theta - h * h / 2 * cos theta.
Proof.
  cbv zeta. unfold lut_cos. cbv zeta.
  unfold cosVal2PIPI, sinVal2PIPI, sinVal2PI.
  fold (sinVal2PI (lut_idx x + LUT_RES / 4)).
  unfold sinVal2PI. fold (cosVal (lut_idx x)). rewrite cosVal_is_cos.
  unfold sinVal, LAL_PI, LAL_TWOPI. field.
Qed.

Lemma phase_split (x : R) :
  LAL_TWOPI * x
  = LAL_TWOPI * IZR (lut_idx x) / IZR LUT_RES
    + LAL_TWOPI * (x - divLUTtab (lut_idx x)).
Proof. unfold divLUTtab, LUT_RES. field. Qed.

(** X19.  At the 64 knots [k / 64] of the table, both evaluations give the
    exact sine and cosine. *)
Theorem lut_exact_at_knots (k : Z) :
  (0 <= k < LUT_RES)%Z ->
  lut_sin (IZR k / IZR LUT_RES) = sin (LAL_TWOPI * (IZR k / IZR LUT_RES))
  /\ lut_cos (IZR k / IZR LUT_RES)
     = cos (LAL_TWOPI * (IZR k / IZR LUT_RES)).
Proof.
  intros Hk.
  assert (Hidx : lut_idx (IZR k / IZR LUT_RES) = k).
  { unfold lut_idx, LUT_RES.
    replace (IZR k / 64 * 64 + 0.5) with (IZR k + 1 / 2) by lra.
    apply int_of_real_plus_half. lia. }
  pose proof (lut_sin_taylor (IZR k / IZR LUT_RES)) as Hs.
  pose proof (lut_cos_taylor (IZR k / IZR LUT_RES)) as Hc.
  cbv zeta in Hs, Hc. rewrite Hidx in Hs, Hc. unfold divLUTtab in Hs, Hc.
  replace (LAL_TWOPI * (IZR k / IZR LUT_RES))
    with (LAL_TWOPI * IZR k / IZR LUT_RES) by (unfold Rdiv; ring).
  rewrite Hs, Hc. split; unfold Rdiv; ring.
Qed.

Lemma lut_exact_at_knots_witness :
  (0 <= 16 < LUT_RES)%Z
  /\ lut_sin (IZR 16 / IZR LUT_RES)
     = sin (LAL_TWOPI * (IZR 16 / IZR LUT_RES))
  /\ lut_cos (IZR 16 / IZR LUT_RES)
     = cos (LAL_TWOPI * (IZR 16 / IZR LUT_RES)).
Proof.
  assert (Hk : (0 <= 16 < LUT_RES)%Z) by (unfold LUT_RES; lia).
  split; [exact Hk|]. exact (lut_exact_at_knots 16 Hk).
Defined.

(** X20.  For a phase in [[0, 1)] the index into the tables lies in
    [[0, LUT_RES]], so that the reads of [divLUTtab] and, at the offset
    [LUT_RES / 4], of the tables of [LUT_RES + LUT_RES / 4 + 1] entries are
    in bounds, and the phase is within [1 / 128] of the knot. *)
Theorem lut_index_in_table (x : R) :
  0 <= x < 1 ->
  (0 <= lut_idx x < LUT_RES + 1)%Z
  /\ (0 <= lut_idx x + LUT_RES / 4 < LUT_RES + LUT_RES / 4 + 1)%Z
  /\ Rabs (x - divLUTtab (lut_idx x)) <= 1 / 128.
Proof.
  intros Hx. destruct (lut_idx_bounds x Hx) as [Hi Hd].
  unfold LUT_RES in *. change (64 / 4)%Z with 16%Z.
  split; [lia|]. split; [lia|].
  apply Rabs_le. lra.
Qed.

Lemma lut_index_in_table_witness :
  0 <= 1 / 200 < 1
  /\ (0 <= lut_idx (1 / 200) < LUT_RES + 1)%Z
  /\ (0 <= lut_idx (1 / 200) + LUT_RES / 4 < LUT_RES + LUT_RES / 4 + 1)%Z
  /\ Rabs (1 / 200 - divLUTtab (lut_idx (1 / 200))) <= 1 / 128.
Proof.
  assert (Hx : 0 <= 1 / 200 < 1) by lra.
  split; [exact Hx|]. exact (lut_index_in_table (1 / 200) Hx).
Defined.

(** The remainders of the two Taylor polynomials for a small angle. *)
Lemma cos_remainder (h : R) :
  -1 <= h <= 1 -> - (h ^ 4 / 24) <= 1 - h * h / 2 - cos h <= 0.
Proof.
  intros Hh.
  destruct (pre_cos_bound h 0 ltac:(lra) ltac:(lra)) as [Hl Hu].
  unfold cos_approx, cos_term in Hl, Hu. simpl in Hl, Hu. simpl. lra.
Qed.

Lemma sin_remainder_pos (h : R) :
  0 <= h <= 1 -> 0 <= h - sin h <= h ^ 3 / 6.
Proof.
  intros Hh.
  destruct (pre_sin_bound h 0 ltac:(lra) ltac:(lra)) as [Hl Hu].
  unfold sin_approx, sin_term in Hl, Hu. simpl in Hl, Hu. simpl.
  assert (H5 : h * (h * (h * (h * (h * 1)))) <= h * (h * (h * 1))).
  { assert (0 <= h * (h * (h * 1))) by
      (repeat apply Rmult_le_pos; lra).
    assert (h * h <= 1) by nra. nra. }
  lra.
Qed.

Lemma sin_remainder (h : R) :
  -1 <= h <= 1 -> Rabs (h - sin h) <= Rabs h ^ 3 / 6.
Proof.
  intros Hh. destruct (Rle_dec 0 h) as [Hpos|Hneg].
  - rewrite (Rabs_right h) by lra.
    pose proof (sin_remainder_pos h ltac:(lra)).
    rewrite Rabs_right by lra. lra.
  - rewrite (Rabs_left h) by lra.
    pose proof (sin_remainder_pos (- h) ltac:(lra)) as H.
    rewrite sin_neg in H.
    rewrite Rabs_left1 by lra. lra.
Qed.

(** The error of a Taylor polynomial about the knot, for both functions:
    [|s u + c v|] with [s^2 + c^2 = 1]. *)
Lemma lut_error_core (s c h u v : R) :
  -1 <= s <= 1 -> -1 <= c <= 1 ->
  0 <= h <= 491 / 10000 ->
  - (h ^ 4 / 24) <= u <= 0 -> Rabs v <= h ^ 3 / 6 ->
  Rabs (s * u + c * v) < 2 / 10 ^ 5.
Proof.
  intros Hs Hc Hh Hu Hv.
  assert (H3 : h ^ 3 <= (491 / 10000) ^ 3) by (apply pow_incr; lra).
  assert (H4 : h ^ 4 <= (491 / 10000) ^ 4) by (apply pow_incr; lra).
  assert (Hsu : Rabs (s * u) <= h ^ 4 / 24).
  { rewrite Rabs_mult.
    assert (Rabs s <= 1) by (apply Rabs_le; lra).
    assert (Rabs u <= h ^ 4 / 24) by (apply Rabs_le; lra).
    pose proof (Rabs_pos s). pose proof (Rabs_pos u). nra. }
  assert (Hcv : Rabs (c * v) <= h ^ 3 / 6).
  { rewrite Rabs_mult.
    assert (Rabs c <= 1) by (apply Rabs_le; lra).
    pose proof (Rabs_pos c). pose proof (Rabs_pos v). nra. }
  eapply Rle_lt_trans; [apply Rabs_triang|]. lra.
Qed.

(** X21.  For every phase [x] in [[0, 1)] the table gives the sine and the
    cosine of [2 pi x] with an error below [2e-5]. *)
Theorem lut_error_below_2e5 (x : R) :
  0 <= x < 1 ->
  Rabs (lut_sin x - sin (LAL_TWOPI * x)) < 2 / 10 ^ 5
  /\ Rabs (lut_cos x - cos (LAL_TWOPI * x)) < 2 / 10 ^ 5.
Proof.
  intros Hx. destruct (lut_idx_bounds x Hx) as [_ Hd].
  pose proof (lut_sin_taylor x) as Hs. pose proof (lut_cos_taylor x) as Hc.
  cbv zeta in Hs, Hc. rewrite (phase_split x), sin_plus, cos_plus, Hs, Hc.
  set (theta := LAL_TWOPI * IZR (lut_idx x) / IZR LUT_RES).
  set (h := LAL_TWOPI * (x - divLUTtab (lut_idx x))).
  assert (Hh0 : - (491 / 10000) <= h <= 491 / 10000).
  { unfold h, LAL_TWOPI. pose proof PI_upper. pose proof PI_gt_3. nra. }
  assert (Hh : Rabs h <= 491 / 10000) by (apply Rabs_le; exact Hh0).
  assert (Hh1 : -1 <= h <= 1) by lra.
  pose proof (cos_remainder h Hh1) as Hu.
  pose proof (sin_remainder h Hh1) as Hv.
  assert (Hu' : - (Rabs h ^ 4 / 24) <= 1 - h * h / 2 - cos h <= 0).
  { replace (Rabs h ^ 4) with (h ^ 4); [exact Hu|].
    rewrite RPow_abs. symmetry. apply Rabs_right.
    replace (h ^ 4) with ((h * h) * (h * h)) by ring.
    pose proof (Rle_0_sqr (h * h)) as Hsq. unfold Rsqr in Hsq. lra. }
  pose proof (SIN_bound theta) as Hsb. pose proof (COS_bound theta) as Hcb.
  pose proof (Rabs_pos h) as Hpos.
  split.
  - replace (sin theta + h * cos theta - h * h / 2 * sin theta
             - (sin theta * cos h + cos theta * sin h))
      with (sin theta * (1 - h * h / 2 - cos h) + cos theta * (h - sin h))
      by ring.
    apply (lut_error_core _ _ (Rabs h)); (assumption || lra).
  - replace (cos theta - h * sin theta - h * h / 2 * cos theta
             - (cos theta * cos h - sin theta * sin h))
      with (cos theta * (1 - h * h / 2 - cos h)
            + (- sin theta) * (h - sin h))
      by ring.
    apply (lut_error_core _ _ (Rabs h)); (assumption || lra).
Qed.

Lemma lut_error_below_2e5_witness :
  0 <= 1 / 200 < 1
  /\ Rabs (lut_sin (1 / 200) - sin (LAL_TWOPI * (1 / 200))) < 2 / 10 ^ 5
  /\ Rabs (lut_cos (1 / 200) - cos (LAL_TWOPI * (1 / 200))) < 2 / 10 ^ 5.
Proof.
  assert (Hx : 0 <= 1 / 200 < 1) by lra.
  split; [exact Hx|]. exact (lut_error_below_2e5 (1 / 200) Hx).
Defined.

(** * The hexagon of LALHexagonVertices *)

Lemma sqrt3_sq : sqrt 3 * sqrt 3 = 3.
Proof. apply sqrt_sqrt. lra. Qed.

Lemma sqrt3_pos : 0 < sqrt 3.
Proof. apply sqrt_lt_R0. lra. Qed.

(** A point given in the turned frame of the rectangle lies on the ellipse
    when its frame coordinates satisfy the equation of the ellipse. *)
Lemma on_ellipse_local (i : Hexagon.RectangleIn) (xl yl : R) :
  3 * (xl * xl) / (Hexagon.dx i * Hexagon.dx i)
  + 3 * (yl * yl) / (Hexagon.dy i * Hexagon.dy i) = 1 ->
  Hexagon.on_ellipse i
    (Hexagon.x0 i + xl * cos (Hexagon.theta i)
     - yl * sin (Hexagon.theta i),
     Hexagon.y0 i + yl * cos (Hexagon.theta i)
     + xl * sin (Hexagon.theta i)).
Proof.
  intros H. unfold Hexagon.on_ellipse. cbv zeta. cbn [fst snd].
  pose proof (sin2_cos2 (Hexagon.theta i)) as Hsc. unfold Rsqr in Hsc.
  set (c := cos (Hexagon.theta i)) in *.
  set (s := sin (Hexagon.theta i)) in *.
  replace ((Hexagon.x0 i + xl * c - yl * s - Hexagon.x0 i) * c
           + (Hexagon.y0 i + yl * c + xl * s - Hexagon.y0 i) * s)
    with (xl * (s * s + c * c)) by ring.
  replace ((Hexagon.y0 i + yl * c + xl * s - Hexagon.y0 i) * c
           - (Hexagon.x0 i + xl * c - yl * s - Hexagon.x0 i) * s)
    with (yl * (s * s + c * c)) by ring.
  rewrite Hsc, !Rmult_1_r. exact H.
Qed.

Lemma ellipse_side (dx dy : R) (sx sy : R) :
  dx <> 0 -> dy <> 0 -> sx * sx = 1 -> sy * sy = 1 ->
  3 * (sx * dx / 2 * (sx * dx / 2)) / (dx * dx)
  + 3 * (sy * dy / sqrt 3 / 2 * (sy * dy / sqrt 3 / 2)) / (dy * dy) = 1.
Proof.
  intros Hdx Hdy Hsx Hsy. pose proof sqrt3_sq as Hq.
  pose proof sqrt3_pos as Hp.
  replace (3 * (sx * dx / 2 * (sx * dx / 2)) / (dx * dx))
    with (3 / 4 * (sx * sx)) by (field; assumption).
  replace (3 * (sy * dy / sqrt 3 / 2 * (sy * dy / sqrt 3 / 2)) / (dy * dy))
    with (3 / 4 * (sy * sy) / (sqrt 3 * sqrt 3)) by (field; split; lra).
  rewrite Hsx, Hsy, Hq. lra.
Qed.

Lemma ellipse_tip (dx dy : R) (sy : R) :
  dx <> 0 -> dy <> 0 -> sy * sy = 1 ->
  3 * (0 * 0) / (dx * dx)
  + 3 * (sy * dy / sqrt 3 * (sy * dy / sqrt 3)) / (dy * dy) = 1.
Proof.
  intros Hdx Hdy Hsy. pose proof sqrt3_sq as Hq.
  pose proof sqrt3_pos as Hp.
  replace (3 * (0 * 0) / (dx * dx)) with 0 by (field; assumption).
  replace (3 * (sy * dy / sqrt 3 * (sy * dy / sqrt 3)) / (dy * dy))
    with (3 * (sy * sy) / (sqrt 3 * sqrt 3)) by (field; split; lra).
  rewrite Hsy, Hq. lra.
Qed.

(** X22.  For non-zero sides [dx] and [dy], the six vertices returned lie
    on one ellipse: the ellipse about the centre [(x0, y0)] with half axes
    [dx / sqrt 3] and [dy / sqrt 3], turned by [theta]. *)
Theorem hexagon_inscribed_in_ellipse (i : Hexagon.RectangleIn) :
  Hexagon.dx i <> 0 -> Hexagon.dy i <> 0 ->
  Forall (Hexagon.on_ellipse i)
         (Hexagon.vertices (Hexagon.LALHexagonVertices i)).
Proof.
  intros Hdx Hdy.
  unfold Hexagon.vertices, Hexagon.LALHexagonVertices. cbv zeta.
  cbn [Hexagon.x1 Hexagon.y1 Hexagon.x2 Hexagon.y2 Hexagon.x3 Hexagon.y3
       Hexagon.x4 Hexagon.y4 Hexagon.x5 Hexagon.y5 Hexagon.x6 Hexagon.y6].
  assert (Hm : -1 * -1 = 1) by lra. assert (Hp : 1 * 1 = 1) by lra.
  repeat constructor; apply on_ellipse_local.
  - replace (- Hexagon.dx i / 2) with (-1 * Hexagon.dx i / 2) by lra.
    replace (- Hexagon.dy i / sqrt 3 / 2)
      with (-1 * Hexagon.dy i / sqrt 3 / 2) by (unfold Rdiv; ring).
    apply ellipse_side; assumption.
  - replace (- Hexagon.dy i / sqrt 3)
      with (-1 * Hexagon.dy i / sqrt 3) by (unfold Rdiv; ring).
    apply ellipse_tip; assumption.
  - replace (Hexagon.dx i / 2) with (1 * Hexagon.dx i / 2) by lra.
    replace (- Hexagon.dy i / sqrt 3 / 2)
      with (-1 * Hexagon.dy i / sqrt 3 / 2) by (unfold Rdiv; ring).
    apply ellipse_side; assumption.
  - replace (Hexagon.dx i / 2) with (1 * Hexagon.dx i / 2) by lra.
    replace (Hexagon.dy i / sqrt 3 / 2)
      with (1 * Hexagon.dy i / sqrt 3 / 2) by (unfold Rdiv; ring).
    apply ellipse_side; assumption.
  - replace (Hexagon.dy i / sqrt 3)
      with (1 * Hexagon.dy i / sqrt 3) by (unfold Rdiv; ring).
    apply ellipse_tip; assumption.
  - replace (- Hexagon.dx i / 2) with (-1 * Hexagon.dx i / 2) by lra.
    replace (Hexagon.dy i / sqrt 3 / 2)
      with (1 * Hexagon.dy i / sqrt 3 / 2) by (unfold Rdiv; ring).
    apply ellipse_side; assumption.
Qed.

Lemma hexagon_inscribed_in_ellipse_witness :
  Hexagon.dx rect1 <> 0 /\ Hexagon.dy rect1 <> 0
  /\ Forall (Hexagon.on_ellipse rect1)
            (Hexagon.vertices (Hexagon.LALHexagonVertices rect1)).
Proof.
  assert (Hdx : Hexagon.dx rect1 <> 0) by (cbn; lra).
  assert (Hdy : Hexagon.dy rect1 <> 0) by (cbn; lra).
  split; [exact Hdx|]. split; [exact Hdy|].
  exact (hexagon_inscribed_in_ellipse rect1 Hdx Hdy).
Defined.

(** X23.  The hexagon returned is symmetric about the centre [(x0, y0)]:
    the vertices 1 and 4, 2 and 5, 3 and 6 are opposite each other, so the
    centre is the mean of the six vertices; and the seventh point closes
    the polygon on the first. *)
Theorem hexagon_symmetric_about_centre (i : Hexagon.RectangleIn) :
  let o := Hexagon.LALHexagonVertices i in
  (Hexagon.x1 o + Hexagon.x4 o = 2 * Hexagon.x0 i
   /\ Hexagon.y1 o + Hexagon.y4 o = 2 * Hexagon.y0 i)
  /\ (Hexagon.x2 o + Hexagon.x5 o = 2 * Hexagon.x0 i
      /\ Hexagon.y2 o + Hexagon.y5 o = 2 * Hexagon.y0 i)
  /\ (Hexagon.x3 o + Hexagon.x6 o = 2 * Hexagon.x0 i
      /\ Hexagon.y3 o + Hexagon.y6 o = 2 * Hexagon.y0 i)
  /\ (Hexagon.x7 o = Hexagon.x1 o /\ Hexagon.y7 o = Hexagon.y1 o).
Proof.
  cbv zeta. unfold Hexagon.LALHexagonVertices. cbv zeta.
  cbn [Hexagon.x1 Hexagon.y1 Hexagon.x2 Hexagon.y2 Hexagon.x3 Hexagon.y3
       Hexagon.x4 Hexagon.y4 Hexagon.x5 Hexagon.y5 Hexagon.x6 Hexagon.y6
       Hexagon.x7 Hexagon.y7].
  repeat split; unfold Rdiv; ring.
Qed.

(** * The weighting of the complex antenna-pattern coefficients *)

Section WeighFacts.
Import ComplexAM.

Lemma psd_form_zero : psd_form (mksums 0 0 0 0).
Proof. intros x y u v. cbn [sA sB sC sE]. lra. Qed.

(** A new pair of coefficients adds the square of a modulus to the form. *)
Lemma add_terms_psd (s : sums) (ahat bhat : COMPLEX16) :
  psd_form s -> psd_form (add_terms s ahat bhat).
Proof.
  intros Hs x y u v. specialize (Hs x y u v).
  destruct ahat as [ar ai], bhat as [br bi].
  unfold add_terms. cbn [sA sB sC sE creal cimag].
  pose proof (Rle_0_sqr (x * ar - y * ai + u * br - v * bi)) as H1.
  pose proof (Rle_0_sqr (x * ai + y * ar + u * bi + v * br)) as H2.
  unfold Rsqr in H1, H2.
  replace ((sA s + (ar * ar + ai * ai)) * (x * x + y * y)
           + (sB s + (br * br + bi * bi)) * (u * u + v * v)
           + 2 * ((sC s + (ar * br + ai * bi)) * (x * u + y * v)
                  + (sE s + (ar * bi - ai * br)) * (y * u - x * v)))
    with (sA s * (x * x + y * y) + sB s * (u * u + v * v)
          + 2 * (sC s * (x * u + y * v) + sE s * (y * u - x * v))
          + ((x * ar - y * ai + u * br - v * bi)
             * (x * ar - y * ai + u * br - v * bi)
             + (x * ai + y * ar + u * bi + v * br)
               * (x * ai + y * ar + u * bi + v * br))) by ring.
  lra.
Qed.

(** The Cauchy-Schwarz inequality, read off the form. *)
Lemma psd_form_det (s : sums) :
  psd_form s ->
  0 <= sA s /\ 0 <= sB s /\ 0 <= sA s * sB s - sC s * sC s - sE s * sE s.
Proof.
  intros Hs.
  assert (HA : 0 <= sA s).
  { specialize (Hs 1 0 0 0). lra. }
  assert (HB : 0 <= sB s).
  { specialize (Hs 0 0 1 0). lra. }
  split; [exact HA|]. split; [exact HB|].
  set (q := sC s * sC s + sE s * sE s).
  assert (Hq : 0 <= q).
  { unfold q. pose proof (Rle_0_sqr (sC s)). pose proof (Rle_0_sqr (sE s)).
    unfold Rsqr in *. lra. }
  replace (sA s * sB s - sC s * sC s - sE s * sE s)
    with (sA s * sB s - q) by (unfold q; ring).
  destruct (Rle_lt_or_eq_dec 0 (sB s) HB) as [Hpos|Hzero].
  - pose proof (Hs (sB s) 0 (- sC s) (sE s)) as H.
    replace (sA s * (sB s * sB s + 0 * 0)
             + sB s * (- sC s * - sC s + sE s * sE s)
             + 2 * (sC s * (sB s * - sC s + 0 * sE s)
                    + sE s * (0 * - sC s - sB s * sE s)))
      with (sB s * (sA s * sB s - q)) in H by (unfold q; ring).
    apply Rmult_le_reg_l with (sB s); [assumption|]. lra.
  - rewrite <- Hzero, Rmult_0_r.
    destruct (Rle_lt_or_eq_dec 0 q Hq) as [Hqpos|Hq0]; [|lra].
    exfalso.
    pose proof (Hs 1 0 (- ((sA s + 1) / q) * sC s) ((sA s + 1) / q * sE s))
      as H.
    rewrite <- Hzero in H.
    replace (sA s * (1 * 1 + 0 * 0)
             + 0 * (- ((sA s + 1) / q) * sC s * (- ((sA s + 1) / q) * sC s)
                    + (sA s + 1) / q * sE s * ((sA s + 1) / q * sE s))
             + 2 * (sC s * (1 * (- ((sA s + 1) / q) * sC s)
                            + 0 * ((sA s + 1) / q * sE s))
                    + sE s * (0 * (- ((sA s + 1) / q) * sC s)
                              - 1 * ((sA s + 1) / q * sE s))))
      with (sA s - 2 * ((sA s + 1) / q * q)) in H by (unfold q; ring).
    replace ((sA s + 1) / q * q) with (sA s + 1) in H by (field; lra).
    lra.
Qed.

Lemma weigh_steps_psd (n alpha : nat) (w : list R) (am : CmplxAMCoeffs)
  (s : sums) :
  psd_form s -> psd_form (snd (weigh_steps n alpha w am s)).
Proof.
  revert alpha am s. induction n as [|n IH]; intros alpha am s Hs;
    [exact Hs|].
  cbn [weigh_steps]. apply IH, add_terms_psd, Hs.
Qed.

Lemma sum_steps_psd (n alpha : nat) (am : CmplxAMCoeffs) (s : sums) :
  psd_form s -> psd_form (sum_steps n alpha am s).
Proof.
  revert alpha s. induction n as [|n IH]; intros alpha s Hs; [exact Hs|].
  cbn [sum_steps]. apply IH, add_terms_psd, Hs.
Qed.

Lemma weigh_detectors_psd (dws : list (CmplxAMCoeffs * list R)) (s : sums) :
  psd_form s -> psd_form (snd (weigh_detectors dws s)).
Proof.
  revert s. induction dws as [|[am w] dws IH]; intros s Hs; [exact Hs|].
  cbn [weigh_detectors].
  destruct (negb _); [exact Hs|].
  pose proof (weigh_steps_psd (length (a am)) 0 w am s Hs) as H1.
  destruct (weigh_steps _ _ _ _ _) as [am' s']. cbn [snd] in H1.
  specialize (IH s' H1).
  destruct (weigh_detectors dws s') as [[st rest'] s'']. exact IH.
Qed.

Lemma sum_detectors_psd (dets : list CmplxAMCoeffs) (s : sums) :
  psd_form s -> psd_form (sum_detectors dets s).
Proof.
  unfold sum_detectors. revert s.
  induction dets as [|am dets IH]; intros s Hs; [exact Hs|].
  cbn [fold_left]. apply IH, sum_steps_psd, Hs.
Qed.

(** The status of the loop over the detectors. *)
Lemma weigh_detectors_fit (dets : list CmplxAMCoeffs) (ws : list (list R))
  (s : sums) :
  Forall2 (fun am w => length w = length (a am)) dets ws ->
  fst (fst (weigh_detectors (combine dets ws) s)) = XLAL_OK tt.
Proof.
  intros Hfit. revert s.
  induction Hfit as [|am w dets ws Hw Hfit IH]; intros s; [reflexivity|].
  cbn [combine weigh_detectors]. rewrite Hw, Nat.eqb_refl. cbn [negb].
  destruct (weigh_steps _ _ _ _ _) as [am' s'].
  specialize (IH s').
  destruct (weigh_detectors (combine dets ws) s') as [[st rest'] s''].
  exact IH.
Qed.

Lemma weigh_detectors_status (dws : list (CmplxAMCoeffs * list R))
  (s : sums) :
  fst (fst (weigh_detectors dws s)) = XLAL_OK tt
  \/ fst (fst (weigh_detectors dws s)) = XLAL_ERROR XLAL_EINVAL.
Proof.
  revert s. induction dws as [|[am w] dws IH]; intros s; [left; reflexivity|].
  cbn [weigh_detectors]. destruct (negb _); [right; reflexivity|].
  destruct (weigh_steps _ _ _ _ _) as [am' s'].
  specialize (IH s').
  destruct (weigh_detectors dws s') as [[st rest'] s'']. exact IH.
Qed.

Lemma weigh_detectors_unfit (dets : list CmplxAMCoeffs)
  (ws : list (list R)) (s : sums) :
  length dets = length ws ->
  fst (fst (weigh_detectors (combine dets ws) s)) = XLAL_OK tt ->
  Forall2 (fun am w => length w = length (a am)) dets ws.
Proof.
  revert ws s. induction dets as [|am dets IH]; intros ws s Hlen Hok.
  - destruct ws; [constructor | discriminate].
  - destruct ws as [|w ws]; [discriminate|].
    cbn [combine weigh_detectors] in Hok.
    destruct (Nat.eqb_spec (length w) (length (a am))) as [Hw|Hw];
      cbn [negb] in Hok; [|discriminate].
    destruct (weigh_steps _ _ _ _ _) as [am' s'].
    specialize (IH ws s' ltac:(cbn [length] in Hlen; lia)).
    destruct (weigh_detectors (combine dets ws) s') as [[st rest'] s''].
    constructor; [exact Hw | apply IH; exact Hok].
Qed.

Lemma weigh_detectors_length (dws : list (CmplxAMCoeffs * list R))
  (s : sums) :
  length (snd (fst (weigh_detectors dws s))) = length dws.
Proof.
  revert s. induction dws as [|[am w] dws IH]; intros s; [reflexivity|].
  cbn [weigh_detectors]. destruct (negb _).
  - cbn [fst snd]. apply length_map.
  - destruct (weigh_steps _ _ _ _ _) as [am' s'].
    specialize (IH s').
    destruct (weigh_detectors dws s') as [[st rest'] s''].
    cbn [fst snd length] in *. lia.
Qed.

End WeighFacts.

Section WeighTheorems.
Import ComplexAM.

Lemma upd_nth {A : Type} (v : list A) (i : nat) (d : A) :
  upd v i (nth i v d) = v.
Proof.
  revert i. induction v as [|y v IH]; intros i; [reflexivity|].
  destruct i as [|i]; cbn [upd nth]; [reflexivity|]. rewrite IH. reflexivity.
Qed.

Lemma weigh_steps_unit (n alpha : nat) (w : list R) (am : CmplxAMCoeffs)
  (s : sums) :
  (forall k, (alpha <= k < alpha + n)%nat -> nth k w 0 = 1) ->
  weigh_steps n alpha w am s = (am, sum_steps n alpha am s).
Proof.
  revert alpha am s. induction n as [|n IH]; intros alpha am s Hw;
    [reflexivity|].
  cbn [weigh_steps sum_steps]. rewrite (Hw alpha) by lia. rewrite sqrt_1.
  assert (Hz : forall z : COMPLEX16,
             crect (1 * creal z) (1 * cimag z) = z)
    by (intros z; apply cx_eq; simpl; ring).
  rewrite !Hz, !upd_nth. destruct am as [va vb]. cbn [a b].
  apply IH. intros k Hk. apply Hw. lia.
Qed.

Lemma weigh_detectors_unit (dets : list CmplxAMCoeffs) (ws : list (list R))
  (s : sums) :
  Forall2 (fun am w => length w = length (a am)) dets ws ->
  Forall (Forall (fun x => x = 1)) ws ->
  weigh_detectors (combine dets ws) s
  = (XLAL_OK tt, dets, sum_detectors dets s).
Proof.
  intros Hfit. revert s.
  induction Hfit as [|am w dets ws Hw Hfit IH]; intros s Hone;
    [reflexivity|].
  inversion Hone as [|w' ws' Hw1 Hws1]; subst.
  cbn [combine weigh_detectors]. rewrite Hw, Nat.eqb_refl. cbn [negb].
  rewrite weigh_steps_unit.
  - rewrite IH by assumption. reflexivity.
  - intros k Hk. rewrite Forall_forall in Hw1. apply Hw1, nth_In. lia.
Qed.

Lemma weights2_fit : weights_fit multi2 weights2.
Proof. repeat constructor. Qed.

Lemma weigh_multi2 :
  XLALWeighMultiCmplxAMCoeffs (Some multi2) (Some weights2)
  = (XLAL_OK tt, Some weighted2).
Proof.
  unfold weighted2.
  pose proof (weigh_detectors_fit (data multi2) (wdata weights2)
                (mksums 0 0 0 0) weights2_fit) as Hok.
  unfold XLALWeighMultiCmplxAMCoeffs.
  change (negb (length (wdata weights2) =? length (data multi2))%nat)
    with false. cbv iota.
  destruct (weigh_detectors _ _) as [[st dets] s]. cbn [fst] in Hok.
  subst st. reflexivity.
Qed.

(** X24.  For weights that are not negative (or without weights), a call
    that succeeds leaves sums with [Ad >= 0], [Bd >= 0] and a determinant
    [Dd = Ad Bd - Cd ^ 2 - Ed ^ 2] that is not negative. *)
Theorem weigh_determinant_nonneg
  (m m' : MultiCmplxAMCoeffs) (w : option MultiNoiseWeights) :
  match w with
  | Some ws => Forall (Forall (fun x => 0 <= x)) (wdata ws)
  | None => True
  end ->
  XLALWeighMultiCmplxAMCoeffs (Some m) w = (XLAL_OK tt, Some m') ->
  0 <= Ad (Mmunu m') /\ 0 <= Bd (Mmunu m')
  /\ 0 <= Dd (Mmunu m')
  /\ Dd (Mmunu m')
     = Ad (Mmunu m') * Bd (Mmunu m')
       - Cd (Mmunu m') * Cd (Mmunu m') - Ed (Mmunu m') * Ed (Mmunu m').
Proof.
  intros _ Hrun. unfold XLALWeighMultiCmplxAMCoeffs in Hrun.
  assert (Hfin : forall s Sinv,
    psd_form s ->
    0 <= Ad (finish s Sinv) /\ 0 <= Bd (finish s Sinv)
    /\ 0 <= Dd (finish s Sinv)
    /\ Dd (finish s Sinv)
       = Ad (finish s Sinv) * Bd (finish s Sinv)
         - Cd (finish s Sinv) * Cd (finish s Sinv)
         - Ed (finish s Sinv) * Ed (finish s Sinv)).
  { intros s Sinv Hs. destruct (psd_form_det s Hs) as (HA & HB & HD).
    cbn [finish Ad Bd Cd Ed Dd]. auto. }
  destruct w as [ws|].
  - destruct (negb _); [discriminate|].
    pose proof (weigh_detectors_psd (combine (data m) (wdata ws))
                  (mksums 0 0 0 0) psd_form_zero) as Hpsd.
    destruct (weigh_detectors _ _) as [[[[]|e] dets] s];
      [|discriminate].
    injection Hrun as <-. cbn [Mmunu]. apply Hfin. exact Hpsd.
  - injection Hrun as <-. cbn [Mmunu]. apply Hfin.
    apply sum_detectors_psd, psd_form_zero.
Qed.

Lemma weigh_determinant_nonneg_witness :
  Forall (Forall (fun x => 0 <= x)) (wdata weights2)
  /\ XLALWeighMultiCmplxAMCoeffs (Some multi2) (Some weights2)
     = (XLAL_OK tt, Some weighted2)
  /\ 0 <= Ad (Mmunu weighted2) /\ 0 <= Bd (Mmunu weighted2)
  /\ 0 <= Dd (Mmunu weighted2)
  /\ Dd (Mmunu weighted2)
     = Ad (Mmunu weighted2) * Bd (Mmunu weighted2)
       - Cd (Mmunu weighted2) * Cd (Mmunu weighted2)
       - Ed (Mmunu weighted2) * Ed (Mmunu weighted2).
Proof.
  assert (Hw : Forall (Forall (fun x => 0 <= x)) (wdata weights2))
    by (repeat constructor; lra).
  split; [exact Hw|]. split; [exact weigh_multi2|].
  exact (weigh_determinant_nonneg multi2 weighted2 (Some weights2)
           Hw weigh_multi2).
Defined.

(** X25.  A call with weights that fit the coefficients and are all 1
    succeeds, leaves every coefficient as it was, and computes the sums
    that a call without weights computes. *)
Theorem weigh_with_unit_weights
  (m : MultiCmplxAMCoeffs) (w : MultiNoiseWeights) :
  weights_fit m w -> Forall (Forall (fun x => x = 1)) (wdata w) ->
  XLALWeighMultiCmplxAMCoeffs (Some m) (Some w)
  = (XLAL_OK tt,
     Some (mkmulti (data m)
             (finish (sum_detectors (data m) (mksums 0 0 0 0))
                     (wSinv_Tsft w))))
  /\ XLALWeighMultiCmplxAMCoeffs (Some m) None
     = (XLAL_OK tt,
        Some (mkmulti (data m)
                (finish (sum_detectors (data m) (mksums 0 0 0 0))
                        (Sinv_Tsft (Mmunu m))))).
Proof.
  intros Hfit Hone. split; [|reflexivity].
  unfold XLALWeighMultiCmplxAMCoeffs.
  rewrite <- (Forall2_length Hfit), Nat.eqb_refl. cbn [negb].
  rewrite weigh_detectors_unit by assumption. reflexivity.
Qed.

Lemma weigh_with_unit_weights_witness :
  weights_fit multi2 unit_weights2
  /\ Forall (Forall (fun x => x = 1)) (wdata unit_weights2)
  /\ XLALWeighMultiCmplxAMCoeffs (Some multi2) (Some unit_weights2)
     = (XLAL_OK tt,
        Some (mkmulti (data multi2)
                (finish (sum_detectors (data multi2) (mksums 0 0 0 0))
                        (wSinv_Tsft unit_weights2))))
  /\ XLALWeighMultiCmplxAMCoeffs (Some multi2) None
     = (XLAL_OK tt,
        Some (mkmulti (data multi2)
                (finish (sum_detectors (data multi2) (mksums 0 0 0 0))
                        (Sinv_Tsft (Mmunu multi2))))).
Proof.
  assert (Hfit : weights_fit multi2 unit_weights2)
    by (repeat constructor).
  assert (Hone : Forall (Forall (fun x => x = 1)) (wdata unit_weights2))
    by (repeat constructor).
  split; [exact Hfit|]. split; [exact Hone|].
  exact (weigh_with_unit_weights multi2 unit_weights2 Hfit Hone).
Defined.

(** X26.  A call with weights succeeds exactly when there is one weight
    vector for each detector, each as long as the detector's vector [a];
    otherwise it fails with [XLAL_EINVAL].  Without weights it always
    succeeds, and without coefficients it always fails. *)
Theorem weigh_succeeds_iff_weights_fit
  (m : MultiCmplxAMCoeffs) (w : MultiNoiseWeights)
  (w' : option MultiNoiseWeights) :
  (fst (XLALWeighMultiCmplxAMCoeffs (Some m) (Some w)) = XLAL_OK tt
   <-> weights_fit m w)
  /\ (~ weights_fit m w ->
      fst (XLALWeighMultiCmplxAMCoeffs (Some m) (Some w))
      = XLAL_ERROR XLAL_EINVAL)
  /\ fst (XLALWeighMultiCmplxAMCoeffs (Some m) None) = XLAL_OK tt
  /\ fst (XLALWeighMultiCmplxAMCoeffs None w') = XLAL_ERROR XLAL_EINVAL.
Proof.
  assert (Hiff :
    fst (XLALWeighMultiCmplxAMCoeffs (Some m) (Some w)) = XLAL_OK tt
    <-> weights_fit m w).
  { unfold XLALWeighMultiCmplxAMCoeffs, weights_fit. split.
    - destruct (Nat.eqb_spec (length (wdata w)) (length (data m)))
        as [Hlen|Hlen]; cbn [negb]; [|discriminate].
      pose proof (weigh_detectors_unfit (data m) (wdata w) (mksums 0 0 0 0)
                    (eq_sym Hlen)) as H.
      destruct (weigh_detectors _ _) as [[[[]|e] dets] s]; cbn [fst] in *;
        [intros _; apply H; reflexivity | discriminate].
    - intros Hfit. rewrite <- (Forall2_length Hfit), Nat.eqb_refl.
      cbn [negb].
      pose proof (weigh_detectors_fit (data m) (wdata w) (mksums 0 0 0 0)
                    Hfit) as H.
      destruct (weigh_detectors _ _) as [[[[]|e] dets] s]; cbn [fst] in *;
        [reflexivity | discriminate]. }
  split; [exact Hiff|]. split; [|split; reflexivity].
  intros Hnot.
  assert (Hne : fst (XLALWeighMultiCmplxAMCoeffs (Some m) (Some w))
                <> XLAL_OK tt) by (intros E; apply Hnot, Hiff, E).
  unfold XLALWeighMultiCmplxAMCoeffs in *.
  destruct (negb _); [reflexivity|].
  pose proof (weigh_detectors_status (combine (data m) (wdata w))
                (mksums 0 0 0 0)) as Hst.
  destruct (weigh_detectors _ _) as [[[[]|e] dets] s]; cbn [fst] in *.
  - exfalso. apply Hne. reflexivity.
  - destruct Hst as [Hst|Hst]; [discriminate | exact Hst].
Qed.

(** X27.  A call that fails leaves the matrix [Mmunu] and the number of
    detectors as they were; when it fails because the number of weight
    vectors is not the number of detectors, it leaves the whole structure
    as it was. *)
Theorem weigh_failure_keeps_matrix
  (m : MultiCmplxAMCoeffs) (w : option MultiNoiseWeights) (e : errno) :
  fst (XLALWeighMultiCmplxAMCoeffs (Some m) w) = XLAL_ERROR e ->
  (exists m',
     snd (XLALWeighMultiCmplxAMCoeffs (Some m) w) = Some m'
     /\ Mmunu m' = Mmunu m /\ length (data m') = length (data m))
  /\ (forall ws, w = Some ws -> length (wdata ws) <> length (data m) ->
      snd (XLALWeighMultiCmplxAMCoeffs (Some m) w) = Some m).
Proof.
  intros Hfail. unfold XLALWeighMultiCmplxAMCoeffs in *.
  destruct w as [ws|]; [|discriminate]. split.
  - destruct (Nat.eqb_spec (length (wdata ws)) (length (data m)))
      as [Hlen|Hlen]; cbn [negb] in *.
    + pose proof (weigh_detectors_length (combine (data m) (wdata ws))
                    (mksums 0 0 0 0)) as Hl.
      rewrite length_combine, Hlen, Nat.min_id in Hl.
      destruct (weigh_detectors _ _) as [[[[]|e'] dets] s];
        cbn [fst snd] in *; [discriminate|].
      eexists. split; [reflexivity|]. split; [reflexivity | exact Hl].
    + eexists. split; [reflexivity|]. split; reflexivity.
  - intros ws' Hws Hlen. injection Hws as <-.
    destruct (Nat.eqb_spec (length (wdata ws)) (length (data m)));
      [contradiction | reflexivity].
Qed.

Lemma weigh_failure_keeps_matrix_witness :
  fst (XLALWeighMultiCmplxAMCoeffs (Some multi2) (Some weights_short))
  = XLAL_ERROR XLAL_EINVAL
  /\ (exists m',
        snd (XLALWeighMultiCmplxAMCoeffs (Some multi2) (Some weights_short))
        = Some m'
        /\ Mmunu m' = Mmunu multi2
        /\ length (data m') = length (data multi2))
  /\ (forall ws, Some weights_short = Some ws ->
      length (wdata ws) <> length (data multi2) ->
      snd (XLALWeighMultiCmplxAMCoeffs (Some multi2) (Some weights_short))
      = Some multi2).
Proof.
  assert (Hfail :
    fst (XLALWeighMultiCmplxAMCoeffs (Some multi2) (Some weights_short))
    = XLAL_ERROR XLAL_EINVAL) by reflexivity.
  split; [exact Hfail|].
  exact (weigh_failure_keeps_matrix multi2 (Some weights_short) XLAL_EINVAL
           Hfail).
Defined.

End WeighTheorems.

(** * The statements that ligolw_run_sqlite executes *)

Section StatementFacts.
Import RunSqlite.

Lemma split_pair_no_sep (sep : Z) (s : str) :
  ~ In sep (fst (split_pair sep s))
  /\ Forall (fun w => ~ In sep w) (snd (split_pair sep s)).
Proof.
  induction s as [|c s [IH1 IH2]]; [split; [intros [] | constructor]|].
  cbn [split_pair]. destruct (split_pair sep s) as [w ws].
  cbn [fst snd] in *. destruct (Z.eqb_spec c sep) as [->|Hc]; cbn [fst snd].
  - split; [intros [] | constructor; assumption].
  - split; [|assumption]. intros [E|Hin]; [congruence | contradiction].
Qed.

Lemma split_no_sep (sep : Z) (s : str) :
  Forall (fun w => ~ In sep w) (split sep s).
Proof.
  unfold split. pose proof (split_pair_no_sep sep s) as [H1 H2].
  destruct (split_pair sep s) as [w ws]. constructor; assumption.
Qed.

Lemma split_app (sep : Z) (s1 s2 : str) :
  split sep (s1 ++ sep :: s2) = split sep s1 ++ split sep s2.
Proof.
  unfold split. induction s1 as [|c s1 IH].
  - cbn [app split_pair]. rewrite Z.eqb_refl.
    destruct (split_pair sep s2) as [w ws]. reflexivity.
  - cbn [app split_pair].
    destruct (split_pair sep (s1 ++ sep :: s2)) as [w ws].
    destruct (split_pair sep s1) as [w1 ws1].
    destruct (split_pair sep s2) as [w2 ws2].
    cbn [app] in IH. injection IH as -> ->.
    destruct (c =? sep)%Z; reflexivity.
Qed.

Lemma lstrip_incl (s : str) (c : Z) : In c (lstrip s) -> In c s.
Proof.
  induction s as [|d s IH]; [intros []|]. cbn [lstrip].
  destruct (is_space d); [intros H; right; apply IH, H | intros H; exact H].
Qed.

Lemma lstrip_head (s : str) (c : Z) :
  hd_error (lstrip s) = Some c -> is_space c = false.
Proof.
  induction s as [|d s IH]; [discriminate|]. cbn [lstrip].
  destruct (is_space d) eqn:Hd; [exact IH|].
  cbn [hd_error]. intros E. injection E as <-. exact Hd.
Qed.

Lemma lstrip_keeps_last (s : str) (c : Z) :
  is_space c = false -> lstrip (s ++ [c]) = lstrip s ++ [c].
Proof.
  intros Hc. induction s as [|d s IH].
  - cbn [app lstrip]. rewrite Hc. reflexivity.
  - cbn [app lstrip]. destruct (is_space d); [exact IH | reflexivity].
Qed.

Lemma strip_incl (s : str) (c : Z) : In c (strip s) -> In c s.
Proof.
  unfold strip. intros H. apply in_rev in H. apply lstrip_incl in H.
  apply in_rev in H. apply lstrip_incl in H. exact H.
Qed.

Lemma strip_ends (s : str) (c : Z) :
  (hd_error (strip s) = Some c -> is_space c = false)
  /\ (hd_error (rev (strip s)) = Some c -> is_space c = false).
Proof.
  unfold strip. rewrite rev_involutive. split; [|apply lstrip_head].
  pose proof (lstrip_head s) as Hhd.
  destruct (lstrip s) as [|d u]; [discriminate|].
  specialize (Hhd d eq_refl).
  cbn [rev]. rewrite lstrip_keeps_last by exact Hhd.
  rewrite rev_app_distr. cbn [rev app hd_error].
  intros E. injection E as <-. exact Hhd.
Qed.

(** X28.  Every statement kept from the [--sql] code is non-empty, holds no
    semicolon, and neither begins nor ends with a whitespace character. *)
Theorem statements_are_clean (sql : str) :
  Forall
    (fun statement =>
       statement <> []
       /\ ~ In semicolon statement
       /\ (forall c, hd_error statement = Some c -> is_space c = false)
       /\ (forall c, hd_error (rev statement) = Some c ->
                     is_space c = false))
    (statements sql).
Proof.
  unfold statements. apply Forall_forall. intros st Hst.
  apply filter_In in Hst. destruct Hst as [Hin Hne].
  apply in_map_iff in Hin. destruct Hin as (w & <- & Hw).
  pose proof (split_no_sep semicolon sql) as Hsep.
  rewrite Forall_forall in Hsep. specialize (Hsep w Hw).
  split; [|split; [|split]].
  - intros E. rewrite E in Hne. discriminate Hne.
  - intros Hc. apply Hsep, strip_incl, Hc.
  - intros c. apply strip_ends.
  - intros c. apply strip_ends.
Qed.

(** X29.  The statements of two pieces of code joined by a semicolon are
    the statements of the first followed by those of the second. *)
Theorem statements_of_joined_code (sql1 sql2 : str) :
  statements (sql1 ++ semicolon :: sql2)
  = statements sql1 ++ statements sql2.
Proof.
  unfold statements. rewrite split_app, map_app, filter_app. reflexivity.
Qed.

End StatementFacts.
